(** * Marketplace integration service

    A model of the parts of the service that carry state or compute
    something: the sync-job queue kept in [marketplace.sync_jobs], the
    paginated listings, the connection table filled by the OAuth callbacks,
    the webhook handlers and the Shopee request signature.

    Conventions.
    - A database table is the list of its rows in storage order.  The
      database is taken to answer every statement; an operation fails only
      where the statement itself is rejected (a key violation, an unknown
      column).  A failing operation is [None] and leaves the table as it was.
    - [time.Now()] is an explicit argument [now].  An instant is a number of
      nanoseconds counted from the zero [time.Time].
    - Go's [int] and [int64] are 64-bit two's complement; arithmetic done in
      Go wraps ([Go.wrap]), arithmetic done by the database does not.
    - A Go [string] and a [[]byte] are both a [string] here: a sequence of
      8-bit characters. *)

From Stdlib Require Import ZArith String Ascii List DecimalString DecimalPos
  PrimFloat.
From stdpp Require Import base decidable option list strings sorting relations.

Local Open Scope Z_scope.

(** ** Go integers *)

Module Go.

(** The value of an integer expression in 64 bits. *)
Definition wrap (z : Z) : Z := (z + 2 ^ 63) mod 2 ^ 64 - 2 ^ 63.

Definition in_int (z : Z) : Prop := - 2 ^ 63 ≤ z < 2 ^ 63.

Definition add (a b : Z) : Z := wrap (a + b).
Definition sub (a b : Z) : Z := wrap (a - b).
Definition mul (a b : Z) : Z := wrap (a * b).
Definition neg (a : Z) : Z := wrap (- a).

End Go.

Abbreviation time := Z (only parsing).
Abbreviation uuid := N (only parsing).

(** [uuid.Nil], the zero value of a [uuid.UUID]. *)
Definition uuid_Nil : uuid := 0%N.

(** [time.Hour] and [time.Second] as a [time.Duration] (nanoseconds). *)
Definition Second : Z := 1000000000.
Definition Hour : Z := 3600 * Second.

(** ** The query layer

    The repositories talk to the database through chained calls
    ([Where], [Order], [Limit], [Offset], then [Find], [Count], [First],
    [Updates] or [Delete]).  A [Query] collects what the chain says; the
    finishers run it against the rows of the table. *)

Inductive sqlval : Type :=
  | SqlNull
  | SqlText (s : string)
  | SqlInt (z : Z)
  | SqlTime (t : time)
  | SqlBool (b : bool)
  | SqlUuid (u : uuid).

(** What the mapping of a struct to its table provides: the primary
    key, and column assignment by column name.  [set_column] is [None] for
    a column the table does not have or a value of the wrong type. *)
Class Table (A : Type) := pk : A → uuid.
Class Columns (A : Type) := set_column : string → sqlval → A → option A.

(** The value side of an [Updates] map: a plain value, or an SQL expression
    ([gorm.Expr]) computed from the row as it is before the update. *)
Inductive setter (A : Type) : Type :=
  | Val (v : sqlval)
  | Expr (e : A → sqlval).
Arguments Val {A} v.
Arguments Expr {A} e.

Record Query (A : Type) := mkQuery {
  q_where : A → bool;
  q_order : option (A → A → bool);
  q_limit : option Z;
  q_offset : option Z
}.
Arguments mkQuery {A}.
Arguments q_where {A}.
Arguments q_order {A}.
Arguments q_limit {A}.
Arguments q_offset {A}.

Notation "q |> f" := (f q) (at level 45, left associativity, only parsing).

Section Gorm.
Context {A : Type} `{Table A} `{Columns A}.

(** The handle before any condition: every row, storage order. *)
Definition Model : Query A :=
  mkQuery (λ _, true) None None None.

(** Successive [Where] calls are joined by AND. *)
Definition Where (c : A → bool) (q : Query A) : Query A :=
  mkQuery (λ r, q_where q r && c r) (q_order q) (q_limit q) (q_offset q).

Definition Order (le : A → A → bool) (q : Query A) : Query A :=
  mkQuery (q_where q) (Some le) (q_limit q) (q_offset q).

Definition Limit (n : Z) (q : Query A) : Query A :=
  mkQuery (q_where q) (q_order q) (Some n) (q_offset q).

Definition Offset (n : Z) (q : Query A) : Query A :=
  mkQuery (q_where q) (q_order q) (q_limit q) (Some n).

(** ORDER BY on a key, ascending and descending. *)
Definition asc (key : A → Z) : A → A → bool :=
  λ x y, bool_decide (key x ≤ key y).
Definition desc (key : A → Z) : A → A → bool :=
  λ x y, bool_decide (key y ≤ key x).

Definition matching (q : Query A) (rows : list A) : list A :=
  filter (λ r, q_where q r) rows.

Definition ordered (q : Query A) (rows : list A) : list A :=
  match q_order q with
  | Some le => merge_sort (λ x y, le x y) rows
  | None => rows
  end.

(** An OFFSET clause is written only for a positive offset. *)
Definition skipped (q : Query A) (rows : list A) : list A :=
  match q_offset q with
  | Some n => if bool_decide (0 < n) then drop (Z.to_nat n) rows else rows
  | None => rows
  end.

(** A LIMIT clause is written only for a limit that is not negative;
    a negative limit means no limit. *)
Definition limited (q : Query A) (rows : list A) : list A :=
  match q_limit q with
  | Some n => if bool_decide (0 ≤ n) then take (Z.to_nat n) rows else rows
  | None => rows
  end.

(** SELECT: filter, sort, skip, truncate, in that order whatever the
    order of the calls in the chain. *)
Definition Find (q : Query A) (rows : list A) : list A :=
  limited q (skipped q (ordered q (matching q rows))).

(** SELECT count( * ) over the conditions. *)
Definition Count (q : Query A) (rows : list A) : Z :=
  Z.of_nat (length (matching q rows)).

(** [First]: the matching row with the least primary key, [None] for
    no such row (ErrRecordNotFound). *)
Definition pk_le (x y : A) : bool := (pk x <=? pk y)%N.

Definition First (q : Query A) (rows : list A) : option A :=
  head (merge_sort (λ x y, pk_le x y) (matching q rows)).

Definition assign (sets : list (string * setter A)) (old : A) : option A :=
  foldl (λ acc cs,
           r ← acc;
           set_column cs.1
             (match cs.2 with Val v => v | Expr e => e old end) r)
        (Some old) sets.

(** UPDATE ... SET ... WHERE: every right-hand side is read from the row
    before the update. *)
Definition Updates (sets : list (string * setter A)) (q : Query A)
    (rows : list A) : option (list A) :=
  mapM (λ r, if q_where q r then assign sets r else Some r) rows.

(** DELETE ... WHERE. *)
Definition Delete (q : Query A) (rows : list A) : list A :=
  filter (λ r, negb (q_where q r)) rows.

(** INSERT of a row whose defaults are already filled in: rejected when
    the primary key is taken. *)
Definition Insert (row : A) (rows : list A) : option (list A) :=
  if bool_decide (pk row ∈ pk <$> rows) then None else Some (rows ++ [row]).

End Gorm.

(** ** Sync jobs (the [SyncJob] struct and its constants) *)

Module SyncJob.

Record t : Type := mk {
  ID : uuid;
  ConnectionID : uuid;
  JobType : string;
  Payload : string;
  Status : string;
  Attempts : Z;
  MaxAttempts : Z;
  ErrorMessage : string;
  ScheduledAt : time;
  StartedAt : option time;
  CompletedAt : option time;
  CreatedAt : time
}.

Definition with_ConnectionID (v : uuid) (j : t) : t :=
  mk (ID j) v (JobType j) (Payload j) (Status j) (Attempts j)
     (MaxAttempts j) (ErrorMessage j) (ScheduledAt j) (StartedAt j)
     (CompletedAt j) (CreatedAt j).
Definition with_JobType (v : string) (j : t) : t :=
  mk (ID j) (ConnectionID j) v (Payload j) (Status j) (Attempts j)
     (MaxAttempts j) (ErrorMessage j) (ScheduledAt j) (StartedAt j)
     (CompletedAt j) (CreatedAt j).
Definition with_Payload (v : string) (j : t) : t :=
  mk (ID j) (ConnectionID j) (JobType j) v (Status j) (Attempts j)
     (MaxAttempts j) (ErrorMessage j) (ScheduledAt j) (StartedAt j)
     (CompletedAt j) (CreatedAt j).
Definition with_Status (v : string) (j : t) : t :=
  mk (ID j) (ConnectionID j) (JobType j) (Payload j) v (Attempts j)
     (MaxAttempts j) (ErrorMessage j) (ScheduledAt j) (StartedAt j)
     (CompletedAt j) (CreatedAt j).
Definition with_Attempts (v : Z) (j : t) : t :=
  mk (ID j) (ConnectionID j) (JobType j) (Payload j) (Status j) v
     (MaxAttempts j) (ErrorMessage j) (ScheduledAt j) (StartedAt j)
     (CompletedAt j) (CreatedAt j).
Definition with_MaxAttempts (v : Z) (j : t) : t :=
  mk (ID j) (ConnectionID j) (JobType j) (Payload j) (Status j)
     (Attempts j) v (ErrorMessage j) (ScheduledAt j) (StartedAt j)
     (CompletedAt j) (CreatedAt j).
Definition with_ErrorMessage (v : string) (j : t) : t :=
  mk (ID j) (ConnectionID j) (JobType j) (Payload j) (Status j)
     (Attempts j) (MaxAttempts j) v (ScheduledAt j) (StartedAt j)
     (CompletedAt j) (CreatedAt j).
Definition with_ScheduledAt (v : time) (j : t) : t :=
  mk (ID j) (ConnectionID j) (JobType j) (Payload j) (Status j)
     (Attempts j) (MaxAttempts j) (ErrorMessage j) v (StartedAt j)
     (CompletedAt j) (CreatedAt j).
Definition with_StartedAt (v : option time) (j : t) : t :=
  mk (ID j) (ConnectionID j) (JobType j) (Payload j) (Status j)
     (Attempts j) (MaxAttempts j) (ErrorMessage j) (ScheduledAt j) v
     (CompletedAt j) (CreatedAt j).
Definition with_CompletedAt (v : option time) (j : t) : t :=
  mk (ID j) (ConnectionID j) (JobType j) (Payload j) (Status j)
     (Attempts j) (MaxAttempts j) (ErrorMessage j) (ScheduledAt j)
     (StartedAt j) v (CreatedAt j).
Definition with_CreatedAt (v : time) (j : t) : t :=
  mk (ID j) (ConnectionID j) (JobType j) (Payload j) (Status j)
     (Attempts j) (MaxAttempts j) (ErrorMessage j) (ScheduledAt j)
     (StartedAt j) (CompletedAt j) v.
Definition with_ID (v : uuid) (j : t) : t :=
  mk v (ConnectionID j) (JobType j) (Payload j) (Status j)
     (Attempts j) (MaxAttempts j) (ErrorMessage j) (ScheduledAt j)
     (StartedAt j) (CompletedAt j) (CreatedAt j).

(** Job status constants *)
Definition JobStatusPending : string := "pending".
Definition JobStatusProcessing : string := "processing".
Definition JobStatusCompleted : string := "completed".
Definition JobStatusFailed : string := "failed".

(** A nullable timestamp column takes a time or NULL. *)
Definition nullable_time (v : sqlval) : option (option time) :=
  match v with
  | SqlTime x => Some (Some x)
  | SqlNull => Some None
  | _ => None
  end.

(** Columns of [marketplace.sync_jobs] that the struct maps. *)
Definition set (col : string) (v : sqlval) (j : t) : option t :=
  if decide (col = "id") then
    match v with SqlUuid u => Some (with_ID u j) | _ => None end
  else if decide (col = "connection_id") then
    match v with SqlUuid u => Some (with_ConnectionID u j) | _ => None end
  else if decide (col = "job_type") then
    match v with SqlText s => Some (with_JobType s j) | _ => None end
  else if decide (col = "payload") then
    match v with SqlText s => Some (with_Payload s j) | _ => None end
  else if decide (col = "status") then
    match v with SqlText s => Some (with_Status s j) | _ => None end
  else if decide (col = "attempts") then
    match v with SqlInt z => Some (with_Attempts z j) | _ => None end
  else if decide (col = "max_attempts") then
    match v with SqlInt z => Some (with_MaxAttempts z j) | _ => None end
  else if decide (col = "error_message") then
    match v with SqlText s => Some (with_ErrorMessage s j) | _ => None end
  else if decide (col = "scheduled_at") then
    match v with SqlTime x => Some (with_ScheduledAt x j) | _ => None end
  else if decide (col = "started_at") then
    x ← nullable_time v; Some (with_StartedAt x j)
  else if decide (col = "completed_at") then
    x ← nullable_time v; Some (with_CompletedAt x j)
  else if decide (col = "created_at") then
    match v with SqlTime x => Some (with_CreatedAt x j) | _ => None end
  else None.

#[export] Instance table : Table t := ID.
#[export] Instance columns : Columns t := set.

(** The struct tags' defaults, taken by a zero-valued field on insert:
    a generated id, status 'pending', three attempts allowed, scheduled
    now, created now. *)
Definition with_defaults (fresh : uuid) (now : time) (j : t) : t :=
  mk (if decide (ID j = uuid_Nil) then fresh else ID j)
     (ConnectionID j) (JobType j) (Payload j)
     (if decide (Status j = "") then JobStatusPending else Status j)
     (Attempts j)
     (if decide (MaxAttempts j = 0) then 3 else MaxAttempts j)
     (ErrorMessage j)
     (if decide (ScheduledAt j = 0) then now else ScheduledAt j)
     (StartedAt j) (CompletedAt j)
     (if decide (CreatedAt j = 0) then now else CreatedAt j).

(** The row [MarkProcessing] writes. *)
Definition processing (now : time) (j : t) : t :=
  mk (ID j) (ConnectionID j) (JobType j) (Payload j) JobStatusProcessing
     (Attempts j + 1) (MaxAttempts j) (ErrorMessage j) (ScheduledAt j)
     (Some now) (CompletedAt j) (CreatedAt j).

(** The row [MarkCompleted] writes. *)
Definition completed (now : time) (j : t) : t :=
  mk (ID j) (ConnectionID j) (JobType j) (Payload j) JobStatusCompleted
     (Attempts j) (MaxAttempts j) (ErrorMessage j) (ScheduledAt j)
     (StartedAt j) (Some now) (CreatedAt j).

(** The row [MarkFailed] writes. *)
Definition failed (errorMessage : string) (j : t) : t :=
  mk (ID j) (ConnectionID j) (JobType j) (Payload j) JobStatusFailed
     (Attempts j) (MaxAttempts j) errorMessage (ScheduledAt j)
     (StartedAt j) (CompletedAt j) (CreatedAt j).

(** An update of the rows with a given id. *)
Definition at_id (id : uuid) (f : t → t) (j : t) : t :=
  if decide (ID j = id) then f j else j.


(** Two rows that agree on every field but [Status] and
    [ErrorMessage]. *)
Definition same_but_status_error (j j' : t) : Prop :=
  ID j' = ID j
  ∧ ConnectionID j' = ConnectionID j
  ∧ JobType j' = JobType j
  ∧ Payload j' = Payload j
  ∧ Attempts j' = Attempts j
  ∧ MaxAttempts j' = MaxAttempts j
  ∧ ScheduledAt j' = ScheduledAt j
  ∧ StartedAt j' = StartedAt j
  ∧ CompletedAt j' = CompletedAt j
  ∧ CreatedAt j' = CreatedAt j.

End SyncJob.

Module SyncJobFilter.

Record t : Type := mk {
  ConnectionID : option uuid;
  JobType : string;
  Status : string;
  Page : Z;
  PageSize : Z
}.


(** The page and the page size a listing uses: those of the filter
    where they are positive, else 1 and 20. *)
Definition page_of (filter : option t) : Z :=
  match filter with
  | Some f => if decide (Page f > 0) then Page f else 1
  | None => 1
  end.

Definition size_of (filter : option t) : Z :=
  match filter with
  | Some f => if decide (PageSize f > 0) then PageSize f else 20
  | None => 20
  end.

(** The rows a listing of a connection counts: those of the connection
    that have the job type and the status of the filter, where the
    filter names them. *)
Definition admits (connectionID : uuid) (filter : option t)
    (j : SyncJob.t) : Prop :=
  SyncJob.ConnectionID j = connectionID
  ∧ match filter with
    | Some f =>
        (JobType f = "" ∨ SyncJob.JobType j = JobType f)
        ∧ (Status f = "" ∨ SyncJob.Status j = Status f)
    | None => True
    end.

#[global] Instance admits_dec connectionID filter j :
  Decision (admits connectionID filter j).
Proof. unfold admits. destruct filter; apply _. Defined.

End SyncJobFilter.

(** [Save]: a struct with a zero primary key is created; otherwise the
    row with that key is overwritten with every field of the struct
    ([stamp] sets the auto-update time where the struct has one), and
    when no row has the key the struct is created.  [create] is the
    table's insert, defaults and constraints included. *)
Section GormSave.
Context {A : Type} `{Table A}.

Definition Save (create : A → list A → option (list A)) (stamp : A → A)
    (row : A) (rows : list A) : option (list A) :=
  if decide (pk row = uuid_Nil) then create row rows
  else if bool_decide (pk row ∈ pk <$> rows)
       then Some ((λ r, if decide (pk r = pk row) then stamp row else r)
                    <$> rows)
       else create row rows.

End GormSave.

Abbreviation Gorm_Delete := Delete (only parsing).

(** ** The sync-job repository of [internal/repository/sync_job_repo.go] *)

Module repository.

Import SyncJob.

(** Create creates a new sync job *)
Definition Create (fresh : uuid) (now : time) (job : SyncJob.t)
    (db : list SyncJob.t) : option (list SyncJob.t) :=
  Insert (with_defaults fresh now job) db.

(** GetByID retrieves a sync job by ID *)
Definition GetByID (id : uuid) (db : list SyncJob.t) : option SyncJob.t :=
  (Model |> Where (λ j, bool_decide (ID j = id)) |> First) db.

(** GetByConnectionID retrieves jobs for a connection with optional
    filters *)
Definition GetByConnectionID (connectionID : uuid)
    (filter : option SyncJobFilter.t) (db : list SyncJob.t)
    : list SyncJob.t * Z :=
  let query :=
    Model |> Where (λ j, bool_decide (ConnectionID j = connectionID)) in
  let query :=
    match filter with
    | Some f =>
        let query :=
          if decide (SyncJobFilter.JobType f ≠ "")
          then query |> Where (λ j, bool_decide (JobType j = SyncJobFilter.JobType f))
          else query in
        if decide (SyncJobFilter.Status f ≠ "")
        then query |> Where (λ j, bool_decide (Status j = SyncJobFilter.Status f))
        else query
    | None => query
    end in
  let total := Count query db in
  let page := 1 in
  let pageSize := 20 in
  let page :=
    match filter with
    | Some f => if decide (SyncJobFilter.Page f > 0)
                then SyncJobFilter.Page f else page
    | None => page
    end in
  let pageSize :=
    match filter with
    | Some f => if decide (SyncJobFilter.PageSize f > 0)
                then SyncJobFilter.PageSize f else pageSize
    | None => pageSize
    end in
  let offset := Go.mul (Go.sub page 1) pageSize in
  let jobs :=
    (query |> Offset offset |> Limit pageSize
           |> Order (desc CreatedAt) |> Find) db in
  (jobs, total).

(** GetPendingJobs retrieves pending jobs for processing *)
Definition GetPendingJobs (now : time) (limit : Z) (db : list SyncJob.t)
    : list SyncJob.t :=
  (Model
     |> Where (λ j, bool_decide (Status j = JobStatusPending
                                 ∧ ScheduledAt j ≤ now
                                 ∧ Attempts j < MaxAttempts j))
     |> Order (asc ScheduledAt)
     |> Limit limit
     |> Find) db.

(** GetFailedJobs retrieves failed jobs that can be retried *)
Definition GetFailedJobs (connectionID : uuid) (db : list SyncJob.t)
    : list SyncJob.t :=
  (Model
     |> Where (λ j, bool_decide (ConnectionID j = connectionID
                                 ∧ Status j = JobStatusFailed
                                 ∧ Attempts j < MaxAttempts j))
     |> Order (desc CreatedAt)
     |> Find) db.

(** Update updates a sync job *)
Definition Update (fresh : uuid) (now : time) (job : SyncJob.t)
    (db : list SyncJob.t) : option (list SyncJob.t) :=
  Save (Create fresh now) id job db.

(** MarkProcessing marks a job as processing *)
Definition MarkProcessing (now : time) (id : uuid) (db : list SyncJob.t)
    : option (list SyncJob.t) :=
  (Model
     |> Where (λ j, bool_decide (ID j = id))
     |> Updates [("status", Val (SqlText JobStatusProcessing));
                 ("started_at", Val (SqlTime now));
                 ("attempts", Expr (λ j, SqlInt (Attempts j + 1)))]) db.

(** MarkCompleted marks a job as completed *)
Definition MarkCompleted (now : time) (id : uuid) (db : list SyncJob.t)
    : option (list SyncJob.t) :=
  (Model
     |> Where (λ j, bool_decide (ID j = id))
     |> Updates [("status", Val (SqlText JobStatusCompleted));
                 ("completed_at", Val (SqlTime now))]) db.

(** MarkFailed marks a job as failed with error message *)
Definition MarkFailed (id : uuid) (errorMessage : string)
    (db : list SyncJob.t) : option (list SyncJob.t) :=
  (Model
     |> Where (λ j, bool_decide (ID j = id))
     |> Updates [("status", Val (SqlText JobStatusFailed));
                 ("error_message", Val (SqlText errorMessage))]) db.

(** Delete deletes a sync job *)
Definition Delete (id : uuid) (db : list SyncJob.t)
    : option (list SyncJob.t) :=
  Some ((Model |> Where (λ j, bool_decide (ID j = id)) |> Gorm_Delete) db).

(** DeleteOldCompleted deletes completed jobs older than specified
    hours *)
Definition DeleteOldCompleted (now : time) (olderThanHours : Z)
    (db : list SyncJob.t) : option (list SyncJob.t) :=
  let cutoff := now + Go.mul (Go.neg olderThanHours) Hour in
  Some ((Model
           |> Where (λ j, bool_decide (Status j = JobStatusCompleted)
                          && match CompletedAt j with
                             | Some c => bool_decide (c < cutoff)
                             | None => false
                             end)
           |> Gorm_Delete) db).

End repository.

(** ** The sync-job repository of
    [internal/infrastructure/persistence/imported_product_repo.go] *)

Module persistence.

Import SyncJob.

(** Create creates a new sync job *)
Definition Create (fresh : uuid) (now : time) (job : SyncJob.t)
    (db : list SyncJob.t) : option (list SyncJob.t) :=
  Insert (with_defaults fresh now job) db.

(** GetByID retrieves a sync job by ID *)
Definition GetByID (id : uuid) (db : list SyncJob.t) : option SyncJob.t :=
  (Model |> Where (λ j, bool_decide (ID j = id)) |> First) db.

(** GetByConnectionID retrieves jobs for a connection with optional
    filters *)
Definition GetByConnectionID (connectionID : uuid)
    (filter : option SyncJobFilter.t) (db : list SyncJob.t)
    : list SyncJob.t * Z :=
  let query :=
    Model |> Where (λ j, bool_decide (ConnectionID j = connectionID)) in
  let query :=
    match filter with
    | Some f =>
        let query :=
          if decide (SyncJobFilter.JobType f ≠ "")
          then query |> Where (λ j, bool_decide (JobType j = SyncJobFilter.JobType f))
          else query in
        if decide (SyncJobFilter.Status f ≠ "")
        then query |> Where (λ j, bool_decide (Status j = SyncJobFilter.Status f))
        else query
    | None => query
    end in
  let total := Count query db in
  let page := 1 in
  let pageSize := 20 in
  let page :=
    match filter with
    | Some f => if decide (SyncJobFilter.Page f > 0)
                then SyncJobFilter.Page f else page
    | None => page
    end in
  let pageSize :=
    match filter with
    | Some f => if decide (SyncJobFilter.PageSize f > 0)
                then SyncJobFilter.PageSize f else pageSize
    | None => pageSize
    end in
  let offset := Go.mul (Go.sub page 1) pageSize in
  let jobs :=
    (query |> Offset offset |> Limit pageSize
           |> Order (desc CreatedAt) |> Find) db in
  (jobs, total).

(** GetPendingJobs retrieves pending jobs for processing *)
Definition GetPendingJobs (now : time) (limit : Z) (db : list SyncJob.t)
    : list SyncJob.t :=
  (Model
     |> Where (λ j, bool_decide (Status j = JobStatusPending
                                 ∧ ScheduledAt j ≤ now
                                 ∧ Attempts j < MaxAttempts j))
     |> Order (asc ScheduledAt)
     |> Limit limit
     |> Find) db.

(** GetFailedJobs retrieves failed jobs that can be retried *)
Definition GetFailedJobs (connectionID : uuid) (db : list SyncJob.t)
    : list SyncJob.t :=
  (Model
     |> Where (λ j, bool_decide (ConnectionID j = connectionID
                                 ∧ Status j = JobStatusFailed
                                 ∧ Attempts j < MaxAttempts j))
     |> Order (desc CreatedAt)
     |> Find) db.

(** Update updates a sync job *)
Definition Update (fresh : uuid) (now : time) (job : SyncJob.t)
    (db : list SyncJob.t) : option (list SyncJob.t) :=
  Save (Create fresh now) id job db.

(** MarkProcessing marks a job as processing *)
Definition MarkProcessing (now : time) (id : uuid) (db : list SyncJob.t)
    : option (list SyncJob.t) :=
  (Model
     |> Where (λ j, bool_decide (ID j = id))
     |> Updates [("status", Val (SqlText JobStatusProcessing));
                 ("started_at", Val (SqlTime now));
                 ("attempts", Expr (λ j, SqlInt (Attempts j + 1)))]) db.

(** MarkCompleted marks a job as completed *)
Definition MarkCompleted (now : time) (id : uuid) (db : list SyncJob.t)
    : option (list SyncJob.t) :=
  (Model
     |> Where (λ j, bool_decide (ID j = id))
     |> Updates [("status", Val (SqlText JobStatusCompleted));
                 ("completed_at", Val (SqlTime now))]) db.

(** MarkFailed marks a job as failed with error message *)
Definition MarkFailed (id : uuid) (errorMessage : string)
    (db : list SyncJob.t) : option (list SyncJob.t) :=
  (Model
     |> Where (λ j, bool_decide (ID j = id))
     |> Updates [("status", Val (SqlText JobStatusFailed));
                 ("error_message", Val (SqlText errorMessage))]) db.

(** Delete deletes a sync job *)
Definition Delete (id : uuid) (db : list SyncJob.t)
    : option (list SyncJob.t) :=
  Some ((Model |> Where (λ j, bool_decide (ID j = id)) |> Gorm_Delete) db).

(** DeleteOldCompleted deletes completed jobs older than specified
    hours *)
Definition DeleteOldCompleted (now : time) (olderThanHours : Z)
    (db : list SyncJob.t) : option (list SyncJob.t) :=
  let cutoff := now + Go.mul (Go.neg olderThanHours) Hour in
  Some ((Model
           |> Where (λ j, bool_decide (Status j = JobStatusCompleted)
                          && match CompletedAt j with
                             | Some c => bool_decide (c < cutoff)
                             | None => false
                             end)
           |> Gorm_Delete) db).

End persistence.

(** ** Product mappings and their listing
    ([ProductMappingRepository.GetByConnectionID]) *)

Module ProductMapping.

Record t : Type := mk {
  ID : uuid;
  ConnectionID : uuid;
  InternalProductID : uuid;
  ExternalProductID : string;
  ExternalSKU : string;
  SyncStatus : string;
  LastSyncedAt : option time;
  SyncError : string;
  CreatedAt : time;
  UpdatedAt : time
}.

(** SyncStatus constants *)
Definition SyncStatusSynced : string := "synced".
Definition SyncStatusPending : string := "pending".
Definition SyncStatusError : string := "error".

Definition with_sync (status : string) (lastSyncedAt : option time)
    (syncError : string) (m : t) : t :=
  mk (ID m) (ConnectionID m) (InternalProductID m) (ExternalProductID m)
     (ExternalSKU m) status lastSyncedAt syncError (CreatedAt m)
     (UpdatedAt m).

Definition with_UpdatedAt (v : time) (m : t) : t :=
  mk (ID m) (ConnectionID m) (InternalProductID m) (ExternalProductID m)
     (ExternalSKU m) (SyncStatus m) (LastSyncedAt m) (SyncError m)
     (CreatedAt m) v.

(** Columns of [marketplace.product_mappings]. *)
Definition set (col : string) (v : sqlval) (m : t) : option t :=
  if decide (col = "id") then
    match v with
    | SqlUuid u =>
        Some (mk u (ConnectionID m) (InternalProductID m)
                (ExternalProductID m) (ExternalSKU m) (SyncStatus m)
                (LastSyncedAt m) (SyncError m) (CreatedAt m) (UpdatedAt m))
    | _ => None
    end
  else if decide (col = "connection_id") then
    match v with
    | SqlUuid u =>
        Some (mk (ID m) u (InternalProductID m) (ExternalProductID m)
                (ExternalSKU m) (SyncStatus m) (LastSyncedAt m)
                (SyncError m) (CreatedAt m) (UpdatedAt m))
    | _ => None
    end
  else if decide (col = "internal_product_id") then
    match v with
    | SqlUuid u =>
        Some (mk (ID m) (ConnectionID m) u (ExternalProductID m)
                (ExternalSKU m) (SyncStatus m) (LastSyncedAt m)
                (SyncError m) (CreatedAt m) (UpdatedAt m))
    | _ => None
    end
  else if decide (col = "external_product_id") then
    match v with
    | SqlText x =>
        Some (mk (ID m) (ConnectionID m) (InternalProductID m) x
                (ExternalSKU m) (SyncStatus m) (LastSyncedAt m)
                (SyncError m) (CreatedAt m) (UpdatedAt m))
    | _ => None
    end
  else if decide (col = "external_sku") then
    match v with
    | SqlText x =>
        Some (mk (ID m) (ConnectionID m) (InternalProductID m)
                (ExternalProductID m) x (SyncStatus m) (LastSyncedAt m)
                (SyncError m) (CreatedAt m) (UpdatedAt m))
    | _ => None
    end
  else if decide (col = "sync_status") then
    match v with
    | SqlText x => Some (with_sync x (LastSyncedAt m) (SyncError m) m)
    | _ => None
    end
  else if decide (col = "last_synced_at") then
    match v with
    | SqlTime x => Some (with_sync (SyncStatus m) (Some x) (SyncError m) m)
    | SqlNull => Some (with_sync (SyncStatus m) None (SyncError m) m)
    | _ => None
    end
  else if decide (col = "sync_error") then
    match v with
    | SqlText x => Some (with_sync (SyncStatus m) (LastSyncedAt m) x m)
    | _ => None
    end
  else if decide (col = "created_at") then
    match v with
    | SqlTime x =>
        Some (mk (ID m) (ConnectionID m) (InternalProductID m)
                (ExternalProductID m) (ExternalSKU m) (SyncStatus m)
                (LastSyncedAt m) (SyncError m) x (UpdatedAt m))
    | _ => None
    end
  else if decide (col = "updated_at") then
    match v with SqlTime x => Some (with_UpdatedAt x m) | _ => None end
  else None.

#[export] Instance table : Table t := ID.
#[export] Instance columns : Columns t := set.

End ProductMapping.

Module ProductMappingFilter.

Record t : Type := mk {
  ConnectionID : option uuid;
  InternalProductID : option uuid;
  SyncStatus : string;
  Page : Z;
  PageSize : Z
}.


Definition page_of (filter : option t) : Z :=
  match filter with
  | Some f => if decide (Page f > 0) then Page f else 1
  | None => 1
  end.

Definition size_of (filter : option t) : Z :=
  match filter with
  | Some f => if decide (PageSize f > 0) then PageSize f else 20
  | None => 20
  end.

(** The rows a listing of a connection counts. *)
Definition admits (connectionID : uuid) (filter : option t)
    (m : ProductMapping.t) : Prop :=
  ProductMapping.ConnectionID m = connectionID
  ∧ match filter with
    | Some f =>
        (SyncStatus f = "" ∨ ProductMapping.SyncStatus m = SyncStatus f)
        ∧ match InternalProductID f with
          | Some p => ProductMapping.InternalProductID m = p
          | None => True
          end
    | None => True
    end.

#[global] Instance admits_dec connectionID filter m :
  Decision (admits connectionID filter m).
Proof.
  unfold admits. destruct filter as [f|]; [|apply _].
  destruct (InternalProductID f); apply _.
Defined.

End ProductMappingFilter.

Module ProductMappingRepository.

Import ProductMapping.

(** GetByConnectionID retrieves all mappings for a connection *)
Definition GetByConnectionID (connectionID : uuid)
    (filter : option ProductMappingFilter.t) (db : list ProductMapping.t)
    : list ProductMapping.t * Z :=
  let query :=
    Model |> Where (λ m, bool_decide (ConnectionID m = connectionID)) in
  let query :=
    match filter with
    | Some f =>
        let query :=
          if decide (ProductMappingFilter.SyncStatus f ≠ "")
          then query |> Where (λ m, bool_decide (SyncStatus m = ProductMappingFilter.SyncStatus f))
          else query in
        match ProductMappingFilter.InternalProductID f with
        | Some p => query |> Where (λ m, bool_decide (InternalProductID m = p))
        | None => query
        end
    | None => query
    end in
  (* Count total *)
  let total := Count query db in
  (* Apply pagination *)
  let page := 1 in
  let pageSize := 20 in
  let page :=
    match filter with
    | Some f => if decide (ProductMappingFilter.Page f > 0)
                then ProductMappingFilter.Page f else page
    | None => page
    end in
  let pageSize :=
    match filter with
    | Some f => if decide (ProductMappingFilter.PageSize f > 0)
                then ProductMappingFilter.PageSize f else pageSize
    | None => pageSize
    end in
  let offset := Go.mul (Go.sub page 1) pageSize in
  let mappings :=
    (query |> Offset offset |> Limit pageSize
           |> Order (desc CreatedAt) |> Find) db in
  (mappings, total).

(** A Go map with string keys, written as the list of its entries:
    [m[key] = v]. *)
Fixpoint map_set {V} (key : string) (v : V) (m : list (string * V))
    : list (string * V) :=
  match m with
  | [] => [(key, v)]
  | kv :: rest =>
      if decide (kv.1 = key) then (key, v) :: rest
      else kv :: map_set key v rest
  end.

(** UpdateSyncStatus updates the sync status of a mapping.  [NOW()] is
    the time of the statement; an update through the model also writes
    the auto-update time. *)
Definition UpdateSyncStatus (now : time) (id : uuid)
    (status errorMessage : string) (db : list ProductMapping.t)
    : option (list ProductMapping.t) :=
  let updates :=
    [("sync_status", Val (SqlText status));
     ("sync_error", Val (SqlText errorMessage))] in
  let updates :=
    if decide (status = SyncStatusSynced)
    then map_set "sync_error" (Val (SqlText ""))
           (map_set "last_synced_at" (Expr (λ _, SqlTime now)) updates)
    else updates in
  (Model
     |> Where (λ m, bool_decide (ID m = id))
     |> Updates (map_set "updated_at" (Val (SqlTime now)) updates)) db.

(** Delete deletes a product mapping *)
Definition Delete (id : uuid) (db : list ProductMapping.t)
    : option (list ProductMapping.t) :=
  Some ((Model |> Where (λ m, bool_decide (ID m = id)) |> Gorm_Delete) db).

(** DeleteByConnectionID deletes all mappings for a connection *)
Definition DeleteByConnectionID (connectionID : uuid)
    (db : list ProductMapping.t) : option (list ProductMapping.t) :=
  Some ((Model
           |> Where (λ m, bool_decide (ConnectionID m = connectionID))
           |> Gorm_Delete) db).

(** GetPendingMappings retrieves mappings that need syncing *)
Definition GetPendingMappings (connectionID : uuid) (limit : Z)
    (db : list ProductMapping.t) : list ProductMapping.t :=
  (Model
     |> Where (λ m, bool_decide (ConnectionID m = connectionID
                                 ∧ SyncStatus m = SyncStatusPending))
     |> Limit limit
     |> Find) db.

(** GetErrorMappings retrieves mappings that have sync errors *)
Definition GetErrorMappings (connectionID : uuid)
    (db : list ProductMapping.t) : list ProductMapping.t :=
  (Model
     |> Where (λ m, bool_decide (ConnectionID m = connectionID
                                 ∧ SyncStatus m = SyncStatusError))
     |> Find) db.

End ProductMappingRepository.

(** ** Imported products ([ImportedProduct]) and their repository
    ([ImportedProductRepository]) *)

Module ImportedProduct.

Record t : Type := mk {
  ID : uuid;
  ConnectionID : uuid;
  ExternalProductID : string;
  ExternalSKU : string;
  Name : string;
  Description : string;
  Price : float;
  Stock : Z;
  CategoryID : string;
  Status : string;
  ImageURL : string;
  IsMapped : bool;
  MappedToProductID : option uuid;
  ImportedAt : time;
  UpdatedAt : time
}.

Definition with_mapping (isMapped : bool) (mappedTo : option uuid)
    (p : t) : t :=
  mk (ID p) (ConnectionID p) (ExternalProductID p) (ExternalSKU p)
     (Name p) (Description p) (Price p) (Stock p) (CategoryID p)
     (Status p) (ImageURL p) isMapped mappedTo (ImportedAt p)
     (UpdatedAt p).

Definition with_UpdatedAt (v : time) (p : t) : t :=
  mk (ID p) (ConnectionID p) (ExternalProductID p) (ExternalSKU p)
     (Name p) (Description p) (Price p) (Stock p) (CategoryID p)
     (Status p) (ImageURL p) (IsMapped p) (MappedToProductID p)
     (ImportedAt p) v.

(** Columns of [marketplace.imported_products] that the repository
    assigns by name. *)
Definition set (col : string) (v : sqlval) (p : t) : option t :=
  if decide (col = "is_mapped") then
    match v with
    | SqlBool b => Some (with_mapping b (MappedToProductID p) p)
    | _ => None
    end
  else if decide (col = "mapped_to_product_id") then
    match v with
    | SqlUuid u => Some (with_mapping (IsMapped p) (Some u) p)
    | SqlNull => Some (with_mapping (IsMapped p) None p)
    | _ => None
    end
  else if decide (col = "updated_at") then
    match v with SqlTime x => Some (with_UpdatedAt x p) | _ => None end
  else None.

#[export] Instance table : Table t := ID.
#[export] Instance columns : Columns t := set.

(** The struct tags' defaults on insert: a generated id, imported and
    updated now.  The defaults of [Stock] and [IsMapped] are their zero
    values. *)
Definition with_defaults (fresh : uuid) (now : time) (p : t) : t :=
  mk (if decide (ID p = uuid_Nil) then fresh else ID p)
     (ConnectionID p) (ExternalProductID p) (ExternalSKU p) (Name p)
     (Description p) (Price p) (Stock p) (CategoryID p) (Status p)
     (ImageURL p) (IsMapped p) (MappedToProductID p)
     (if decide (ImportedAt p = 0) then now else ImportedAt p)
     (if decide (UpdatedAt p = 0) then now else UpdatedAt p).

(** The product of the marketplace a row stands for: the columns of
    [CONSTRAINT unique_connection_imported_product]. *)
Definition product (p : t) : uuid * string :=
  (ConnectionID p, ExternalProductID p).

(** [ON CONFLICT ... DO UPDATE SET] of [Upsert]: the stored row takes
    the name, description, price, stock, category, status, image and
    SKU of the row proposed for insertion; the update trigger of the
    table sets [updated_at]. *)
Definition refreshed (now : time) (excluded old : t) : t :=
  mk (ID old) (ConnectionID old) (ExternalProductID old)
     (ExternalSKU excluded) (Name excluded) (Description excluded)
     (Price excluded) (Stock excluded) (CategoryID excluded)
     (Status excluded) (ImageURL excluded) (IsMapped old)
     (MappedToProductID old) (ImportedAt old) now.

End ImportedProduct.

Module ImportedProductRepository.

Import ImportedProduct.

(** Upsert creates or updates an imported product *)
Definition Upsert (fresh : uuid) (now : time) (product : ImportedProduct.t)
    (db : list ImportedProduct.t) : option (list ImportedProduct.t) :=
  let row := with_defaults fresh now product in
  if bool_decide (ImportedProduct.product row
                  ∈ ImportedProduct.product <$> db)
  then Some ((λ r, if decide (ImportedProduct.product r
                              = ImportedProduct.product row)
                   then refreshed now row r else r) <$> db)
  else Insert row db.

(** GetByID retrieves an imported product by ID *)
Definition GetByID (id : uuid) (db : list ImportedProduct.t)
    : option ImportedProduct.t :=
  (Model |> Where (λ p, bool_decide (ID p = id)) |> First) db.

(** GetByExternalProductID retrieves an imported product by connection
    and external product ID *)
Definition GetByExternalProductID (connectionID : uuid)
    (externalProductID : string) (db : list ImportedProduct.t)
    : option ImportedProduct.t :=
  (Model
     |> Where (λ p, bool_decide (ConnectionID p = connectionID
                                 ∧ ExternalProductID p = externalProductID))
     |> First) db.

(** SetMapped marks an imported product as mapped to an internal
    product *)
Definition SetMapped (now : time) (id : uuid) (internalProductID : uuid)
    (db : list ImportedProduct.t) : option (list ImportedProduct.t) :=
  (Model
     |> Where (λ p, bool_decide (ID p = id))
     |> Updates [("is_mapped", Val (SqlBool true));
                 ("mapped_to_product_id", Val (SqlUuid internalProductID));
                 ("updated_at", Val (SqlTime now))]) db.

(** SetUnmapped marks an imported product as unmapped *)
Definition SetUnmapped (now : time) (id : uuid)
    (db : list ImportedProduct.t) : option (list ImportedProduct.t) :=
  (Model
     |> Where (λ p, bool_decide (ID p = id))
     |> Updates [("is_mapped", Val (SqlBool false));
                 ("mapped_to_product_id", Val SqlNull);
                 ("updated_at", Val (SqlTime now))]) db.

(** Delete deletes an imported product *)
Definition Delete (id : uuid) (db : list ImportedProduct.t)
    : option (list ImportedProduct.t) :=
  Some ((Model |> Where (λ p, bool_decide (ID p = id)) |> Gorm_Delete) db).

(** DeleteByConnectionID deletes all imported products for a
    connection *)
Definition DeleteByConnectionID (connectionID : uuid)
    (db : list ImportedProduct.t) : option (list ImportedProduct.t) :=
  Some ((Model
           |> Where (λ p, bool_decide (ConnectionID p = connectionID))
           |> Gorm_Delete) db).

(** GetUnmappedCount returns count of unmapped products *)
Definition GetUnmappedCount (connectionID : uuid)
    (db : list ImportedProduct.t) : Z :=
  (Model
     |> Where (λ p, bool_decide (ConnectionID p = connectionID
                                 ∧ IsMapped p = false))
     |> Count) db.

(** The table's keys: the primary key and the unique constraint. *)
Definition keyed (db : list ImportedProduct.t) : Prop :=
  NoDup (ID <$> db) ∧ NoDup (ImportedProduct.product <$> db).

End ImportedProductRepository.

(** ** Library functions the service calls: SHA-256, HMAC, hex, Sprintf *)

Definition bytes_of_string (s : string) : list Z :=
  (λ c, Z.of_N (N_of_ascii c)) <$> list_ascii_of_string s.

Definition string_of_bytes (l : list Z) : string :=
  string_of_list_ascii ((λ b, ascii_of_N (Z.to_N b)) <$> l).

(** [crypto/sha256], after FIPS 180-4. *)
Module sha256.

Definition BlockSize : Z := 64.

Definition mask32 (x : Z) : Z := x mod 2 ^ 32.
Definition add32 (x y : Z) : Z := mask32 (x + y).
Definition rotr (n x : Z) : Z :=
  mask32 (Z.lor (Z.shiftr x n) (Z.shiftl x (32 - n))).

Definition Ch (x y z : Z) : Z :=
  Z.lxor (Z.land x y) (Z.land (Z.lxor x (2 ^ 32 - 1)) z).
Definition Maj (x y z : Z) : Z :=
  Z.lxor (Z.lxor (Z.land x y) (Z.land x z)) (Z.land y z).
Definition bsig0 (x : Z) : Z :=
  Z.lxor (Z.lxor (rotr 2 x) (rotr 13 x)) (rotr 22 x).
Definition bsig1 (x : Z) : Z :=
  Z.lxor (Z.lxor (rotr 6 x) (rotr 11 x)) (rotr 25 x).
Definition ssig0 (x : Z) : Z :=
  Z.lxor (Z.lxor (rotr 7 x) (rotr 18 x)) (Z.shiftr x 3).
Definition ssig1 (x : Z) : Z :=
  Z.lxor (Z.lxor (rotr 17 x) (rotr 19 x)) (Z.shiftr x 10).

Definition primes : list Z :=
  [2; 3; 5; 7; 11; 13; 17; 19; 23; 29; 31; 37; 41; 43; 47; 53; 59; 61; 67;
   71; 73; 79; 83; 89; 97; 101; 103; 107; 109; 113; 127; 131; 137; 139;
   149; 151; 157; 163; 167; 173; 179; 181; 191; 193; 197; 199; 211; 223;
   227; 229; 233; 239; 241; 251; 257; 263; 269; 271; 277; 281; 283; 293;
   307; 311].

(** The integer cube root, one bit at a time from bit [bits - 1] down. *)
Fixpoint cube_root (bits : nat) (n r : Z) : Z :=
  match bits with
  | O => r
  | S b =>
      let r' := r + 2 ^ Z.of_nat b in
      cube_root b n (if (r' * r' * r' <=? n) then r' else r)
  end.

(** The round constants: the first 32 bits of the fractional parts of
    the cube roots of the first 64 primes. *)
Definition K : list Z :=
  Eval vm_compute in
    (λ p, mask32 (cube_root 36 (p * 2 ^ 96) 0)) <$> primes.

(** The initial hash value: the same of the square roots of the first
    8 primes. *)
Definition H0 : list Z :=
  Eval vm_compute in (λ p, mask32 (Z.sqrt (p * 2 ^ 64))) <$> take 8 primes.

Definition be_bytes (width : nat) (n : Z) : list Z :=
  (λ i, (n / 256 ^ Z.of_nat i) mod 256) <$> reverse (seq 0 width).

(** Padding: a one bit, zeros, and the bit length in 64 bits, up to a
    multiple of the block size. *)
Definition pad (msg : list Z) : list Z :=
  let len := Z.of_nat (length msg) in
  msg ++ [128] ++ replicate (Z.to_nat ((55 - len) mod 64)) 0
      ++ be_bytes 8 (8 * len).

Fixpoint words (bs : list Z) : list Z :=
  match bs with
  | b0 :: b1 :: b2 :: b3 :: rest =>
      (((b0 * 256 + b1) * 256 + b2) * 256 + b3) :: words rest
  | _ => []
  end.

Fixpoint blocks (fuel : nat) (ws : list Z) : list (list Z) :=
  match fuel, ws with
  | S f, _ :: _ => take 16 ws :: blocks f (drop 16 ws)
  | _, _ => []
  end.

(** The message schedule, newest word first while it is built. *)
Fixpoint extend (n : nat) (w : list Z) : list Z :=
  match n with
  | O => w
  | S n' =>
      let g i := nth i w 0 in
      extend n'
        (add32 (add32 (ssig1 (g 1%nat)) (g 6%nat))
               (add32 (ssig0 (g 14%nat)) (g 15%nat)) :: w)
  end.

Definition schedule (block : list Z) : list Z :=
  reverse (extend 48 (reverse block)).

Definition round (st : list Z) (kw : Z * Z) : list Z :=
  match st with
  | [a; b; c; d; e; f; g; h] =>
      let t1 := add32 (add32 (add32 h (bsig1 e)) (Ch e f g))
                      (add32 kw.1 kw.2) in
      let t2 := add32 (bsig0 a) (Maj a b c) in
      [add32 t1 t2; a; b; c; add32 d t1; e; f; g]
  | _ => st
  end.

Definition compress (h : list Z) (block : list Z) : list Z :=
  zip_with add32 h (foldl round h (zip K (schedule block))).

Definition sum_bytes (msg : list Z) : list Z :=
  let ws := words (pad msg) in
  foldl compress H0 (blocks (length ws) ws) ≫= be_bytes 4.

(** [sha256.Sum256], the 32 bytes of the digest. *)
Definition Sum256 (data : string) : string :=
  string_of_bytes (sum_bytes (bytes_of_string data)).

End sha256.

(** [crypto/hmac] over SHA-256 (RFC 2104), and the streaming interface
    the service uses: [New], [Write], [Sum], [Equal]. *)
Module hmac.

Definition xor_pad (p : Z) (key : list Z) : list Z :=
  (λ b, Z.lxor b p) <$> key.

Definition mac (key msg : string) : string :=
  let k := bytes_of_string key in
  let k := if bool_decide (sha256.BlockSize < Z.of_nat (length k))
           then sha256.sum_bytes k else k in
  let k := k ++ replicate (Z.to_nat sha256.BlockSize - length k) 0 in
  let inner := sha256.sum_bytes (xor_pad 54 k ++ bytes_of_string msg) in
  string_of_bytes (sha256.sum_bytes (xor_pad 92 k ++ inner)).

Record Hash : Type := mkHash { key : string; written : string }.

Definition New (k : string) : Hash := mkHash k "".
Definition Write (p : string) (h : Hash) : Hash :=
  mkHash (key h) (written h ++ p).
Definition Sum (b : string) (h : Hash) : string :=
  b ++ mac (key h) (written h).

(** [hmac.Equal]: equal length and equal contents. *)
Definition Equal (mac1 mac2 : string) : bool := bool_decide (mac1 = mac2).

End hmac.

(** [encoding/hex] *)
Module hex.

Definition hextable : string := "0123456789abcdef".

Definition digit (n : Z) : ascii :=
  default "0"%char (String.get (Z.to_nat n) hextable).

Definition EncodeToString (src : string) : string :=
  string_of_list_ascii
    (bytes_of_string src ≫= λ b, [digit (b / 16); digit (b mod 16)]).


(** A lowercase hexadecimal digit. *)
Definition is_lower_hex (c : ascii) : Prop :=
  c ∈ list_ascii_of_string hextable.

End hex.

(** [fmt.Sprintf] for the verbs the service uses on integers and
    strings. *)
Module fmt.

Inductive arg : Type :=
  | Int (z : Z)
  | Str (s : string).

(** The decimal form of an integer, as [%d] and [strconv] print it. *)
Definition decimal (z : Z) : string := NilZero.string_of_int (Z.to_int z).

Definition typed (a : arg) : string :=
  match a with
  | Int z => "int64=" ++ decimal z
  | Str s => "string=" ++ s
  end.

Definition verb (v : ascii) (a : arg) : string :=
  match a with
  | Int z =>
      if decide (v = "d"%char ∨ v = "v"%char) then decimal z
      else "%!" ++ String v ("(" ++ typed a ++ ")")
  | Str s =>
      if decide (v = "s"%char ∨ v = "v"%char) then s
      else "%!" ++ String v ("(" ++ typed a ++ ")")
  end.

Fixpoint join (sep : string) (l : list string) : string :=
  match l with
  | [] => ""
  | [x] => x
  | x :: rest => x ++ sep ++ join sep rest
  end.

Fixpoint Sprintf (format : string) (args : list arg) : string :=
  match format with
  | EmptyString =>
      match args with
      | [] => ""
      | _ => "%!(EXTRA " ++ join ", " (typed <$> args) ++ ")"
      end
  | String c rest =>
      if decide (c = "%"%char) then
        match rest with
        | EmptyString => "%!(NOVERB)"
        | String v rest' =>
            if decide (v = "%"%char) then String "%" (Sprintf rest' args)
            else match args with
                 | [] => "%!" ++ String v ("(MISSING)" ++ Sprintf rest' [])
                 | a :: args' => verb v a ++ Sprintf rest' args'
                 end
        end
      else String c (Sprintf rest args)
  end.

End fmt.

(** ** [strconv.ParseInt] and [strconv.ParseUint], base 10, 64 bits *)

Module strconv.

Inductive NumError : Type :=
  | ErrSyntax
  | ErrRange.

#[global] Instance NumError_eq_dec : EqDecision NumError.
Proof. solve_decision. Defined.

Definition maxUint64 : Z := 2 ^ 64 - 1.

(** The value of a decimal digit; [None] for any other byte (a letter
    is a digit of a base above 10). *)
Definition digit (c : ascii) : option Z :=
  let b := Z.of_N (N_of_ascii c) in
  if bool_decide (48 ≤ b ≤ 57) then Some (b - 48) else None.

(** The loop of [ParseUint] over the bytes, [n] the value so far. *)
Fixpoint digits (s : string) (n : Z) : Z * option NumError :=
  match s with
  | EmptyString => (n, None)
  | String c rest =>
      match digit c with
      | None => (0, Some ErrSyntax)
      | Some d =>
          let cutoff := maxUint64 / 10 + 1 in
          if decide (cutoff ≤ n) then
            (* n*base overflows *)
            (maxUint64, Some ErrRange)
          else
            let n := n * 10 in
            let n1 := (n + d) mod 2 ^ 64 in
            if decide (n1 < n ∨ n1 > maxUint64) then
              (* n+d overflows *)
              (maxUint64, Some ErrRange)
            else digits rest n1
      end
  end.

Definition ParseUint (s : string) : Z * option NumError :=
  match s with
  | EmptyString => (0, Some ErrSyntax)
  | _ => digits s 0
  end.

Definition ParseInt (s : string) : Z * option NumError :=
  match s with
  | EmptyString => (0, Some ErrSyntax)
  | String c rest =>
      (* Pick off leading sign. *)
      let neg := bool_decide (c = "-"%char) in
      let s' := if decide (c = "+"%char ∨ c = "-"%char) then rest else s in
      (* Convert unsigned and check range. *)
      match ParseUint s' with
      | (_, Some ErrSyntax) => (0, Some ErrSyntax)
      | (un, _) =>
          let cutoff := 2 ^ 63 in
          if bool_decide (neg = false ∧ cutoff ≤ un) then
            (cutoff - 1, Some ErrRange)
          else if bool_decide (neg = true ∧ un > cutoff) then
            (- cutoff, Some ErrRange)
          else
            let n := Go.wrap un in
            (if neg then Go.neg n else n, None)
      end
  end.

End strconv.

(** ** The Shopee client ([internal/providers/shopee/client.go]) *)

Module shopee.

Record Client : Type := mkClient {
  partnerID : Z;
  partnerKey : string;
  baseURL : string;
  accessToken : string;
  shopID : Z
}.

Definition ProductionBaseURL : string :=
  "https://partner.shopeemobile.com".
Definition SandboxBaseURL : string :=
  "https://partner.test-stable.shopeemobile.com".

Record ClientConfig : Type := mkConfig {
  PartnerID : string;
  PartnerKey : string;
  IsSandbox : bool;
  RedirectURL : string
}.

(** NewClient creates a new Shopee API client; [None] is the error
    'invalid partner ID'. *)
Definition NewClient (cfg : ClientConfig) : option Client :=
  let (partnerID, err) := strconv.ParseInt (PartnerID cfg) in
  if bool_decide (err ≠ None ∧ PartnerID cfg ≠ "") then None
  else
    let baseURL :=
      if IsSandbox cfg then SandboxBaseURL else ProductionBaseURL in
    Some (mkClient partnerID (PartnerKey cfg) baseURL "" 0).

(** SetTokens sets the access token and shop ID for authenticated
    requests *)
Definition SetTokens (accessToken : string) (shopID : Z) (c : Client)
    : Client :=
  mkClient (partnerID c) (partnerKey c) (baseURL c) accessToken shopID.

(** generateSign generates the HMAC-SHA256 signature for Shopee API *)
Definition generateSign (c : Client) (path : string) (timestamp : Z)
    : string :=
  let baseString :=
    fmt.Sprintf "%d%s%d"
      [fmt.Int (partnerID c); fmt.Str path; fmt.Int timestamp] in
  let h := hmac.New (partnerKey c) in
  let h := hmac.Write baseString h in
  hex.EncodeToString (hmac.Sum "" h).

(** generateSignWithTokens generates signature for authenticated
    endpoints *)
Definition generateSignWithTokens (c : Client) (path : string)
    (timestamp : Z) (accessToken : string) (shopID : Z) : string :=
  let baseString :=
    fmt.Sprintf "%d%s%d%s%d"
      [fmt.Int (partnerID c); fmt.Str path; fmt.Int timestamp;
       fmt.Str accessToken; fmt.Int shopID] in
  let h := hmac.New (partnerKey c) in
  let h := hmac.Write baseString h in
  hex.EncodeToString (hmac.Sum "" h).

End shopee.

(** ** Webhook handlers ([WebhookHandler]) *)

Module handlers.

Record WebhookHandler : Type := mkHandler {
  shopeeKey : string;
  tiktokSecret : string
}.

(** An inbound request: [Body] is what [io.ReadAll] gives, [None] when
    reading fails; [Header] holds the header fields under their canonical
    names. *)
Record Request : Type := mkRequest {
  Method : string;
  Path : string;
  Body : option string;
  Header : list (string * string)
}.

Definition GetHeader (key : string) (req : Request) : string :=
  match list_find (λ kv, kv.1 = key) (Header req) with
  | Some (_, kv) => kv.2
  | None => ""
  end.

Definition StatusOK : Z := 200.
Definition StatusBadRequest : Z := 400.
Definition StatusUnauthorized : Z := 401.

Inductive level : Type := Info | Warn | Error.

(** The calls a handler starts with [go]. *)
Inductive call : Type :=
  | HandleShopeeOrderEvent (shopID : Z) (orderSN status : string)
  | HandleTikTokOrderEvent (shopID orderID : string) (orderStatus : Z).

(** What a handler does with a request: the log lines it writes, the
    response it sends ([c.JSON]: a status and an object of strings), the
    calls it starts. *)
Record Outcome : Type := mkOutcome {
  logged : list (level * string);
  status : Z;
  payload : list (string * string);
  started : list call
}.

Module ShopeeEvent.
Record t : Type := mk {
  Code : Z;
  ShopID : Z;
  Timestamp : Z;
  Data_OrderSN : string;
  Data_Status : string
}.
End ShopeeEvent.

Module TikTokEvent.
Record t : Type := mk {
  Type_ : string;
  ShopID : string;
  Timestamp : Z;
  Data_OrderID : string;
  Data_OrderStatus : Z
}.
End TikTokEvent.

Section Handlers.
(** [json.Unmarshal] into the three structs the handlers declare;
    [None] is a returned error.  For the test push the result is the
    [push_verification_code] read. *)
Variable unmarshal_testPush : string → option string.
Variable unmarshal_shopeeEvent : string → option ShopeeEvent.t.
Variable unmarshal_tiktokEvent : string → option TikTokEvent.t.

Definition verifyShopeeSignature (h : WebhookHandler) (body : string)
    (signature : string) : bool :=
  if decide (signature = "") then false
  else
    let mac := hmac.New (shopeeKey h) in
    let mac := hmac.Write body mac in
    let expected := hex.EncodeToString (hmac.Sum "" mac) in
    hmac.Equal expected signature.

(** HandleShopeeWebhook handles incoming Shopee webhooks *)
Definition HandleShopeeWebhook (h : WebhookHandler) (req : Request)
    : Outcome :=
  let log := [(Info, "Shopee webhook received")] in
  (* Read body *)
  match Body req with
  | None =>
      mkOutcome (log ++ [(Error, "Failed to read webhook body")])
        StatusBadRequest [("error", "failed to read body")] []
  | Some body =>
      let log := log ++ [(Info, "Shopee webhook body received")] in
      (* Check for push_verification_code (Shopee test push) *)
      let testPush := unmarshal_testPush body in
      if bool_decide (is_Some testPush ∧ default "" testPush ≠ "")
      then
        mkOutcome (log ++ [(Info, "Shopee test push received")])
          StatusOK
          [("push_verification_code", default "" testPush)] []
      else
        (* Verify signature if key is configured *)
        let log :=
          if decide (shopeeKey h ≠ "") then
            let signature := GetHeader "Authorization" req in
            let log := log ++ [(Info, "Shopee signature check")] in
            if bool_decide (signature ≠ "")
               && negb (verifyShopeeSignature h body signature)
            then log ++ [(Warn, "Invalid Shopee webhook signature")]
                 (* Don't reject - just log warning for now *)
            else log
          else log in
        (* Parse event *)
        match unmarshal_shopeeEvent body with
        | None =>
            (* Still return 200 to acknowledge receipt *)
            mkOutcome
              (log ++ [(Error, "Failed to parse Shopee webhook")])
              StatusOK
              [("status", "received"); ("warning", "parse error")] []
        | Some event =>
            let log :=
              log ++ [(Info, "Received Shopee webhook event")] in
            (* Process order event *)
            let go :=
              if decide (ShopeeEvent.Data_OrderSN event ≠ "")
              then [HandleShopeeOrderEvent (ShopeeEvent.ShopID event)
                      (ShopeeEvent.Data_OrderSN event)
                      (ShopeeEvent.Data_Status event)]
              else [] in
            mkOutcome log StatusOK [("status", "received")] go
        end
  end.

Definition verifyTikTokSignature (h : WebhookHandler) (body : string)
    (signature : string) : bool :=
  if decide (signature = "") then false
  else
    let mac := hmac.New (tiktokSecret h) in
    let mac := hmac.Write body mac in
    let expected := hex.EncodeToString (hmac.Sum "" mac) in
    hmac.Equal expected signature.

(** HandleTikTokWebhook handles incoming TikTok webhooks *)
Definition HandleTikTokWebhook (h : WebhookHandler) (req : Request)
    : Outcome :=
  (* Read body *)
  match Body req with
  | None =>
      mkOutcome [(Error, "Failed to read webhook body")]
        StatusBadRequest [("error", "failed to read body")] []
  | Some body =>
      (* Verify signature if secret is configured *)
      if bool_decide (tiktokSecret h ≠ "")
         && negb (verifyTikTokSignature h body
                    (GetHeader "X-Tts-Signature" req))
      then
        mkOutcome [(Warn, "Invalid TikTok webhook signature")]
          StatusUnauthorized [("error", "invalid signature")] []
      else
        (* Parse event *)
        match unmarshal_tiktokEvent body with
        | None =>
            mkOutcome [(Error, "Failed to parse TikTok webhook")]
              StatusBadRequest [("error", "invalid payload")] []
        | Some event =>
            (* Process order event *)
            let go :=
              if bool_decide
                   (TikTokEvent.Type_ event = "ORDER_STATUS_CHANGE"
                    ∧ TikTokEvent.Data_OrderID event ≠ "")
              then [HandleTikTokOrderEvent (TikTokEvent.ShopID event)
                      (TikTokEvent.Data_OrderID event)
                      (TikTokEvent.Data_OrderStatus event)]
              else [] in
            mkOutcome [(Info, "Received TikTok webhook")]
              StatusOK [("status", "received")] go
        end
  end.

End Handlers.

(** The signature a webhook is expected to carry: the hex-encoded
    HMAC-SHA256 of the raw body under the platform secret. *)
Definition expected_signature (secret body : string) : string :=
  hex.EncodeToString (hmac.mac secret body).

(** A request is rejected: the response is not a 2xx and no order event
    is handed on. *)
Definition rejected (o : Outcome) : Prop :=
  ¬ (200 ≤ status o < 300) ∧ started o = [].


(** What signature verification asks of a handler: whenever the
    platform secret is configured and the signature header of a request
    is not the expected signature of its body, the request is
    rejected. *)
Definition verifies (handle : WebhookHandler → Request → Outcome)
    (secret : WebhookHandler → string) (header : string) : Prop :=
  ∀ h req body,
    Body req = Some body →
    secret h ≠ "" →
    GetHeader header req ≠ expected_signature (secret h) body →
    rejected (handle h req).

End handlers.

(** ** A reader for JSON bodies

    Enough of [encoding/json] to decode the webhook bodies used in the
    examples: objects, arrays, strings with the single-character escapes,
    integers, [true], [false], [null].  Numbers with a fraction or an
    exponent and [\u] escapes are not read (the reader answers [None]). *)

Module json.

#[local] Set Warnings "-register-all".

Inductive value : Type :=
  | Null
  | Bool (b : bool)
  | Number (z : Z)
  | Str (s : string)
  | Array (l : list value)
  | Object (l : list (string * value)).

(** The double quote. *)
Definition quote : ascii := "034"%char.

Definition is_space (c : ascii) : bool :=
  bool_decide (c = " "%char ∨ c = "009"%char ∨ c = "010"%char
               ∨ c = "013"%char).

Fixpoint skip_space (s : string) : string :=
  match s with
  | String c rest => if is_space c then skip_space rest else s
  | EmptyString => s
  end.

Definition unescape (c : ascii) : option ascii :=
  if decide (c = quote ∨ c = "\"%char ∨ c = "/"%char) then Some c
  else if decide (c = "b"%char) then Some "008"%char
  else if decide (c = "f"%char) then Some "012"%char
  else if decide (c = "n"%char) then Some "010"%char
  else if decide (c = "r"%char) then Some "013"%char
  else if decide (c = "t"%char) then Some "009"%char
  else None.

(** The rest of a string literal, after its opening quote. *)
Fixpoint string_body (s : string) : option (string * string) :=
  match s with
  | EmptyString => None
  | String c rest =>
      if decide (c = quote) then Some (EmptyString, rest)
      else if decide (c = "\"%char) then
        match rest with
        | String e rest' =>
            c' ← unescape e;
            '(x, r) ← string_body rest';
            Some (String c' x, r)
        | EmptyString => None
        end
      else if bool_decide (N_of_ascii c < 32)%N then None
      else '(x, r) ← string_body rest; Some (String c x, r)
  end.

Definition digit_of (c : ascii) : option Z :=
  let n := Z.of_N (N_of_ascii c) in
  if bool_decide (48 ≤ n ≤ 57) then Some (n - 48) else None.

Fixpoint digits (s : string) (acc : Z) : Z * string :=
  match s with
  | String c rest =>
      match digit_of c with
      | Some d => digits rest (10 * acc + d)
      | None => (acc, s)
      end
  | EmptyString => (acc, s)
  end.

Definition natural (s : string) : option (Z * string) :=
  match s with
  | String c _ =>
      if bool_decide (is_Some (digit_of c)) then
        let '(n, r) := digits s 0 in
        match r with
        | String d _ =>
            if decide (d = "."%char ∨ d = "e"%char ∨ d = "E"%char)
            then None else Some (n, r)
        | EmptyString => Some (n, r)
        end
      else None
  | EmptyString => None
  end.

Definition literal (word : string) (v : value) (s : string)
    : option (value * string) :=
  if String.prefix word s
  then Some (v, String.substring (String.length word)
                  (String.length s - String.length word) s)
  else None.

Fixpoint parse (fuel : nat) (s : string) : option (value * string) :=
  match fuel with
  | O => None
  | S f =>
      match skip_space s with
      | EmptyString => None
      | String c rest =>
          if decide (c = "{"%char) then
            match skip_space rest with
            | String "}" r => Some (Object [], r)
            | _ => '(l, r) ← members f rest; Some (Object l, r)
            end
          else if decide (c = "["%char) then
            match skip_space rest with
            | String "]" r => Some (Array [], r)
            | _ => '(l, r) ← elements f rest; Some (Array l, r)
            end
          else if decide (c = quote) then
            '(x, r) ← string_body rest; Some (Str x, r)
          else if decide (c = "-"%char) then
            '(n, r) ← natural rest; Some (Number (- n), r)
          else if decide (c = "t"%char) then literal "true" (Bool true) (String c rest)
          else if decide (c = "f"%char) then literal "false" (Bool false) (String c rest)
          else if decide (c = "n"%char) then literal "null" Null (String c rest)
          else '(n, r) ← natural (String c rest); Some (Number n, r)
      end
  end
with members (fuel : nat) (s : string)
    : option (list (string * value) * string) :=
  match fuel with
  | O => None
  | S f =>
      match skip_space s with
      | String "034" rest =>
          '(k, r) ← string_body rest;
          match skip_space r with
          | String ":" r =>
              '(v, r) ← parse f r;
              match skip_space r with
              | String "," r =>
                  '(l, r) ← members f r; Some ((k, v) :: l, r)
              | String "}" r => Some ([(k, v)], r)
              | _ => None
              end
          | _ => None
          end
      | _ => None
      end
  end
with elements (fuel : nat) (s : string)
    : option (list value * string) :=
  match fuel with
  | O => None
  | S f =>
      '(v, r) ← parse f s;
      match skip_space r with
      | String "," r => '(l, r) ← elements f r; Some (v :: l, r)
      | String "]" r => Some ([v], r)
      | _ => None
      end
  end.

(** A whole document: one value and nothing but space after it. *)
Definition document (data : string) : option value :=
  '(v, r) ← parse (S (String.length data)) data;
  if decide (skip_space r = "") then Some v else None.

Definition lower (c : ascii) : ascii :=
  let n := N_of_ascii c in
  if bool_decide (65 ≤ n ≤ 90)%N then ascii_of_N (n + 32) else c.

Fixpoint fold_case (s : string) : string :=
  match s with
  | String c rest => String (lower c) (fold_case rest)
  | EmptyString => EmptyString
  end.

(** The member that sets a struct field: keys are matched without
    regard to case, and a later member overrides an earlier one. *)
Definition member (name : string) (l : list (string * value))
    : option value :=
  snd <$> last (filter (λ kv, fold_case kv.1 = name) l).

(** A string field: absent or [null] leaves the zero value. *)
Definition string_field (name : string) (l : list (string * value))
    : option string :=
  match member name l with
  | None | Some Null => Some ""
  | Some (Str s) => Some s
  | Some _ => None
  end.

(** An integer field of the given width. *)
Definition int_field (name : string) (l : list (string * value))
    : option Z :=
  match member name l with
  | None | Some Null => Some 0
  | Some (Number z) =>
      if bool_decide (Go.in_int z) then Some z else None
  | Some _ => None
  end.

Definition object_field (name : string) (l : list (string * value))
    : option (list (string * value)) :=
  match member name l with
  | None | Some Null => Some []
  | Some (Object d) => Some d
  | Some _ => None
  end.

(** Unmarshal into a struct: the document is an object, or [null],
    which sets nothing. *)
Definition struct (data : string) : option (list (string * value)) :=
  v ← document data;
  match v with
  | Object l => Some l
  | Null => Some []
  | _ => None
  end.

Definition Unmarshal_testPush (body : string) : option string :=
  l ← struct body; string_field "push_verification_code" l.

Definition Unmarshal_shopeeEvent (body : string)
    : option handlers.ShopeeEvent.t :=
  l ← struct body;
  code ← int_field "code" l;
  shop ← int_field "shop_id" l;
  ts ← int_field "timestamp" l;
  d ← object_field "data" l;
  sn ← string_field "ordersn" d;
  st ← string_field "status" d;
  Some (handlers.ShopeeEvent.mk code shop ts sn st).

Definition Unmarshal_tiktokEvent (body : string)
    : option handlers.TikTokEvent.t :=
  l ← struct body;
  ty ← string_field "type" l;
  shop ← string_field "shop_id" l;
  ts ← int_field "timestamp" l;
  d ← object_field "data" l;
  oid ← string_field "order_id" d;
  ost ← int_field "order_status" d;
  Some (handlers.TikTokEvent.mk ty shop ts oid ost).

End json.

(** ** Connections ([Connection], [ConnectionResponse]) *)

Module ConnectionResponse.

Record t : Type := mk {
  ID : uuid;
  Platform : string;
  ShopID : string;
  ShopName : string;
  TokenExpiresAt : option time;
  IsActive : bool;
  Settings : string;
  CreatedAt : time;
  UpdatedAt : time
}.

End ConnectionResponse.

Module Connection.

Record t : Type := mk {
  ID : uuid;
  Platform : string;
  ShopID : string;
  ShopName : string;
  AccessToken : string;
  RefreshToken : string;
  TokenExpiresAt : option time;
  IsActive : bool;
  Settings : string;
  CreatedAt : time;
  UpdatedAt : time
}.

#[export] Instance table : Table t := ID.

Definition with_tokens (accessToken refreshToken : string)
    (expiresAt : option time) (c : t) : t :=
  mk (ID c) (Platform c) (ShopID c) (ShopName c) accessToken refreshToken
     expiresAt (IsActive c) (Settings c) (CreatedAt c) (UpdatedAt c).

Definition with_IsActive (v : bool) (c : t) : t :=
  mk (ID c) (Platform c) (ShopID c) (ShopName c) (AccessToken c)
     (RefreshToken c) (TokenExpiresAt c) v (Settings c) (CreatedAt c)
     (UpdatedAt c).

Definition with_UpdatedAt (v : time) (c : t) : t :=
  mk (ID c) (Platform c) (ShopID c) (ShopName c) (AccessToken c)
     (RefreshToken c) (TokenExpiresAt c) (IsActive c) (Settings c)
     (CreatedAt c) v.

(** Columns of [marketplace.connections]. *)
Definition set (col : string) (v : sqlval) (c : t) : option t :=
  if decide (col = "id") then
    match v with
    | SqlUuid u =>
        Some (mk u (Platform c) (ShopID c) (ShopName c) (AccessToken c)
                (RefreshToken c) (TokenExpiresAt c) (IsActive c)
                (Settings c) (CreatedAt c) (UpdatedAt c))
    | _ => None
    end
  else if decide (col = "platform") then
    match v with
    | SqlText s =>
        Some (mk (ID c) s (ShopID c) (ShopName c) (AccessToken c)
                (RefreshToken c) (TokenExpiresAt c) (IsActive c)
                (Settings c) (CreatedAt c) (UpdatedAt c))
    | _ => None
    end
  else if decide (col = "shop_id") then
    match v with
    | SqlText s =>
        Some (mk (ID c) (Platform c) s (ShopName c) (AccessToken c)
                (RefreshToken c) (TokenExpiresAt c) (IsActive c)
                (Settings c) (CreatedAt c) (UpdatedAt c))
    | _ => None
    end
  else if decide (col = "shop_name") then
    match v with
    | SqlText s =>
        Some (mk (ID c) (Platform c) (ShopID c) s (AccessToken c)
                (RefreshToken c) (TokenExpiresAt c) (IsActive c)
                (Settings c) (CreatedAt c) (UpdatedAt c))
    | _ => None
    end
  else if decide (col = "settings") then
    match v with
    | SqlText s =>
        Some (mk (ID c) (Platform c) (ShopID c) (ShopName c)
                (AccessToken c) (RefreshToken c) (TokenExpiresAt c)
                (IsActive c) s (CreatedAt c) (UpdatedAt c))
    | _ => None
    end
  else if decide (col = "created_at") then
    match v with
    | SqlTime x =>
        Some (mk (ID c) (Platform c) (ShopID c) (ShopName c)
                (AccessToken c) (RefreshToken c) (TokenExpiresAt c)
                (IsActive c) (Settings c) x (UpdatedAt c))
    | _ => None
    end
  else if decide (col = "access_token") then
    match v with
    | SqlText s =>
        Some (with_tokens s (RefreshToken c) (TokenExpiresAt c) c)
    | _ => None
    end
  else if decide (col = "refresh_token") then
    match v with
    | SqlText s =>
        Some (with_tokens (AccessToken c) s (TokenExpiresAt c) c)
    | _ => None
    end
  else if decide (col = "token_expires_at") then
    match v with
    | SqlTime x =>
        Some (with_tokens (AccessToken c) (RefreshToken c) (Some x) c)
    | SqlNull =>
        Some (with_tokens (AccessToken c) (RefreshToken c) None c)
    | _ => None
    end
  else if decide (col = "is_active") then
    match v with SqlBool b => Some (with_IsActive b c) | _ => None end
  else if decide (col = "updated_at") then
    match v with SqlTime x => Some (with_UpdatedAt x c) | _ => None end
  else None.

#[export] Instance columns : Columns t := set.

(** ToResponse converts Connection to ConnectionResponse *)
Definition ToResponse (c : t) : ConnectionResponse.t :=
  {| ConnectionResponse.ID := ID c;
     ConnectionResponse.Platform := Platform c;
     ConnectionResponse.ShopID := ShopID c;
     ConnectionResponse.ShopName := ShopName c;
     ConnectionResponse.TokenExpiresAt := TokenExpiresAt c;
     ConnectionResponse.IsActive := IsActive c;
     ConnectionResponse.Settings := Settings c;
     ConnectionResponse.CreatedAt := CreatedAt c;
     ConnectionResponse.UpdatedAt := UpdatedAt c |}.

(** The struct tags' defaults on insert: a generated id, settings '{}',
    created and updated now.  [IsActive] has the default [true], which
    also replaces a [false], the zero value of the field. *)
Definition with_defaults (fresh : uuid) (now : time) (c : t) : t :=
  mk (if decide (ID c = uuid_Nil) then fresh else ID c)
     (Platform c) (ShopID c) (ShopName c) (AccessToken c)
     (RefreshToken c) (TokenExpiresAt c)
     true
     (if decide (Settings c = "") then "{}" else Settings c)
     (if decide (CreatedAt c = 0) then now else CreatedAt c)
     (if decide (UpdatedAt c = 0) then now else UpdatedAt c).

(** The auto-update time written by every save. *)
Definition touch (now : time) (c : t) : t :=
  mk (ID c) (Platform c) (ShopID c) (ShopName c) (AccessToken c)
     (RefreshToken c) (TokenExpiresAt c) (IsActive c) (Settings c)
     (CreatedAt c) now.

(** The shop a connection is for. *)
Definition shop (c : t) : string * string := (Platform c, ShopID c).


(** Two connections that differ in nothing but their tokens. *)
Definition same_but_tokens (c1 c2 : t) : Prop :=
  ID c1 = ID c2
  ∧ Platform c1 = Platform c2
  ∧ ShopID c1 = ShopID c2
  ∧ ShopName c1 = ShopName c2
  ∧ TokenExpiresAt c1 = TokenExpiresAt c2
  ∧ IsActive c1 = IsActive c2
  ∧ Settings c1 = Settings c2
  ∧ CreatedAt c1 = CreatedAt c2
  ∧ UpdatedAt c1 = UpdatedAt c2.


(** The primary key: no two rows share an id, and no row has the zero
    id. *)
Definition keyed (db : list t) : Prop :=
  NoDup (ID <$> db) ∧ uuid_Nil ∉ ID <$> db.

(** At most one connection for each platform and shop. *)
Definition one_per_shop (db : list t) : Prop := NoDup (shop <$> db).

End Connection.

(** ** The connection repository
    ([internal/repository/connection_repo.go]) *)

Module ConnectionRepository.

Import Connection.

(** Create creates a new connection.  The table has
    [CONSTRAINT unique_platform_shop UNIQUE (platform, shop_id)]. *)
Definition Create (fresh : uuid) (now : time) (connection : Connection.t)
    (db : list Connection.t) : option (list Connection.t) :=
  if bool_decide (shop connection ∈ shop <$> db) then None
  else Insert (with_defaults fresh now connection) db.

(** GetByID retrieves a connection by ID *)
Definition GetByID (id : uuid) (db : list Connection.t)
    : option Connection.t :=
  (Model |> Where (λ c, bool_decide (ID c = id)) |> First) db.

(** GetByPlatformAndShopID retrieves a connection by platform and shop
    ID *)
Definition GetByPlatformAndShopID (platform shopID : string)
    (db : list Connection.t) : option Connection.t :=
  (Model
     |> Where (λ c, bool_decide (Platform c = platform ∧ ShopID c = shopID))
     |> First) db.

(** Update updates a connection *)
Definition Update (fresh : uuid) (now : time) (connection : Connection.t)
    (db : list Connection.t) : option (list Connection.t) :=
  Save (Create fresh now) (touch now) connection db.

(** GetActiveConnections retrieves all active connections *)
Definition GetActiveConnections (db : list Connection.t)
    : list Connection.t :=
  (Model
     |> Where (λ c, bool_decide (IsActive c = true))
     |> Order (desc CreatedAt)
     |> Find) db.

(** GetActiveConnectionsByPlatform retrieves active connections by
    platform *)
Definition GetActiveConnectionsByPlatform (platform : string)
    (db : list Connection.t) : list Connection.t :=
  (Model
     |> Where (λ c, bool_decide (Platform c = platform ∧ IsActive c = true))
     |> Order (desc CreatedAt)
     |> Find) db.

(** GetAll retrieves all connections *)
Definition GetAll (db : list Connection.t) : list Connection.t :=
  (Model |> Order (desc CreatedAt) |> Find) db.

(** UpdateTokens updates only the token-related fields.  [expiresAt]
    is an [interface{}]: any value.  An update through the model also
    writes the auto-update time. *)
Definition UpdateTokens (now : time) (id : uuid)
    (accessToken refreshToken : string) (expiresAt : sqlval)
    (db : list Connection.t) : option (list Connection.t) :=
  (Model
     |> Where (λ c, bool_decide (ID c = id))
     |> Updates [("access_token", Val (SqlText accessToken));
                 ("refresh_token", Val (SqlText refreshToken));
                 ("token_expires_at", Val expiresAt);
                 ("updated_at", Val (SqlTime now))]) db.

(** Deactivate deactivates a connection *)
Definition Deactivate (now : time) (id : uuid) (db : list Connection.t)
    : option (list Connection.t) :=
  (Model
     |> Where (λ c, bool_decide (ID c = id))
     |> Updates [("is_active", Val (SqlBool false));
                 ("updated_at", Val (SqlTime now))]) db.

(** Delete deletes a connection *)
Definition Delete (id : uuid) (db : list Connection.t)
    : option (list Connection.t) :=
  Some ((Model |> Where (λ c, bool_decide (ID c = id)) |> Gorm_Delete) db).

(** GetConnectionsNeedingTokenRefresh gets connections whose tokens are
    about to expire.  The bound is computed by the database:
    [NOW() + INTERVAL '1 minute' * withinMinutes]; a connection without
    an expiry time does not compare. *)
Definition GetConnectionsNeedingTokenRefresh (now : time)
    (withinMinutes : Z) (db : list Connection.t) : list Connection.t :=
  (Model
     |> Where (λ c, bool_decide (IsActive c = true)
                    && match TokenExpiresAt c with
                       | Some e =>
                           bool_decide (e ≤ now + 60 * Second * withinMinutes)
                       | None => false
                       end)
     |> Find) db.

End ConnectionRepository.

(** ** What the providers return ([internal/providers]) *)

Module providers.

Module TokenResponse.
Record t : Type := mk {
  AccessToken : string;
  RefreshToken : string;
  ExpiresAt : time;
  ShopID : string;
  ShopName : string
}.
End TokenResponse.

Module ShopInfo.
Record t : Type := mk {
  ShopID : string;
  ShopName : string
}.
End ShopInfo.

End providers.

(** ** The Shopee auth provider ([internal/providers/shopee/auth.go]).
    The answer of the HTTP call is an argument: [None] when the call
    fails or the answer carries an error. *)

Module shopee_auth.

Module TokenResponse.
Record t : Type := mk {
  AccessToken : string;
  RefreshToken : string;
  ExpireIn : Z
}.
End TokenResponse.

(** ExchangeCode exchanges the authorization code for access/refresh
    tokens *)
Definition ExchangeCode (now : time) (answer : option TokenResponse.t)
    (code : string) (shopID : Z) : option providers.TokenResponse.t :=
  resp ← answer;
  Some (providers.TokenResponse.mk
          (TokenResponse.AccessToken resp)
          (TokenResponse.RefreshToken resp)
          (now + Go.mul (TokenResponse.ExpireIn resp) Second)
          (fmt.Sprintf "%d" [fmt.Int shopID])
          "").

(** RefreshToken refreshes an expired access token *)
Definition RefreshToken (now : time) (answer : option TokenResponse.t)
    (refreshToken : string) (shopID : Z)
    : option providers.TokenResponse.t :=
  resp ← answer;
  Some (providers.TokenResponse.mk
          (TokenResponse.AccessToken resp)
          (TokenResponse.RefreshToken resp)
          (now + Go.mul (TokenResponse.ExpireIn resp) Second)
          (fmt.Sprintf "%d" [fmt.Int shopID])
          "").

(** GetShopInfo fetches shop information; the answer is the shop name. *)
Definition GetShopInfo (c : shopee.Client) (answer : option string)
    : option providers.ShopInfo.t :=
  name ← answer;
  Some (providers.ShopInfo.mk
          (fmt.Sprintf "%d" [fmt.Int (shopee.shopID c)]) name).

End shopee_auth.

(** ** The connection service ([ConnectionService]) *)

Module services.

Import Connection.

Inductive result (A : Type) : Type :=
  | Ok (a : A)
  | Err (msg : string).
Arguments Ok {A} a.
Arguments Err {A} msg.

(** [shopeeAuth] and [tiktokAuth] are [None] where the platform is not
    configured; [encryptor] is [None] without an encryption key, and
    otherwise what [Encrypt] returns for a plain text. *)
Record ConnectionService : Type := mkService {
  encryptor : option (string → string);
  shopeeAuth : option shopee.Client;
  tiktokAuth : option unit
}.

(** What a callback meets outside the service: the clock, the id the
    database would generate for a new row, and the answers of the
    marketplace. *)
Record World : Type := mkWorld {
  now : time;
  fresh : uuid;
  shopee_token : option shopee_auth.TokenResponse.t;
  shopee_shop_name : option string;
  tiktok_token : option providers.TokenResponse.t
}.

Definition encrypt (s : ConnectionService) (plain : string) : string :=
  match encryptor s with
  | Some enc => enc plain
  | None => plain
  end.

(** HandleShopeeCallback handles the OAuth callback from Shopee *)
Definition HandleShopeeCallback (s : ConnectionService) (w : World)
    (code : string) (shopID : Z) (db : list Connection.t)
    : result ConnectionResponse.t * list Connection.t :=
  match shopeeAuth s with
  | None => (Err "Shopee integration not configured", db)
  | Some client =>
      (* Exchange code for tokens *)
      match shopee_auth.ExchangeCode (now w) (shopee_token w) code shopID with
      | None => (Err "failed to exchange code", db)
      | Some tokenResp =>
          (* Set tokens for shop info request *)
          let client :=
            shopee.mkClient (shopee.partnerID client)
              (shopee.partnerKey client) (shopee.baseURL client)
              (providers.TokenResponse.AccessToken tokenResp) shopID in
          (* Get shop info *)
          let shopInfo :=
            match shopee_auth.GetShopInfo client (shopee_shop_name w) with
            | Some info => info
            | None =>
                providers.ShopInfo.mk
                  (providers.TokenResponse.ShopID tokenResp) "Shopee Shop"
            end in
          (* Encrypt tokens *)
          let accessToken :=
            encrypt s (providers.TokenResponse.AccessToken tokenResp) in
          let refreshToken :=
            encrypt s (providers.TokenResponse.RefreshToken tokenResp) in
          (* Check if connection already exists *)
          match ConnectionRepository.GetByPlatformAndShopID "shopee"
                  (providers.TokenResponse.ShopID tokenResp) db with
          | Some existing =>
              (* Update existing connection *)
              let existing :=
                mk (ID existing) (Platform existing) (ShopID existing)
                   (ShopName existing) accessToken refreshToken
                   (Some (providers.TokenResponse.ExpiresAt tokenResp))
                   true (Settings existing) (CreatedAt existing)
                   (UpdatedAt existing) in
              match ConnectionRepository.Update (fresh w) (now w)
                      existing db with
              | None => (Err "failed to update connection", db)
              | Some db' => (Ok (ToResponse (touch (now w) existing)), db')
              end
          | None =>
              (* Create new connection *)
              let conn :=
                mk uuid_Nil "shopee"
                   (providers.TokenResponse.ShopID tokenResp)
                   (providers.ShopInfo.ShopName shopInfo)
                   accessToken refreshToken
                   (Some (providers.TokenResponse.ExpiresAt tokenResp))
                   true "" 0 0 in
              match ConnectionRepository.Create (fresh w) (now w)
                      conn db with
              | None => (Err "failed to create connection", db)
              | Some db' =>
                  (Ok (ToResponse (with_defaults (fresh w) (now w) conn)),
                   db')
              end
          end
      end
  end.

(** HandleTikTokCallback handles the OAuth callback from TikTok *)
Definition HandleTikTokCallback (s : ConnectionService) (w : World)
    (code : string) (db : list Connection.t)
    : result ConnectionResponse.t * list Connection.t :=
  match tiktokAuth s with
  | None => (Err "TikTok integration not configured", db)
  | Some _ =>
      (* Exchange code for tokens *)
      match tiktok_token w with
      | None => (Err "failed to exchange code", db)
      | Some tokenResp =>
          (* Encrypt tokens *)
          let accessToken :=
            encrypt s (providers.TokenResponse.AccessToken tokenResp) in
          let refreshToken :=
            encrypt s (providers.TokenResponse.RefreshToken tokenResp) in
          (* Check if connection already exists *)
          match ConnectionRepository.GetByPlatformAndShopID "tiktok"
                  (providers.TokenResponse.ShopID tokenResp) db with
          | Some existing =>
              (* Update existing connection *)
              let existing :=
                mk (ID existing) (Platform existing) (ShopID existing)
                   (providers.TokenResponse.ShopName tokenResp)
                   accessToken refreshToken
                   (Some (providers.TokenResponse.ExpiresAt tokenResp))
                   true (Settings existing) (CreatedAt existing)
                   (UpdatedAt existing) in
              match ConnectionRepository.Update (fresh w) (now w)
                      existing db with
              | None => (Err "failed to update connection", db)
              | Some db' => (Ok (ToResponse (touch (now w) existing)), db')
              end
          | None =>
              (* Create new connection *)
              let conn :=
                mk uuid_Nil "tiktok"
                   (providers.TokenResponse.ShopID tokenResp)
                   (providers.TokenResponse.ShopName tokenResp)
                   accessToken refreshToken
                   (Some (providers.TokenResponse.ExpiresAt tokenResp))
                   true "" 0 0 in
              match ConnectionRepository.Create (fresh w) (now w)
                      conn db with
              | None => (Err "failed to create connection", db)
              | Some db' =>
                  (Ok (ToResponse (with_defaults (fresh w) (now w) conn)),
                   db')
              end
          end
      end
  end.


Definition ErrInvalidPlatform : string :=
  "invalid platform: must be 'shopee' or 'tiktok'".
Definition ErrConnectionNotFound : string := "connection not found".

(** Stands for an error of the database handed on as it is. *)
Definition ErrDatabase : string := "database error".

(** GetAllConnections retrieves all marketplace connections *)
Definition GetAllConnections (db : list Connection.t)
    : result (list ConnectionResponse.t) :=
  Ok (ToResponse <$> ConnectionRepository.GetAll db).

(** GetActiveConnections retrieves all active connections *)
Definition GetActiveConnections (db : list Connection.t)
    : result (list ConnectionResponse.t) :=
  Ok (ToResponse <$> ConnectionRepository.GetActiveConnections db).

(** GetConnection retrieves a connection by ID *)
Definition GetConnection (id : uuid) (db : list Connection.t)
    : result ConnectionResponse.t :=
  match ConnectionRepository.GetByID id db with
  | None => Err ErrConnectionNotFound
  | Some conn => Ok (ToResponse conn)
  end.

(** Disconnect deactivates a connection *)
Definition Disconnect (w : World) (id : uuid) (db : list Connection.t)
    : result unit * list Connection.t :=
  match ConnectionRepository.GetByID id db with
  | None => (Err ErrConnectionNotFound, db)
  | Some conn =>
      let conn := with_IsActive false conn in
      match ConnectionRepository.Update (fresh w) (now w) conn db with
      | None => (Err ErrDatabase, db)
      | Some db' => (Ok (), db')
      end
  end.


(** What a token refresh meets outside the service: what [Decrypt]
    returns for a stored token ([None] is an error), and the answers of
    the marketplace to a refresh request, by the refresh token and, for
    Shopee, the shop id that are sent. *)
Record Refresh : Type := mkRefresh {
  decrypt : string → option string;
  shopee_refreshed : string → Z → option shopee_auth.TokenResponse.t;
  tiktok_refreshed : string → option providers.TokenResponse.t
}.

(** The refresh token sent: the stored one, decrypted where the service
    has an encryptor. *)
Definition stored_refresh_token (s : ConnectionService) (x : Refresh)
    (conn : Connection.t) : option string :=
  match encryptor s with
  | Some _ => decrypt x (RefreshToken conn)
  | None => Some (RefreshToken conn)
  end.

(** RefreshConnectionToken refreshes the access token for a
    connection *)
Definition RefreshConnectionToken (s : ConnectionService) (w : World)
    (x : Refresh) (id : uuid) (db : list Connection.t)
    : result unit * list Connection.t :=
  match ConnectionRepository.GetByID id db with
  | None => (Err ErrConnectionNotFound, db)
  | Some conn =>
      (* Decrypt refresh token *)
      match stored_refresh_token s x conn with
      | None => (Err "failed to decrypt refresh token", db)
      | Some refreshToken =>
          let newTokens : string + providers.TokenResponse.t :=
            if decide (Platform conn = "shopee") then
              match shopeeAuth s with
              | None => inl "Shopee integration not configured"
              | Some _ =>
                  let shopID := (strconv.ParseInt (ShopID conn)).1 in
                  match shopee_auth.RefreshToken (now w)
                          (shopee_refreshed x refreshToken shopID)
                          refreshToken shopID with
                  | None => inl "failed to refresh Shopee token"
                  | Some resp => inr resp
                  end
              end
            else if decide (Platform conn = "tiktok") then
              match tiktokAuth s with
              | None => inl "TikTok integration not configured"
              | Some _ =>
                  match tiktok_refreshed x refreshToken with
                  | None => inl "failed to refresh TikTok token"
                  | Some resp => inr resp
                  end
              end
            else inl ErrInvalidPlatform in
          match newTokens with
          | inl msg => (Err msg, db)
          | inr resp =>
              (* Encrypt new tokens *)
              let accessToken :=
                encrypt s (providers.TokenResponse.AccessToken resp) in
              let refreshTokenNew :=
                encrypt s (providers.TokenResponse.RefreshToken resp) in
              match ConnectionRepository.UpdateTokens (now w) id
                      accessToken refreshTokenNew
                      (SqlTime (providers.TokenResponse.ExpiresAt resp))
                      db with
              | None => (Err ErrDatabase, db)
              | Some db' => (Ok (), db')
              end
          end
      end
  end.


(** What a successful callback for the shop [(platform, shopID)] does
    to the table [db], giving [db'] and the result [r]: a connection of
    that shop is updated in its place with the new tokens, the new
    expiry and [IsActive] set, and returned; when there is none (and the
    generated id is free) one row is added for the shop, and returned. *)
Definition upserted (platform shopID accessToken refreshToken : string)
    (expires : time) (w : World) (r : result ConnectionResponse.t)
    (db db' : list Connection.t) : Prop :=
  (∀ c, c ∈ db → shop c = (platform, shopID) →
     ∃ c', r = Ok (ToResponse c')
           ∧ db' = (λ x, if decide (ID x = ID c) then c' else x) <$> db
           ∧ ID c' = ID c ∧ shop c' = shop c
           ∧ AccessToken c' = accessToken
           ∧ RefreshToken c' = refreshToken
           ∧ TokenExpiresAt c' = Some expires
           ∧ IsActive c' = true)
  ∧ ((∀ c, c ∈ db → shop c ≠ (platform, shopID)) →
     fresh w ∉ ID <$> db →
     ∃ c', r = Ok (ToResponse c')
           ∧ db' = db ++ [c']
           ∧ ID c' = fresh w ∧ shop c' = (platform, shopID)
           ∧ AccessToken c' = accessToken
           ∧ RefreshToken c' = refreshToken
           ∧ TokenExpiresAt c' = Some expires
           ∧ IsActive c' = true).

End services.

(** ** The OAuth callbacks of the connection API
    ([internal/handlers/connection_handler.go])

    A request is given by its query parameters; [Query] of a parameter
    that is not there is the empty string.  Of the JSON answer the status,
    the [error] field and the [connection] field are kept. *)

Module connection_handler.

Import services.

Definition Query (key : string) (params : list (string * string))
    : string :=
  match list_find (λ kv, kv.1 = key) params with
  | Some (_, kv) => kv.2
  | None => ""
  end.

Definition StatusOK : Z := 200.
Definition StatusBadRequest : Z := 400.
Definition StatusInternalServerError : Z := 500.

Record Answer : Type := mkAnswer {
  status : Z;
  error : string;
  connection : option ConnectionResponse.t
}.

(** HandleShopeeCallback handles Shopee OAuth callback *)
Definition HandleShopeeCallback (s : ConnectionService) (w : World)
    (params : list (string * string)) (db : list Connection.t)
    : Answer * list Connection.t :=
  let code := Query "code" params in
  let shopIDStr := Query "shop_id" params in
  if decide (code = "") then
    (mkAnswer StatusBadRequest "Missing authorization code" None, db)
  else if decide (shopIDStr = "") then
    (mkAnswer StatusBadRequest "Missing shop ID" None, db)
  else
    let (shopID, err) := strconv.ParseInt shopIDStr in
    if decide (err ≠ None) then
      (mkAnswer StatusBadRequest "Invalid shop ID" None, db)
    else
      match services.HandleShopeeCallback s w code shopID db with
      | (Err _, db') =>
          (mkAnswer StatusInternalServerError
             "Failed to connect Shopee shop" None, db')
      | (Ok connection, db') =>
          (mkAnswer StatusOK "" (Some connection), db')
      end.

(** HandleTikTokCallback handles TikTok OAuth callback *)
Definition HandleTikTokCallback (s : ConnectionService) (w : World)
    (params : list (string * string)) (db : list Connection.t)
    : Answer * list Connection.t :=
  let code := Query "code" params in
  if decide (code = "") then
    (mkAnswer StatusBadRequest "Missing authorization code" None, db)
  else
    match services.HandleTikTokCallback s w code db with
    | (Err _, db') =>
        (mkAnswer StatusInternalServerError
           "Failed to connect TikTok shop" None, db')
    | (Ok connection, db') =>
        (mkAnswer StatusOK "" (Some connection), db')
    end.

End connection_handler.

(** ** The job queue as it is driven

    A poll cycle selects jobs with [GetPendingJobs] or [GetFailedJobs] and
    calls [MarkProcessing] once for each selected job; a job that was run
    ends in [MarkCompleted] or [MarkFailed]. *)

Module queue.

Import SyncJob.

Fixpoint mark_each (now : time) (selected : list SyncJob.t)
    (db : list SyncJob.t) : option (list SyncJob.t) :=
  match selected with
  | [] => Some db
  | j :: rest =>
      db' ← repository.MarkProcessing now (ID j) db;
      mark_each now rest db'
  end.

Inductive step (db : list SyncJob.t) : list SyncJob.t → Prop :=
  | poll_pending now limit db' :
      mark_each now (repository.GetPendingJobs now limit db) db = Some db' →
      step db db'
  | poll_failed now connectionID db' :
      mark_each now (repository.GetFailedJobs connectionID db) db = Some db' →
      step db db'
  | job_completed now id db' :
      repository.MarkCompleted now id db = Some db' →
      step db db'
  | job_failed id errorMessage db' :
      repository.MarkFailed id errorMessage db = Some db' →
      step db db'.

(** The states a table goes through under poll cycles. *)
Definition reachable : list SyncJob.t → list SyncJob.t → Prop := rtc step.

(** A job is due at [now]: the condition of [GetPendingJobs]. *)
Definition due (now : time) (j : SyncJob.t) : Prop :=
  Status j = JobStatusPending
  ∧ ScheduledAt j ≤ now
  ∧ Attempts j < MaxAttempts j.

(** The order of [GetPendingJobs]: [scheduled_at] ascending. *)
Definition by_schedule (x y : SyncJob.t) : Prop :=
  ScheduledAt x ≤ ScheduledAt y.

(** A job is selected for processing by one of the two selections. *)
Definition selected (j : SyncJob.t) (db : list SyncJob.t) : Prop :=
  (∃ now limit, j ∈ repository.GetPendingJobs now limit db)
  ∨ (∃ connectionID, j ∈ repository.GetFailedJobs connectionID db).

(** Every job is within its retry budget. *)
Definition bounded (db : list SyncJob.t) : Prop :=
  Forall (λ j, Attempts j ≤ MaxAttempts j) db.

(** The primary key: no two rows share an id. *)
Definition keyed (db : list SyncJob.t) : Prop := NoDup (ID <$> db).

(** *** The status domain *)

Definition statuses : list string :=
  [JobStatusPending; JobStatusProcessing; JobStatusCompleted;
   JobStatusFailed].

Definition in_domain (j : SyncJob.t) : Prop := Status j ∈ statuses.

Inductive op : Type :=
  | OpCreate (fresh : uuid) (now : time) (job : SyncJob.t)
  | OpUpdate (fresh : uuid) (now : time) (job : SyncJob.t)
  | OpMarkProcessing (now : time) (id : uuid)
  | OpMarkCompleted (now : time) (id : uuid)
  | OpMarkFailed (id : uuid) (errorMessage : string)
  | OpDelete (id : uuid)
  | OpDeleteOldCompleted (now : time) (olderThanHours : Z).

Definition exec (o : op) (db : list SyncJob.t)
    : option (list SyncJob.t) :=
  match o with
  | OpCreate fresh now job => repository.Create fresh now job db
  | OpUpdate fresh now job => repository.Update fresh now job db
  | OpMarkProcessing now id => repository.MarkProcessing now id db
  | OpMarkCompleted now id => repository.MarkCompleted now id db
  | OpMarkFailed id msg => repository.MarkFailed id msg db
  | OpDelete id => repository.Delete id db
  | OpDeleteOldCompleted now h => repository.DeleteOldCompleted now h db
  end.

(** An operation that fails leaves the table as it was. *)
Definition run (ops : list op) (db : list SyncJob.t) : list SyncJob.t :=
  foldl (λ d o, default d (exec o d)) db ops.

(** The caller passes a status constant: [Create] one of the four or
    none (the empty string, which takes the default), [Update] one of
    the four. *)
Definition with_constant (o : op) : Prop :=
  match o with
  | OpCreate _ _ job => Status job = "" ∨ Status job ∈ statuses
  | OpUpdate _ _ job => Status job ∈ statuses
  | _ => True
  end.

End queue.

(** ** Clean-up of the queue *)

Module retention.

Import SyncJob.

(** A job whose time is up at [cutoff]: it is completed, and its
    completion was before the cutoff. *)
Definition expired (cutoff : time) (j : SyncJob.t) : Prop :=
  Status j = JobStatusCompleted
  ∧ ∃ c, CompletedAt j = Some c ∧ c < cutoff.

#[global] Instance expired_dec cutoff j : Decision (expired cutoff j).
Proof.
  unfold expired. destruct (CompletedAt j) as [c|].
  - destruct (decide (Status j = JobStatusCompleted ∧ c < cutoff))
      as [[? ?]|Hn]; [left; eauto|right].
    intros [? (c' & [= <-] & ?)]. tauto.
  - right. intros [_ (c & [=] & _)].
Defined.

(** The largest number of hours that is a [time.Duration]:
    2562047 * 3600 * 10^9 < 2^63. *)
Definition max_hours : Z := 2562047.

(** What a poll cycle leaves of a job: who it is and what it is to do,
    when it is due and how often it may run; the attempts only grow. *)
Definition continues (j j' : SyncJob.t) : Prop :=
  ID j' = ID j
  ∧ ConnectionID j' = ConnectionID j
  ∧ JobType j' = JobType j
  ∧ Payload j' = Payload j
  ∧ MaxAttempts j' = MaxAttempts j
  ∧ ScheduledAt j' = ScheduledAt j
  ∧ CreatedAt j' = CreatedAt j
  ∧ Attempts j ≤ Attempts j'.

End retention.

(** ** The webhook handlers of [internal/handlers/webhook_handler.go]

    The same [WebhookHandler] struct, requests and events as above; the
    Shopee handler reads the signature from another header and has no
    test push. *)

Module webhook_handler.

Import handlers.

Section Handlers.
Variable unmarshal_shopeeEvent : string → option ShopeeEvent.t.
Variable unmarshal_tiktokEvent : string → option TikTokEvent.t.

Definition verifyShopeeSignature (h : WebhookHandler) (body : string)
    (signature : string) : bool :=
  if decide (signature = "") then false
  else
    let mac := hmac.New (shopeeKey h) in
    let mac := hmac.Write body mac in
    let expected := hex.EncodeToString (hmac.Sum "" mac) in
    hmac.Equal expected signature.

(** HandleShopeeWebhook handles incoming Shopee webhooks *)
Definition HandleShopeeWebhook (h : WebhookHandler) (req : Request)
    : Outcome :=
  (* Read body *)
  match Body req with
  | None =>
      mkOutcome [(Error, "Failed to read webhook body")]
        StatusBadRequest [("error", "failed to read body")] []
  | Some body =>
      (* Verify signature if key is configured *)
      if bool_decide (shopeeKey h ≠ "")
         && negb (verifyShopeeSignature h body
                    (GetHeader "Shopee-Hmac-Sha256" req))
      then
        mkOutcome [(Warn, "Invalid Shopee webhook signature")]
          StatusUnauthorized [("error", "invalid signature")] []
      else
        (* Parse event *)
        match unmarshal_shopeeEvent body with
        | None =>
            mkOutcome [(Error, "Failed to parse Shopee webhook")]
              StatusBadRequest [("error", "invalid payload")] []
        | Some event =>
            (* Process order event *)
            let go :=
              if decide (ShopeeEvent.Data_OrderSN event ≠ "")
              then [HandleShopeeOrderEvent (ShopeeEvent.ShopID event)
                      (ShopeeEvent.Data_OrderSN event)
                      (ShopeeEvent.Data_Status event)]
              else [] in
            mkOutcome [(Info, "Received Shopee webhook")]
              StatusOK [("status", "received")] go
        end
  end.

Definition verifyTikTokSignature (h : WebhookHandler) (body : string)
    (signature : string) : bool :=
  if decide (signature = "") then false
  else
    let mac := hmac.New (tiktokSecret h) in
    let mac := hmac.Write body mac in
    let expected := hex.EncodeToString (hmac.Sum "" mac) in
    hmac.Equal expected signature.

(** HandleTikTokWebhook handles incoming TikTok webhooks *)
Definition HandleTikTokWebhook (h : WebhookHandler) (req : Request)
    : Outcome :=
  (* Read body *)
  match Body req with
  | None =>
      mkOutcome [(Error, "Failed to read webhook body")]
        StatusBadRequest [("error", "failed to read body")] []
  | Some body =>
      (* Verify signature if secret is configured *)
      if bool_decide (tiktokSecret h ≠ "")
         && negb (verifyTikTokSignature h body
                    (GetHeader "X-Tts-Signature" req))
      then
        mkOutcome [(Warn, "Invalid TikTok webhook signature")]
          StatusUnauthorized [("error", "invalid signature")] []
      else
        (* Parse event *)
        match unmarshal_tiktokEvent body with
        | None =>
            mkOutcome [(Error, "Failed to parse TikTok webhook")]
              StatusBadRequest [("error", "invalid payload")] []
        | Some event =>
            (* Process order event *)
            let go :=
              if bool_decide
                   (TikTokEvent.Type_ event = "ORDER_STATUS_CHANGE"
                    ∧ TikTokEvent.Data_OrderID event ≠ "")
              then [HandleTikTokOrderEvent (TikTokEvent.ShopID event)
                      (TikTokEvent.Data_OrderID event)
                      (TikTokEvent.Data_OrderStatus event)]
              else [] in
            mkOutcome [(Info, "Received TikTok webhook")]
              StatusOK [("status", "received")] go
        end
  end.

End Handlers.

(** A request is taken: answered 200, as the handler answers an event
    it has parsed or a test push. *)
Definition taken (o : Outcome) : Prop := status o = StatusOK.

End webhook_handler.

(** ** Sample data for the closed examples *)

Module examples.

Definition job (id : uuid) (status : string) (attempts : Z)
    (scheduled created : time) : SyncJob.t :=
  SyncJob.mk id 7%N "order_sync" "{}" status attempts 3 "" scheduled
    None None created.

(** Two due jobs, one pending job that has used up its attempts, one
    failed job, one job scheduled later. *)
Definition jobs : list SyncJob.t :=
  [job 1%N "pending" 0 50 1; job 2%N "pending" 3 10 2;
   job 3%N "failed" 1 5 3; job 4%N "pending" 2 20 4;
   job 5%N "pending" 0 200 5].

(** [jobs] after one poll at time 100 with limit 10. *)
Definition jobs_polled : list SyncJob.t :=
  [SyncJob.processing 100 (job 1%N "pending" 0 50 1);
   job 2%N "pending" 3 10 2;
   job 3%N "failed" 1 5 3;
   SyncJob.processing 100 (job 4%N "pending" 2 20 4);
   job 5%N "pending" 0 200 5].

Definition handler : handlers.WebhookHandler :=
  handlers.mkHandler "partner-key" "app-secret".

(** A text with every single quote turned into a double quote. *)
Fixpoint quoted (s : string) : string :=
  match s with
  | String c rest =>
      String (if decide (c = "'"%char) then json.quote else c) (quoted rest)
  | EmptyString => EmptyString
  end.

Definition shopee_body : string :=
  quoted "{'code':3,'shop_id':1001,'timestamp':1700000000,'data':{'ordersn':'SN1','status':'READY_TO_SHIP'}}".

(** A Shopee order event under a signature that is not the body's. *)
Definition shopee_forged : handlers.Request :=
  handlers.mkRequest "POST" "/api/v1/webhooks/shopee" (Some shopee_body)
    [("Authorization", "0000")].

Definition tiktok_body : string :=
  quoted "{'type':'ORDER_STATUS_CHANGE','shop_id':'S1','timestamp':1700000000,'data':{'order_id':'O1','order_status':2}}".

Definition tiktok_forged : handlers.Request :=
  handlers.mkRequest "POST" "/api/v1/webhooks/tiktok" (Some tiktok_body)
    [("X-Tts-Signature", "0000")].

Definition connection (id : uuid) (platform shop token : string)
    : Connection.t :=
  Connection.mk id platform shop "Shop" token "refresh" (Some 500) true
    "{}" 1 1.

Definition connections : list Connection.t :=
  [connection 11%N "shopee" "1001" "old"; connection 12%N "tiktok" "S1" "old"].

Definition service : services.ConnectionService :=
  services.mkService None
    (Some (shopee.mkClient 2001887 "partner-key" "" "" 0)) (Some ()).

Definition world : services.World :=
  services.mkWorld 1000 13%N
    (Some (shopee_auth.TokenResponse.mk "access" "refresh" 14400))
    (Some "My Shop")
    (Some (providers.TokenResponse.mk "access" "refresh" 9000 "S1" "TT")).

(** A page request whose offset does not fit in 64 bits:
    (4611686018427387905 - 1) * 4 = 2 ^ 64. *)
Definition far_page : SyncJobFilter.t :=
  SyncJobFilter.mk None "" "" 4611686018427387905 4.

Definition far_mappings : ProductMappingFilter.t :=
  ProductMappingFilter.mk None None "" 4611686018427387905 4.

Definition mapping (id : uuid) (created : time) : ProductMapping.t :=
  ProductMapping.mk id 7%N id "ext" "sku" "synced" None "" created created.

Definition mappings : list ProductMapping.t := [mapping 1%N 1; mapping 2%N 2].


(** A run of repository operations that pass status constants. *)
Definition ops : list queue.op :=
  [queue.OpCreate 9%N 100 (job 0%N "" 0 0 0);
   queue.OpMarkProcessing 100 1%N;
   queue.OpMarkFailed 1%N "timeout";
   queue.OpUpdate 10%N 100 (job 4%N "pending" 2 300 4);
   queue.OpMarkCompleted 120 9%N;
   queue.OpDeleteOldCompleted 200 0].

End examples.

(** ** More sample data *)

Module samples.

(** The sample jobs after job 1 was marked processing at time 100. *)
Definition jobs_marked : list SyncJob.t :=
  SyncJob.at_id 1%N (SyncJob.processing 100) <$> examples.jobs.

(** The sample jobs after job 4 failed. *)
Definition jobs_failed : list SyncJob.t :=
  SyncJob.at_id 4%N (SyncJob.failed "timeout") <$> examples.jobs.

(** A TikTok event under the signature of its body. *)
Definition tiktok_signed : handlers.Request :=
  handlers.mkRequest "POST" "/api/v1/webhooks/tiktok"
    (Some examples.tiktok_body)
    [("X-Tts-Signature",
      handlers.expected_signature "app-secret" examples.tiktok_body)].

(** A handler without secrets. *)
Definition open_handler : handlers.WebhookHandler :=
  handlers.mkHandler "" "".

(** A product imported from the connection 7 and mapped since. *)
Definition imported : list ImportedProduct.t :=
  [ImportedProduct.mk 1%N 7%N "E1" "sku-1" "Old name" "" 1.5%float 3
     "100" "NORMAL" "" true (Some 40%N) 10 10].

(** The same product as the marketplace lists it later. *)
Definition reimported : ImportedProduct.t :=
  ImportedProduct.mk 0%N 7%N "E1" "sku-2" "New name" "" 2.5%float 5
    "100" "NORMAL" "" false None 0 0.

(** A marketplace that answers every refresh request. *)
Definition refresh : services.Refresh :=
  services.mkRefresh Some
    (λ _ _, Some (shopee_auth.TokenResponse.mk "access-2" "refresh-2" 3600))
    (λ _, None).

End samples.

(** * Properties *)

(** ** Lists *)

Lemma Forall2_fmap_diag {A B} (P : A → B → Prop) (f : A → B) (l : list A) :
  (∀ x, P x (f x)) → Forall2 P l (f <$> l).
Proof. intros HP. induction l; simpl; constructor; auto. Qed.

(** A key without duplicates identifies its row. *)
Lemma NoDup_fmap_inj {A B} (f : A → B) (l : list A) (x y : A) :
  NoDup (f <$> l) → x ∈ l → y ∈ l → f x = f y → x = y.
Proof.
  induction l as [|r l IH]; [by intros _ ?%elem_of_nil|].
  rewrite fmap_cons, NoDup_cons, !elem_of_cons.
  intros [Hr Hnd] [->|H1] [->|H2] Hf; auto.
  - destruct Hr. rewrite Hf. by apply list_elem_of_fmap_2.
  - destruct Hr. rewrite <- Hf. by apply list_elem_of_fmap_2.
Qed.

Lemma Forall_sublist {A} (P : A → Prop) (l k : list A) :
  Forall P l → k `sublist_of` l → Forall P k.
Proof.
  rewrite !Forall_forall. intros Hl Hk x Hx. apply Hl.
  by eapply elem_of_sublist.
Qed.

(** Membership in a list that is written out. *)
Ltac listed :=
  by repeat first [apply list_elem_of_here | apply list_elem_of_further].

(** A decidable statement about given data, by evaluation. *)
Ltac evaluated := refine (bool_decide_unpack _ _); vm_compute; exact I.

(** ** The query layer *)

Section GormFacts.
Context {A : Type} `{Table A} `{Columns A}.
Implicit Types (q : Query A) (rows : list A).

Lemma elem_of_matching q rows x :
  x ∈ matching q rows ↔ q_where q x = true ∧ x ∈ rows.
Proof.
  unfold matching. rewrite list_elem_of_filter.
  by rewrite Is_true_true.
Qed.

Lemma matching_sublist q rows : matching q rows `sublist_of` rows.
Proof. apply sublist_filter. Qed.

Lemma ordered_Permutation q rows : ordered q rows ≡ₚ rows.
Proof.
  unfold ordered. destruct (q_order q); [|done].
  apply merge_sort_Permutation.
Qed.

Lemma skipped_sublist q rows : skipped q rows `sublist_of` rows.
Proof.
  unfold skipped. destruct (q_offset q); [|done].
  case_bool_decide; [apply sublist_drop|done].
Qed.

Lemma limited_prefix q rows : limited q rows `prefix_of` rows.
Proof.
  unfold limited. destruct (q_limit q); [|done].
  case_bool_decide; [apply prefix_take|done].
Qed.

Lemma limited_sublist q rows : limited q rows `sublist_of` rows.
Proof.
  unfold limited. destruct (q_limit q); [|done].
  case_bool_decide; [apply sublist_take|done].
Qed.

(** A query returns rows of the table that meet its conditions. *)
Lemma elem_of_Find q rows x :
  x ∈ Find q rows → q_where q x = true ∧ x ∈ rows.
Proof.
  unfold Find. intros Hx.
  apply elem_of_matching.
  rewrite <- (ordered_Permutation q).
  eapply elem_of_sublist; [|apply skipped_sublist].
  eapply elem_of_sublist; [|apply limited_sublist]. done.
Qed.

(** A key that is unique in the table is unique in the result. *)
Lemma Find_NoDup {B} (f : A → B) q rows :
  NoDup (f <$> rows) → NoDup (f <$> Find q rows).
Proof.
  intros Hnd. unfold Find.
  eapply sublist_NoDup; [|apply fmap_sublist, limited_sublist].
  eapply sublist_NoDup; [|apply fmap_sublist, skipped_sublist].
  rewrite (ordered_Permutation q).
  eapply sublist_NoDup; [done|apply fmap_sublist, matching_sublist].
Qed.

Lemma StronglySorted_weaken (R S : relation A) l :
  (∀ x y, R x y → S x y) → StronglySorted R l → StronglySorted S l.
Proof.
  intros HRS. induction 1 as [|x l _ IH Hx]; constructor; [done|].
  eapply Forall_impl; [exact Hx|]. auto.
Qed.

Lemma StronglySorted_take (R : relation A) n l :
  StronglySorted R l → StronglySorted R (take n l).
Proof.
  intros Hl. rewrite <- (take_drop n l) in Hl.
  by apply StronglySorted_app in Hl as (_ & ? & _).
Qed.

Lemma StronglySorted_drop (R : relation A) n l :
  StronglySorted R l → StronglySorted R (drop n l).
Proof.
  intros Hl. rewrite <- (take_drop n l) in Hl.
  by apply StronglySorted_app in Hl as (_ & _ & ?).
Qed.

Lemma merge_sort_asc (key : A → Z) l :
  StronglySorted (λ x y, key x ≤ key y)
    (merge_sort (λ x y, asc key x y) l).
Proof.
  assert (Transitive (λ x y : A, Is_true (asc key x y))).
  { intros x y z. unfold asc. rewrite !bool_decide_spec. lia. }
  assert (Total (λ x y : A, Is_true (asc key x y))).
  { intros x y. unfold asc. rewrite !bool_decide_spec. lia. }
  eapply StronglySorted_weaken; [|by apply StronglySorted_merge_sort].
  intros x y. unfold asc. by rewrite bool_decide_spec.
Qed.

Lemma merge_sort_desc (key : A → Z) l :
  StronglySorted (λ x y, key y ≤ key x)
    (merge_sort (λ x y, desc key x y) l).
Proof.
  assert (Transitive (λ x y : A, Is_true (desc key x y))).
  { intros x y z. unfold desc. rewrite !bool_decide_spec. lia. }
  assert (Total (λ x y : A, Is_true (desc key x y))).
  { intros x y. unfold desc. rewrite !bool_decide_spec. lia. }
  eapply StronglySorted_weaken; [|by apply StronglySorted_merge_sort].
  intros x y. unfold desc. by rewrite bool_decide_spec.
Qed.

(** An update whose assignments succeed on every row rewrites the rows
    it matches, in place. *)
Lemma Updates_fmap sets q rows (f : A → A) :
  (∀ r, q_where q r = true → assign sets r = Some (f r)) →
  Updates sets q rows
  = Some ((λ r, if q_where q r then f r else r) <$> rows).
Proof.
  intros Hf. unfold Updates.
  apply mapM_Some. induction rows as [|r rows IH]; simpl; constructor; auto.
  destruct (q_where q r) eqn:E; auto.
Qed.

End GormFacts.

(** ** The sync-job repository *)

Section JobFacts.
Import SyncJob.
Implicit Types (db : list SyncJob.t) (j : SyncJob.t).

Lemma where_id_fmap id (f : SyncJob.t → SyncJob.t) db :
  (λ j, if q_where (Model |> Where (λ j, bool_decide (ID j = id))) j
        then f j else j) <$> db
  = at_id id f <$> db.
Proof.
  apply list_fmap_ext. intros _ j _. unfold at_id. simpl.
  by case_bool_decide; case_decide.
Qed.

Lemma MarkProcessing_eq now id db :
  repository.MarkProcessing now id db
  = Some (at_id id (processing now) <$> db).
Proof.
  unfold repository.MarkProcessing.
  rewrite (Updates_fmap _ _ _ (processing now)); [|done].
  by rewrite where_id_fmap.
Qed.

Lemma MarkCompleted_eq now id db :
  repository.MarkCompleted now id db
  = Some (at_id id (completed now) <$> db).
Proof.
  unfold repository.MarkCompleted.
  rewrite (Updates_fmap _ _ _ (completed now)); [|done].
  by rewrite where_id_fmap.
Qed.

Lemma MarkFailed_eq id errorMessage db :
  repository.MarkFailed id errorMessage db
  = Some (at_id id (failed errorMessage) <$> db).
Proof.
  unfold repository.MarkFailed.
  rewrite (Updates_fmap _ _ _ (failed errorMessage)); [|done].
  by rewrite where_id_fmap.
Qed.

Lemma at_id_ID id f j : (∀ j, ID (f j) = ID j) → ID (at_id id f j) = ID j.
Proof. intros Hf. unfold at_id. by case_decide. Qed.

Lemma at_id_ids id f db :
  (∀ j, ID (f j) = ID j) → ID <$> (at_id id f <$> db) = ID <$> db.
Proof.
  intros Hf. rewrite <- list_fmap_compose. apply list_fmap_ext.
  intros _ j _. by apply at_id_ID.
Qed.

End JobFacts.

(** ** Selection of pending jobs *)

Section Pending.
Import SyncJob.

Lemma pending_matching now db :
  matching (Model |> Where (λ j, bool_decide (queue.due now j))) db
  = filter (queue.due now) db.
Proof.
  unfold matching. apply list_filter_iff. intros j. simpl.
  by rewrite bool_decide_spec.
Qed.

(** C1. For every table, time [now] and limit [n], [GetPendingJobs]
    returns only jobs that are pending, scheduled at or before [now] and
    below their attempt limit; the result is in ascending order of
    [scheduled_at]; it is the first [n] jobs of the due jobs taken in that
    order (a limit below zero is no limit: the due jobs are all returned).
    Both repositories select the same jobs. *)
Theorem GetPendingJobs_due_ordered_truncated
    (db : list SyncJob.t) (now : time) (n : Z) :
  let result := repository.GetPendingJobs now n db in
  (∀ j, j ∈ result → j ∈ db ∧ queue.due now j)
  ∧ StronglySorted queue.by_schedule result
  ∧ (∃ all_due,
        all_due ≡ₚ filter (queue.due now) db
        ∧ StronglySorted queue.by_schedule all_due
        ∧ result = if decide (0 ≤ n) then take (Z.to_nat n) all_due
                   else all_due)
  ∧ persistence.GetPendingJobs now n db = result.
Proof.
  set (q := Model |> Where (λ j, bool_decide (queue.due now j))
                  |> Order (asc ScheduledAt) |> Limit n).
  assert (Hsorted : StronglySorted queue.by_schedule
            (merge_sort (λ x y, asc ScheduledAt x y)
               (filter (queue.due now) db))) by apply merge_sort_asc.
  assert (Hres : repository.GetPendingJobs now n db
                 = if decide (0 ≤ n)
                   then take (Z.to_nat n)
                          (merge_sort (λ x y, asc ScheduledAt x y)
                             (filter (queue.due now) db))
                   else merge_sort (λ x y, asc ScheduledAt x y)
                          (filter (queue.due now) db)).
  { change (repository.GetPendingJobs now n db) with (Find q db).
    unfold Find, limited, skipped, ordered. simpl.
    rewrite <- pending_matching.
    by case_bool_decide; case_decide. }
  simpl. repeat split.
  - eapply elem_of_Find. exact H.
  - apply (elem_of_Find q) in H as [H _]. simpl in H.
    by apply bool_decide_eq_true in H as (? & _).
  - apply (elem_of_Find q) in H as [H _]. simpl in H.
    by apply bool_decide_eq_true in H as (_ & ? & _).
  - apply (elem_of_Find q) in H as [H _]. simpl in H.
    by apply bool_decide_eq_true in H as (_ & _ & ?).
  - rewrite Hres. case_decide; [by apply StronglySorted_take|done].
  - exists (merge_sort (λ x y, asc ScheduledAt x y)
              (filter (queue.due now) db)).
    split; [apply merge_sort_Permutation|]. split; done.
Qed.

End Pending.

(** ** Bounded retry *)

Section Retry.
Import SyncJob.
Implicit Types (db : list SyncJob.t) (j : SyncJob.t).

(** Under the primary key a row is found by its id. *)
Lemma keyed_inj db j1 j2 :
  queue.keyed db → j1 ∈ db → j2 ∈ db → ID j1 = ID j2 → j1 = j2.
Proof. apply NoDup_fmap_inj. Qed.

Lemma processing_ID now j : ID (processing now j) = ID j.
Proof. done. Qed.

Lemma mark_each_cons now j sel db :
  queue.mark_each now (j :: sel) db
  = queue.mark_each now sel (at_id (ID j) (processing now) <$> db).
Proof. simpl. by rewrite MarkProcessing_eq. Qed.

(** Marking leaves alone the rows whose id is not among the selected. *)
Lemma mark_each_other now sel db db' i j :
  queue.mark_each now sel db = Some db' →
  db !! i = Some j → ID j ∉ ID <$> sel → db' !! i = Some j.
Proof.
  revert db. induction sel as [|s sel IH]; intros db Hm Hi Hj.
  - by simplify_eq/=.
  - rewrite mark_each_cons in Hm. rewrite fmap_cons, not_elem_of_cons in Hj.
    destruct Hj as [Hne Hj]. eapply IH; [exact Hm| |done].
    rewrite list_lookup_fmap, Hi. simpl. unfold at_id. by case_decide.
Qed.

(** Marking keeps the ids, in place. *)
Lemma mark_each_ids now sel db db' :
  queue.mark_each now sel db = Some db' → ID <$> db' = ID <$> db.
Proof.
  revert db. induction sel as [|s sel IH]; intros db Hm.
  - by simplify_eq/=.
  - rewrite mark_each_cons in Hm. rewrite (IH _ Hm).
    by apply at_id_ids.
Qed.

(** Marking once each job of a selection of jobs that have attempts
    left keeps every job within its limit. *)
Lemma mark_each_bounded now sel db db' :
  queue.keyed db → queue.bounded db → NoDup (ID <$> sel) →
  (∀ j, j ∈ sel → j ∈ db ∧ Attempts j < MaxAttempts j) →
  queue.mark_each now sel db = Some db' →
  queue.bounded db'.
Proof.
  revert db. induction sel as [|s sel IH]; intros db Hk Hb Hnd Hsel Hm.
  - by simplify_eq/=.
  - rewrite mark_each_cons in Hm.
    rewrite fmap_cons, NoDup_cons in Hnd. destruct Hnd as [Hs Hnd].
    destruct (Hsel s) as [Hsdb Hslt]; [by left|].
    eapply IH; [| |exact Hnd| |exact Hm].
    + unfold queue.keyed. by rewrite at_id_ids.
    + unfold queue.bounded in *. rewrite Forall_fmap.
      rewrite Forall_forall in Hb |- *. intros r Hr. simpl.
      unfold at_id. case_decide as Hid; [|by apply Hb].
      rewrite (keyed_inj db r s Hk Hr Hsdb Hid). simpl. lia.
    + intros j Hj. destruct (Hsel j) as [Hjdb Hjlt]; [by right|].
      split; [|done].
      apply list_elem_of_fmap. exists j. split; [|done].
      unfold at_id. case_decide as Hid; [|done].
      destruct Hs. rewrite <- Hid. by apply list_elem_of_fmap_2.
Qed.

(** What either selection returns: rows of the table with attempts
    left, no id twice. *)
Lemma selection_ok db sel :
  queue.keyed db →
  (∃ now limit, sel = repository.GetPendingJobs now limit db)
  ∨ (∃ connectionID, sel = repository.GetFailedJobs connectionID db) →
  NoDup (ID <$> sel)
  ∧ ∀ j, j ∈ sel → j ∈ db ∧ Attempts j < MaxAttempts j.
Proof.
  intros Hk [(now & limit & ->)|(c & ->)].
  - split; [by apply Find_NoDup|].
    intros j Hj. apply elem_of_Find in Hj as [Hw ?]. split; [done|].
    simpl in Hw. by apply bool_decide_eq_true in Hw as (_ & _ & ?).
  - split; [by apply Find_NoDup|].
    intros j Hj. apply elem_of_Find in Hj as [Hw ?]. split; [done|].
    simpl in Hw. by apply bool_decide_eq_true in Hw as (_ & _ & ?).
Qed.

(** A job with no attempts left is in neither selection. *)
Lemma exhausted_not_selected db j :
  MaxAttempts j ≤ Attempts j → ¬ queue.selected j db.
Proof.
  intros Hex [(now & limit & Hj)|(c & Hj)];
    apply elem_of_Find in Hj as [Hw _]; simpl in Hw;
    apply bool_decide_eq_true in Hw as (_ & _ & ?); lia.
Qed.

Lemma step_ids db db' : queue.step db db' → ID <$> db' = ID <$> db.
Proof.
  destruct 1 as [now limit db' Hm|now c db' Hm|now id db' Hm|id msg db' Hm].
  - by eapply mark_each_ids.
  - by eapply mark_each_ids.
  - rewrite MarkCompleted_eq in Hm. simplify_eq. by apply at_id_ids.
  - rewrite MarkFailed_eq in Hm. simplify_eq. by apply at_id_ids.
Qed.

Lemma step_bounded db db' :
  queue.keyed db → queue.bounded db → queue.step db db' →
  queue.bounded db'.
Proof.
  intros Hk Hb Hstep.
  destruct Hstep as [now limit db' Hm|now c db' Hm|now id db' Hm|id msg db' Hm].
  - destruct (selection_ok db (repository.GetPendingJobs now limit db) Hk)
      as [Hnd Hsel]; [left; eauto|].
    exact (mark_each_bounded now _ db db' Hk Hb Hnd Hsel Hm).
  - destruct (selection_ok db (repository.GetFailedJobs c db) Hk)
      as [Hnd Hsel]; [right; eauto|].
    exact (mark_each_bounded now _ db db' Hk Hb Hnd Hsel Hm).
  - rewrite MarkCompleted_eq in Hm. simplify_eq.
    unfold queue.bounded in *. rewrite Forall_fmap.
    eapply Forall_impl; [exact Hb|]. intros r Hr. simpl.
    unfold at_id. by case_decide.
  - rewrite MarkFailed_eq in Hm. simplify_eq.
    unfold queue.bounded in *. rewrite Forall_fmap.
    eapply Forall_impl; [exact Hb|]. intros r Hr. simpl.
    unfold at_id. by case_decide.
Qed.

(** A step leaves the counters of a job with no attempts left as they
    are. *)
Lemma step_exhausted db db' i j :
  queue.keyed db → queue.step db db' →
  db !! i = Some j → MaxAttempts j ≤ Attempts j →
  ∃ j', db' !! i = Some j' ∧ ID j' = ID j
        ∧ Attempts j' = Attempts j ∧ MaxAttempts j' = MaxAttempts j.
Proof.
  intros Hk Hstep Hi Hex.
  assert (Hjdb : j ∈ db) by (by eapply list_elem_of_lookup_2).
  assert (Hsel : ∀ sel : list SyncJob.t,
    (∀ s, s ∈ sel → s ∈ db ∧ Attempts s < MaxAttempts s) →
    ID j ∉ ID <$> sel).
  { intros sel Hsel (s & Hid & Hs)%list_elem_of_fmap.
    destruct (Hsel s Hs) as [Hsdb Hlt].
    rewrite (keyed_inj db j s Hk Hjdb Hsdb Hid) in Hex. lia. }
  destruct Hstep as [now limit db' Hm|now c db' Hm|now id db' Hm|id msg db' Hm].
  - exists j. split; [|done].
    eapply mark_each_other; [exact Hm|exact Hi|].
    apply Hsel.
    by destruct (selection_ok db (repository.GetPendingJobs now limit db) Hk)
      as [_ ?]; [left; eauto|].
  - exists j. split; [|done].
    eapply mark_each_other; [exact Hm|exact Hi|].
    apply Hsel.
    by destruct (selection_ok db (repository.GetFailedJobs c db) Hk)
      as [_ ?]; [right; eauto|].
  - rewrite MarkCompleted_eq in Hm. simplify_eq.
    exists (at_id id (completed now) j).
    rewrite list_lookup_fmap, Hi. unfold at_id. simpl.
    by case_decide; repeat split.
  - rewrite MarkFailed_eq in Hm. simplify_eq.
    exists (at_id id (failed msg) j).
    rewrite list_lookup_fmap, Hi. unfold at_id. simpl.
    by case_decide; repeat split.
Qed.

(** C2. Retry is bounded.  [MarkProcessing] adds exactly one to the
    attempts of the job with the given id and leaves the attempts of the
    others; in every state reached by poll cycles from a table in which
    ids are unique and every job is within its limit, every job is
    within its limit; a job that has used up its attempts is selected by
    neither [GetPendingJobs] nor [GetFailedJobs], and keeps its counters
    in every later state, so it is never selected again. *)
Theorem retry_bounded db db' :
  queue.keyed db → queue.bounded db → queue.reachable db db' →
  (∀ now id,
     ∃ db1, repository.MarkProcessing now id db' = Some db1
            ∧ Forall2 (λ j j1, Attempts j1
                               = if decide (ID j = id)
                                 then Attempts j + 1 else Attempts j)
                      db' db1)
  ∧ queue.bounded db'
  ∧ (∀ j, j ∈ db' → MaxAttempts j ≤ Attempts j → ¬ queue.selected j db')
  ∧ (∀ i j, db !! i = Some j → MaxAttempts j ≤ Attempts j →
       ∃ j', db' !! i = Some j' ∧ ID j' = ID j
             ∧ Attempts j' = Attempts j
             ∧ MaxAttempts j' = MaxAttempts j
             ∧ ¬ queue.selected j' db').
Proof.
  intros Hk Hb Hreach. split; [|split; [|split]].
  - intros now id. eexists. split; [apply MarkProcessing_eq|].
    apply Forall2_fmap_diag.
    intros j. unfold at_id. by case_decide.
  - induction Hreach as [db|db db1 db' Hstep _ IH]; [done|].
    apply IH; [|by eapply step_bounded].
    unfold queue.keyed. by rewrite (step_ids _ _ Hstep).
  - intros j _. apply exhausted_not_selected.
  - induction Hreach as [db|db db1 db' Hstep _ IH]; intros i j Hi Hex.
    + exists j. repeat split; try done. by apply exhausted_not_selected.
    + destruct (step_exhausted db db1 i j Hk Hstep Hi Hex)
        as (j1 & Hi1 & Hid1 & Ha1 & Hm1).
      destruct (IH) with (i := i) (j := j1)
        as (j' & Hi' & Hid' & Ha' & Hm' & Hns).
      * unfold queue.keyed. by rewrite (step_ids _ _ Hstep).
      * by eapply step_bounded.
      * done.
      * lia.
      * exists j'. repeat split; congruence || done.
Qed.

End Retry.

(** ** The status domain, the frame of [MarkFailed], the two
    repositories *)

Section Status.
Import SyncJob.
Implicit Types (db : list SyncJob.t) (j : SyncJob.t).

Lemma with_defaults_in_domain fresh now j :
  Status j = "" ∨ queue.in_domain j → queue.in_domain (with_defaults fresh now j).
Proof.
  unfold queue.in_domain. intros [Hs|Hs]; simpl; case_decide; try done.
  all: unfold queue.statuses; listed.
Qed.

Lemma Create_in_domain fresh now j db db' :
  Status j = "" ∨ queue.in_domain j → Forall queue.in_domain db →
  repository.Create fresh now j db = Some db' → Forall queue.in_domain db'.
Proof.
  intros Hj Hdb. unfold repository.Create, Insert.
  case_bool_decide; [done|]. intros [= <-].
  apply Forall_app. split; [done|].
  apply Forall_singleton. by apply with_defaults_in_domain.
Qed.

Lemma at_id_in_domain id f db :
  (∀ j, queue.in_domain (f j)) → Forall queue.in_domain db →
  Forall queue.in_domain (at_id id f <$> db).
Proof.
  intros Hf Hdb. rewrite Forall_fmap.
  eapply Forall_impl; [exact Hdb|]. intros j Hj. simpl.
  unfold at_id. by case_decide.
Qed.

Lemma exec_in_domain o db db' :
  queue.with_constant o → Forall queue.in_domain db →
  queue.exec o db = Some db' → Forall queue.in_domain db'.
Proof.
  intros Ho Hdb.
  destruct o as [fresh now j|fresh now j|now id|now id|id msg|id|now h];
    simpl in *.
  - by apply Create_in_domain.
  - unfold repository.Update, Save.
    case_decide; [by apply Create_in_domain; [right|]|].
    case_bool_decide; [|by apply Create_in_domain; [right|]].
    intros [= <-]. rewrite Forall_fmap.
    eapply Forall_impl; [exact Hdb|]. intros r Hr. simpl.
    by case_decide.
  - rewrite MarkProcessing_eq. intros [= <-].
    apply at_id_in_domain; [|done].
    intros r. unfold queue.in_domain, queue.statuses. simpl. listed.
  - rewrite MarkCompleted_eq. intros [= <-].
    apply at_id_in_domain; [|done].
    intros r. unfold queue.in_domain, queue.statuses. simpl. listed.
  - rewrite MarkFailed_eq. intros [= <-].
    apply at_id_in_domain; [|done].
    intros r. unfold queue.in_domain, queue.statuses. simpl. listed.
  - intros [= <-]. eapply Forall_sublist; [exact Hdb|].
    apply sublist_filter.
  - intros [= <-]. eapply Forall_sublist; [exact Hdb|].
    apply sublist_filter.
Qed.

(** C4. The status domain is closed.  A job created without a status is
    stored as 'pending'; and when every status in the table is one of
    pending, processing, completed, failed, it is so again after any run
    of repository operations in which [Create] and [Update] are called
    with one of the four constants ([Create] also with none). *)
Theorem status_domain_closed (ops : list queue.op) db :
  Forall queue.with_constant ops →
  Forall (λ j, Status j ∈ queue.statuses) db →
  Forall (λ j, Status j ∈ queue.statuses) (queue.run ops db)
  ∧ (∀ fresh now j db',
       Status j = "" →
       repository.Create fresh now j db = Some db' →
       ∃ row, db' = db ++ [row] ∧ Status row = JobStatusPending).
Proof.
  intros Hops Hdb. split.
  - revert db Hdb. induction Hops as [|o ops Ho _ IH]; intros db Hdb; [done|].
    simpl. apply IH.
    destruct (queue.exec o db) as [db'|] eqn:E; [|done].
    by eapply exec_in_domain.
  - intros fresh now j db' Hj. unfold repository.Create, Insert.
    case_bool_decide; [done|]. intros [= <-].
    eexists. split; [done|]. simpl. by case_decide.
Qed.

(** C5. [MarkFailed] succeeds and writes only the status ('failed') and
    the error message of the rows with the given id; every other field of
    those rows, [scheduled_at], [attempts] and [max_attempts] among
    them, and every other row stay as they are, each row in its place. *)
Theorem MarkFailed_frame (id : uuid) (errorMessage : string) db :
  ∃ db',
    repository.MarkFailed id errorMessage db = Some db'
    ∧ Forall2 (λ j j',
                 if decide (ID j = id)
                 then Status j' = JobStatusFailed
                      ∧ ErrorMessage j' = errorMessage
                      ∧ same_but_status_error j j'
                 else j' = j)
              db db'.
Proof.
  eexists. split; [apply MarkFailed_eq|].
  apply Forall2_fmap_diag. intros j. unfold at_id.
  case_decide; [|done]. by repeat split.
Qed.

(** C9. The two sync-job repositories compute the same: on every table
    and every argument, the seven operations named give the same
    result and the same next table. *)
Theorem repositories_agree db :
  (∀ now limit,
     persistence.GetPendingJobs now limit db
     = repository.GetPendingJobs now limit db)
  ∧ (∀ connectionID,
       persistence.GetFailedJobs connectionID db
       = repository.GetFailedJobs connectionID db)
  ∧ (∀ connectionID filter,
       persistence.GetByConnectionID connectionID filter db
       = repository.GetByConnectionID connectionID filter db)
  ∧ (∀ now id,
       persistence.MarkProcessing now id db
       = repository.MarkProcessing now id db)
  ∧ (∀ now id,
       persistence.MarkCompleted now id db
       = repository.MarkCompleted now id db)
  ∧ (∀ id errorMessage,
       persistence.MarkFailed id errorMessage db
       = repository.MarkFailed id errorMessage db)
  ∧ (∀ now olderThanHours,
       persistence.DeleteOldCompleted now olderThanHours db
       = repository.DeleteOldCompleted now olderThanHours db).
Proof. repeat split. Qed.

End Status.

(** ** The Shopee signature *)

Section Signature.

Lemma append_nil_r (s : string) : s +:+ "" = s.
Proof.
  induction s as [|a s IH]; [done|].
  change (String a (s +:+ "") = String a s). by rewrite IH.
Qed.

(** [%d%s%d] prints the two integers in decimal around the string. *)
Lemma Sprintf_dsd (a : Z) (p : string) (t : Z) :
  fmt.Sprintf "%d%s%d" [fmt.Int a; fmt.Str p; fmt.Int t]
  = fmt.decimal a +:+ p +:+ fmt.decimal t.
Proof.
  transitivity (fmt.decimal a +:+ p +:+ fmt.decimal t +:+ "");
    [done|by rewrite append_nil_r].
Qed.

Lemma Sprintf_dsdsd (a : Z) (p : string) (t : Z) (k : string) (s : Z) :
  fmt.Sprintf "%d%s%d%s%d"
    [fmt.Int a; fmt.Str p; fmt.Int t; fmt.Str k; fmt.Int s]
  = fmt.decimal a +:+ p +:+ fmt.decimal t +:+ k +:+ fmt.decimal s.
Proof.
  transitivity
    (fmt.decimal a +:+ p +:+ fmt.decimal t +:+ k +:+ fmt.decimal s +:+ "");
    [done|by rewrite append_nil_r].
Qed.

Lemma digit_lower_hex (n : Z) : 0 ≤ n < 16 → hex.is_lower_hex (hex.digit n).
Proof.
  intros Hn. unfold hex.is_lower_hex.
  assert (Hc : n = 0 ∨ n = 1 ∨ n = 2 ∨ n = 3 ∨ n = 4 ∨ n = 5 ∨ n = 6
               ∨ n = 7 ∨ n = 8 ∨ n = 9 ∨ n = 10 ∨ n = 11 ∨ n = 12
               ∨ n = 13 ∨ n = 14 ∨ n = 15) by lia.
  repeat (destruct Hc as [->|Hc]; [vm_compute; listed|]).
  subst. vm_compute. listed.
Qed.

Lemma byte_range (c : ascii) : 0 ≤ Z.of_N (N_of_ascii c) < 256.
Proof.
  pose proof (N_ascii_bounded c). lia.
Qed.

(** The hex encoding is made of lowercase hexadecimal digits, two for
    each byte. *)
Lemma EncodeToString_lower (src : string) :
  Forall hex.is_lower_hex
    (list_ascii_of_string (hex.EncodeToString src))
  ∧ String.length (hex.EncodeToString src)
    = (2 * String.length src)%nat.
Proof.
  unfold hex.EncodeToString, bytes_of_string.
  rewrite list_ascii_of_string_of_list_ascii.
  induction src as [|c src [IH1 IH2]]; [by split; [constructor|]|].
  split.
  - simpl. pose proof (byte_range c).
    constructor; [|constructor; [|exact IH1]]; apply digit_lower_hex.
    + split; [apply Z.div_pos; lia|apply Z.div_lt_upper_bound; lia].
    + apply Z.mod_pos_bound. lia.
  - simpl. f_equal. transitivity (S (2 * String.length src)); [|lia].
    f_equal. exact IH2.
Qed.

(** C6. Shopee request signing.  For every client, path and timestamp
    the signature without tokens is the lowercase hex encoding of the
    HMAC-SHA256, keyed by the partner key, of the partner id in decimal
    followed by the path and the timestamp in decimal; the signature
    with tokens is the same over that text followed by the access token
    and the shop id in decimal. *)
Theorem shopee_signatures (c : shopee.Client) (p : string) (t : Z) :
  shopee.generateSign c p t
  = hex.EncodeToString
      (hmac.mac (shopee.partnerKey c)
         (fmt.decimal (shopee.partnerID c) +:+ p +:+ fmt.decimal t))
  ∧ Forall hex.is_lower_hex
      (list_ascii_of_string (shopee.generateSign c p t))
  ∧ ∀ (access_token : string) (shop_id : Z),
      shopee.generateSignWithTokens c p t access_token shop_id
      = hex.EncodeToString
          (hmac.mac (shopee.partnerKey c)
             (fmt.decimal (shopee.partnerID c) +:+ p +:+ fmt.decimal t
              +:+ access_token +:+ fmt.decimal shop_id))
      ∧ Forall hex.is_lower_hex
          (list_ascii_of_string
             (shopee.generateSignWithTokens c p t access_token shop_id)).
Proof.
  unfold shopee.generateSign, shopee.generateSignWithTokens.
  rewrite Sprintf_dsd. split; [done|]. split.
  - apply EncodeToString_lower.
  - intros k s. rewrite Sprintf_dsdsd. split; [done|].
    apply EncodeToString_lower.
Qed.

End Signature.

(** ** The connection response *)

Section Response.
Import Connection.

(** C8. [ToResponse] does not depend on the tokens: two connections
    that differ in nothing but [AccessToken] and [RefreshToken] give the
    same [ConnectionResponse], a record that has no token field. *)
Theorem ToResponse_independent_of_tokens (c1 c2 : Connection.t) :
  same_but_tokens c1 c2 → ToResponse c1 = ToResponse c2.
Proof.
  intros (? & ? & ? & ? & ? & ? & ? & ? & ?).
  unfold ToResponse. congruence.
Qed.

End Response.

(** ** Webhook signatures *)

Section Webhooks.
Import handlers.
Variable unmarshal_testPush : string → option string.
Variable unmarshal_shopeeEvent : string → option ShopeeEvent.t.
Variable unmarshal_tiktokEvent : string → option TikTokEvent.t.

(** A signature other than the expected one does not verify. *)
Lemma verifyTikTokSignature_false h body signature :
  signature ≠ expected_signature (tiktokSecret h) body →
  verifyTikTokSignature h body signature = false.
Proof.
  intros Hne. unfold verifyTikTokSignature, hmac.Equal.
  case_decide; [done|].
  apply bool_decide_eq_false. intros Heq. apply Hne. by rewrite <- Heq.
Qed.

(** The expected signature verifies. *)
Lemma verifyTikTokSignature_true h body :
  expected_signature (tiktokSecret h) body ≠ "" →
  verifyTikTokSignature h body (expected_signature (tiktokSecret h) body)
  = true.
Proof.
  intros Hne. unfold verifyTikTokSignature, hmac.Equal.
  case_decide; [done|]. by apply bool_decide_eq_true.
Qed.

Lemma TikTok_rejects_bad_signature h req body :
  Body req = Some body →
  tiktokSecret h ≠ "" →
  GetHeader "X-Tts-Signature" req
    ≠ expected_signature (tiktokSecret h) body →
  HandleTikTokWebhook unmarshal_tiktokEvent h req
  = mkOutcome [(Warn, "Invalid TikTok webhook signature")]
      StatusUnauthorized [("error", "invalid signature")] [].
Proof.
  intros Hbody Hsecret Hsig. unfold HandleTikTokWebhook. rewrite Hbody.
  rewrite (verifyTikTokSignature_false _ _ _ Hsig).
  by rewrite bool_decide_eq_true_2.
Qed.

(** The Shopee handler answers 200 to every request it can read. *)
Lemma Shopee_always_OK h req body :
  Body req = Some body →
  status (HandleShopeeWebhook unmarshal_testPush unmarshal_shopeeEvent
            h req) = StatusOK.
Proof.
  intros Hbody. unfold HandleShopeeWebhook. rewrite Hbody.
  case_bool_decide; [done|].
  by destruct (unmarshal_shopeeEvent body).
Qed.

(** What the Shopee handler answers and starts is decided by the body
    alone. *)
Lemma Shopee_ignores_headers h req req' :
  Body req' = Body req →
  let o := HandleShopeeWebhook unmarshal_testPush unmarshal_shopeeEvent
             h req in
  let o' := HandleShopeeWebhook unmarshal_testPush unmarshal_shopeeEvent
              h req' in
  status o' = status o ∧ payload o' = payload o ∧ started o' = started o.
Proof.
  intros Hbody. unfold HandleShopeeWebhook. rewrite Hbody.
  destruct (Body req) as [body|]; [|done].
  case_bool_decide; [done|].
  by destruct (unmarshal_shopeeEvent body).
Qed.

(** C3, as the code has it.  The TikTok handler verifies: when the app
    secret is configured and the [X-Tts-Signature] header is not the
    hex-encoded HMAC-SHA256 of the raw body under the secret, it answers
    401 and hands no order event on.  The Shopee handler compares the
    [Authorization] header in the same way but does not reject: every
    request whose body it can read is answered 200, and its answer and
    the order event it hands on are the same whatever the headers say. *)
Theorem webhook_signature_verification :
  verifies (HandleTikTokWebhook unmarshal_tiktokEvent)
    tiktokSecret "X-Tts-Signature"
  ∧ (∀ h req body,
       Body req = Some body →
       tiktokSecret h ≠ "" →
       GetHeader "X-Tts-Signature" req
         ≠ expected_signature (tiktokSecret h) body →
       status (HandleTikTokWebhook unmarshal_tiktokEvent h req)
       = StatusUnauthorized)
  ∧ (∀ h req body,
       Body req = Some body →
       status (HandleShopeeWebhook unmarshal_testPush
                 unmarshal_shopeeEvent h req) = StatusOK)
  ∧ (∀ h req req',
       Body req' = Body req →
       let o := HandleShopeeWebhook unmarshal_testPush
                  unmarshal_shopeeEvent h req in
       let o' := HandleShopeeWebhook unmarshal_testPush
                   unmarshal_shopeeEvent h req' in
       status o' = status o ∧ payload o' = payload o
       ∧ started o' = started o).
Proof.
  repeat split.
  - rewrite (TikTok_rejects_bad_signature h req body) by done.
    simpl. unfold StatusUnauthorized. lia.
  - by rewrite (TikTok_rejects_bad_signature h req body).
  - intros h req body ???.
    by rewrite (TikTok_rejects_bad_signature h req body).
  - intros. by eapply Shopee_always_OK.
  - by apply Shopee_ignores_headers.
  - by apply Shopee_ignores_headers.
  - by apply Shopee_ignores_headers.
Qed.

End Webhooks.

(** C3, as stated, fails for the Shopee handler: with the partner key
    configured, an order event whose [Authorization] header is not the
    signature of its body is answered 200 and the order event is handed
    on. *)
Lemma Shopee_accepts_bad_signature :
  let o := handlers.HandleShopeeWebhook json.Unmarshal_testPush
             json.Unmarshal_shopeeEvent examples.handler
             examples.shopee_forged in
  handlers.shopeeKey examples.handler ≠ ""
  ∧ handlers.GetHeader "Authorization" examples.shopee_forged
    ≠ handlers.expected_signature (handlers.shopeeKey examples.handler)
        examples.shopee_body
  ∧ handlers.status o = 200
  ∧ handlers.started o
    = [handlers.HandleShopeeOrderEvent 1001 "SN1" "READY_TO_SHIP"]
  ∧ ¬ handlers.verifies
        (handlers.HandleShopeeWebhook json.Unmarshal_testPush
           json.Unmarshal_shopeeEvent)
        handlers.shopeeKey "Authorization".
Proof.
  assert (Hkey : handlers.shopeeKey examples.handler ≠ "") by done.
  assert (Hsig : handlers.GetHeader "Authorization" examples.shopee_forged
                 ≠ handlers.expected_signature
                     (handlers.shopeeKey examples.handler)
                     examples.shopee_body).
  { refine (bool_decide_eq_false_1 (_ = _) _). by vm_compute. }
  assert (Hout : handlers.HandleShopeeWebhook json.Unmarshal_testPush
                   json.Unmarshal_shopeeEvent examples.handler
                   examples.shopee_forged
                 = handlers.mkOutcome
                     [(handlers.Info, "Shopee webhook received");
                      (handlers.Info, "Shopee webhook body received");
                      (handlers.Info, "Shopee signature check");
                      (handlers.Warn, "Invalid Shopee webhook signature");
                      (handlers.Info, "Received Shopee webhook event")]
                     200 [("status", "received")]
                     [handlers.HandleShopeeOrderEvent 1001 "SN1"
                        "READY_TO_SHIP"]) by (by vm_compute).
  cbv zeta. split; [exact Hkey|]. split; [exact Hsig|].
  rewrite Hout. split; [reflexivity|]. split; [reflexivity|].
  intros Hclaim.
  destruct (Hclaim examples.handler examples.shopee_forged
              examples.shopee_body eq_refl Hkey Hsig) as [Hstatus _].
  rewrite Hout in Hstatus. apply Hstatus. simpl. lia.
Qed.

(** ** One connection per shop *)

Section FirstFacts.
Context {A : Type} `{Table A}.

Lemma First_Some (q : Query A) rows c :
  First q rows = Some c → q_where q c = true ∧ c ∈ rows.
Proof.
  unfold First. intros Hc. apply elem_of_matching.
  rewrite <- (merge_sort_Permutation (λ x y, pk_le x y)).
  by apply head_Some_elem_of.
Qed.

Lemma First_None (q : Query A) rows c :
  First q rows = None → c ∈ rows → q_where q c = false.
Proof.
  unfold First. intros Hn Hc. apply head_None in Hn.
  destruct (q_where q c) eqn:E; [|done].
  assert (Hin : c ∈ matching q rows) by (by apply elem_of_matching).
  rewrite <- (merge_sort_Permutation (λ x y, pk_le x y)), Hn in Hin.
  by apply elem_of_nil in Hin.
Qed.

End FirstFacts.

Section Connections.
Import Connection services.
Implicit Types (db : list Connection.t) (c e : Connection.t).

Lemma GetByPlatformAndShopID_Some platform shopID db c :
  ConnectionRepository.GetByPlatformAndShopID platform shopID db = Some c →
  c ∈ db ∧ shop c = (platform, shopID).
Proof.
  intros [Hw Hc]%First_Some. split; [done|]. simpl in Hw.
  apply bool_decide_eq_true in Hw as [? ?]. unfold shop. congruence.
Qed.

Lemma GetByPlatformAndShopID_None platform shopID db c :
  ConnectionRepository.GetByPlatformAndShopID platform shopID db = None →
  c ∈ db → shop c ≠ (platform, shopID).
Proof.
  intros Hn Hc Hs. apply (First_None _ _ c) in Hn; [|done]. simpl in Hn.
  apply bool_decide_eq_false in Hn. apply Hn.
  unfold shop in Hs. by simplify_eq.
Qed.

Lemma conn_keyed_inj db c1 c2 :
  keyed db → c1 ∈ db → c2 ∈ db → ID c1 = ID c2 → c1 = c2.
Proof. intros [Hnd _]. by apply NoDup_fmap_inj. Qed.

(** Saving a changed copy of a stored connection overwrites that row,
    in place. *)
Lemma Update_in_place fresh now e e' db :
  keyed db → e ∈ db → ID e' = ID e →
  ConnectionRepository.Update fresh now e' db
  = Some ((λ x, if decide (ID x = ID e) then touch now e' else x) <$> db).
Proof.
  intros [Hnd Hnil] He Hid. unfold ConnectionRepository.Update, Save.
  change (pk e') with (ID e'). rewrite Hid.
  assert (ID e ∈ ID <$> db) by (by apply list_elem_of_fmap_2).
  case_decide as Hz; [by rewrite Hz in *|].
  by rewrite bool_decide_eq_true_2.
Qed.

Lemma replaced_fmap {B} (f : Connection.t → B) e e' db :
  keyed db → e ∈ db → f e' = f e →
  f <$> ((λ x, if decide (ID x = ID e) then e' else x) <$> db) = f <$> db.
Proof.
  intros Hk He Hf. rewrite <- list_fmap_compose. apply list_fmap_ext.
  intros i x Hx. simpl. case_decide as Hid; [|done].
  rewrite Hf. f_equal. symmetry.
  eapply conn_keyed_inj; [done|by eapply list_elem_of_lookup_2|done|done].
Qed.

(** A connection for a shop that has none is added at the end, under
    the generated id when that is free. *)
Lemma Create_new fresh now c db :
  ID c = uuid_Nil → shop c ∉ shop <$> db → fresh ∉ ID <$> db →
  ConnectionRepository.Create fresh now c db
  = Some (db ++ [with_defaults fresh now c]).
Proof.
  intros Hid Hshop Hfresh. unfold ConnectionRepository.Create, Insert.
  rewrite bool_decide_eq_false_2 by done.
  change (pk (with_defaults fresh now c))
    with (ID (with_defaults fresh now c)).
  simpl. rewrite Hid. rewrite decide_True by done.
  by rewrite bool_decide_eq_false_2.
Qed.

Lemma Create_Some fresh now c db db' :
  ConnectionRepository.Create fresh now c db = Some db' →
  db' = db ++ [with_defaults fresh now c]
  ∧ (shop c ∉ shop <$> db)
  ∧ (ID (with_defaults fresh now c) ∉ ID <$> db).
Proof.
  unfold ConnectionRepository.Create, Insert.
  case_bool_decide; [done|]. case_bool_decide; [done|].
  by intros [= <-].
Qed.

Lemma appended_invariants fresh now c db :
  ID c = uuid_Nil → fresh ≠ uuid_Nil →
  keyed db → one_per_shop db →
  shop c ∉ shop <$> db → ID (with_defaults fresh now c) ∉ ID <$> db →
  keyed (db ++ [with_defaults fresh now c])
  ∧ one_per_shop (db ++ [with_defaults fresh now c]).
Proof.
  intros Hid Hfresh [Hnd Hnil] Hone Hshop Hpk.
  unfold keyed, one_per_shop. rewrite !fmap_app. simpl.
  rewrite Hid, decide_True by done.
  simpl in Hpk. rewrite Hid, decide_True in Hpk by done.
  repeat split.
  - apply NoDup_app. repeat split; [done| |apply NoDup_singleton].
    intros x Hx ->%list_elem_of_singleton. done.
  - rewrite elem_of_app, list_elem_of_singleton. intros [?|?]; [done|].
    by apply Hfresh.
  - apply NoDup_app. repeat split; [done| |apply NoDup_singleton].
    intros x Hx ->%list_elem_of_singleton. done.
Qed.

Lemma replaced_invariants e e' db :
  keyed db → one_per_shop db → e ∈ db →
  ID e' = ID e → shop e' = shop e →
  keyed ((λ x, if decide (ID x = ID e) then e' else x) <$> db)
  ∧ one_per_shop ((λ x, if decide (ID x = ID e) then e' else x) <$> db).
Proof.
  intros Hk Hone He Hid Hshop. unfold keyed, one_per_shop.
  rewrite !replaced_fmap by done. by destruct Hk.
Qed.

Lemma Sprintf_d (z : Z) : fmt.Sprintf "%d" [fmt.Int z] = fmt.decimal z.
Proof.
  transitivity (fmt.decimal z +:+ ""); [done|apply append_nil_r].
Qed.

Lemma HandleShopeeCallback_upserts s w code shopID db client tok :
  keyed db → one_per_shop db →
  shopeeAuth s = Some client → shopee_token w = Some tok →
  upserted "shopee" (fmt.decimal shopID)
    (encrypt s (shopee_auth.TokenResponse.AccessToken tok))
    (encrypt s (shopee_auth.TokenResponse.RefreshToken tok))
    (now w + Go.mul (shopee_auth.TokenResponse.ExpireIn tok) Second) w
    (HandleShopeeCallback s w code shopID db).1 db
    (HandleShopeeCallback s w code shopID db).2.
Proof.
  intros Hk Hone Hauth Htok. unfold HandleShopeeCallback.
  rewrite Hauth. unfold shopee_auth.ExchangeCode. rewrite Htok.
  rewrite Sprintf_d. simpl.
  destruct (ConnectionRepository.GetByPlatformAndShopID "shopee"
              (fmt.decimal shopID) db) as [e|] eqn:Hget.
  - apply GetByPlatformAndShopID_Some in Hget as [He Hshop].
    erewrite Update_in_place; [|done|exact He|done]. simpl.
    split.
    + intros c Hc Hcs.
      assert (c = e) as ->.
      { eapply (NoDup_fmap_inj shop); [exact Hone|done|done|congruence]. }
      eexists. split; [done|]. by repeat split.
    + intros Hno. by destruct (Hno e He).
  - split.
    + intros c Hc Hcs.
      by destruct (GetByPlatformAndShopID_None _ _ _ c Hget Hc).
    + intros Hno Hfresh. erewrite Create_new; [|done| |done].
      * simpl. eexists. split; [done|]. split; [done|].
        repeat split; simpl; rewrite ?decide_True by done; done.
      * intros (c & Hcs & Hc)%list_elem_of_fmap.
        by destruct (Hno c Hc).
Qed.

Lemma HandleShopeeCallback_invariants s w code shopID db :
  keyed db → one_per_shop db → fresh w ≠ uuid_Nil →
  keyed (HandleShopeeCallback s w code shopID db).2
  ∧ one_per_shop (HandleShopeeCallback s w code shopID db).2.
Proof.
  intros Hk Hone Hfresh. unfold HandleShopeeCallback.
  destruct (shopeeAuth s) as [client|]; [|done].
  destruct (shopee_auth.ExchangeCode _ _ _ _) as [tokenResp|]; [|done].
  destruct (ConnectionRepository.GetByPlatformAndShopID _ _ db)
    as [e|] eqn:Hget.
  - apply GetByPlatformAndShopID_Some in Hget as [He Hshop].
    erewrite Update_in_place; [|done|exact He|done]. simpl.
    by apply replaced_invariants.
  - match goal with
    | |- context [ConnectionRepository.Create ?f ?n ?c db] =>
        destruct (ConnectionRepository.Create f n c db) as [db'|] eqn:Hc
    end; [|done].
    apply Create_Some in Hc as (-> & ? & ?). simpl.
    by apply appended_invariants.
Qed.

Lemma HandleTikTokCallback_upserts s w code db tok :
  keyed db → one_per_shop db →
  tiktokAuth s = Some () → tiktok_token w = Some tok →
  upserted "tiktok" (providers.TokenResponse.ShopID tok)
    (encrypt s (providers.TokenResponse.AccessToken tok))
    (encrypt s (providers.TokenResponse.RefreshToken tok))
    (providers.TokenResponse.ExpiresAt tok) w
    (HandleTikTokCallback s w code db).1 db
    (HandleTikTokCallback s w code db).2.
Proof.
  intros Hk Hone Hauth Htok. unfold HandleTikTokCallback.
  rewrite Hauth, Htok.
  destruct (ConnectionRepository.GetByPlatformAndShopID "tiktok"
              (providers.TokenResponse.ShopID tok) db) as [e|] eqn:Hget.
  - apply GetByPlatformAndShopID_Some in Hget as [He Hshop].
    erewrite Update_in_place; [|done|exact He|done]. simpl.
    split.
    + intros c Hc Hcs.
      assert (c = e) as ->.
      { eapply (NoDup_fmap_inj shop); [exact Hone|done|done|congruence]. }
      eexists. split; [done|]. by repeat split.
    + intros Hno. by destruct (Hno e He).
  - split.
    + intros c Hc Hcs.
      by destruct (GetByPlatformAndShopID_None _ _ _ c Hget Hc).
    + intros Hno Hfresh. erewrite Create_new; [|done| |done].
      * simpl. eexists. split; [done|]. split; [done|].
        repeat split; simpl; rewrite ?decide_True by done; done.
      * intros (c & Hcs & Hc)%list_elem_of_fmap.
        by destruct (Hno c Hc).
Qed.

Lemma HandleTikTokCallback_invariants s w code db :
  keyed db → one_per_shop db → fresh w ≠ uuid_Nil →
  keyed (HandleTikTokCallback s w code db).2
  ∧ one_per_shop (HandleTikTokCallback s w code db).2.
Proof.
  intros Hk Hone Hfresh. unfold HandleTikTokCallback.
  destruct (tiktokAuth s) as [[]|]; [|done].
  destruct (tiktok_token w) as [tokenResp|]; [|done].
  destruct (ConnectionRepository.GetByPlatformAndShopID _ _ db)
    as [e|] eqn:Hget.
  - apply GetByPlatformAndShopID_Some in Hget as [He Hshop].
    erewrite Update_in_place; [|done|exact He|done]. simpl.
    by apply replaced_invariants.
  - match goal with
    | |- context [ConnectionRepository.Create ?f ?n ?c db] =>
        destruct (ConnectionRepository.Create f n c db) as [db'|] eqn:Hc
    end; [|done].
    apply Create_Some in Hc as (-> & ? & ?). simpl.
    by apply appended_invariants.
Qed.

(** C7. One connection per marketplace shop.  On a table with a
    primary key that holds at most one connection for each platform and
    shop, a Shopee or TikTok callback whose code is exchanged for tokens
    either finds the connection of the shop, overwrites its tokens and
    expiry and sets [IsActive] in that row, and returns it, or, where
    the shop has none, adds exactly one row and returns that; and
    whatever the callback meets, the table still holds at most one
    connection for each platform and shop afterwards. *)
Theorem one_connection_per_shop s w db :
  keyed db → one_per_shop db → fresh w ≠ uuid_Nil →
  (∀ code shopID client tok,
     shopeeAuth s = Some client → shopee_token w = Some tok →
     upserted "shopee" (fmt.decimal shopID)
       (encrypt s (shopee_auth.TokenResponse.AccessToken tok))
       (encrypt s (shopee_auth.TokenResponse.RefreshToken tok))
       (now w + Go.mul (shopee_auth.TokenResponse.ExpireIn tok) Second) w
       (HandleShopeeCallback s w code shopID db).1 db
       (HandleShopeeCallback s w code shopID db).2)
  ∧ (∀ code tok,
       tiktokAuth s = Some () → tiktok_token w = Some tok →
       upserted "tiktok" (providers.TokenResponse.ShopID tok)
         (encrypt s (providers.TokenResponse.AccessToken tok))
         (encrypt s (providers.TokenResponse.RefreshToken tok))
         (providers.TokenResponse.ExpiresAt tok) w
         (HandleTikTokCallback s w code db).1 db
         (HandleTikTokCallback s w code db).2)
  ∧ (∀ code shopID,
       one_per_shop (HandleShopeeCallback s w code shopID db).2
       ∧ keyed (HandleShopeeCallback s w code shopID db).2)
  ∧ (∀ code,
       one_per_shop (HandleTikTokCallback s w code db).2
       ∧ keyed (HandleTikTokCallback s w code db).2).
Proof.
  intros Hk Hone Hfresh. repeat split.
  - by eapply HandleShopeeCallback_upserts.
  - by eapply HandleShopeeCallback_upserts.
  - by eapply HandleTikTokCallback_upserts.
  - by eapply HandleTikTokCallback_upserts.
  - by apply HandleShopeeCallback_invariants.
  - by apply HandleShopeeCallback_invariants.
  - by apply HandleShopeeCallback_invariants.
  - by apply HandleTikTokCallback_invariants.
  - by apply HandleTikTokCallback_invariants.
  - by apply HandleTikTokCallback_invariants.
Qed.

End Connections.

(** ** Paginated listings *)

Lemma wrap_in_int (z : Z) : Go.in_int z → Go.wrap z = z.
Proof.
  unfold Go.in_int, Go.wrap. intros Hz.
  rewrite Z.mod_small by lia. lia.
Qed.

Section Paging.
Context {A : Type}.

(** A page of a listing in descending order of a key: the rows after
    the offset, up to the limit. *)
Lemma Find_page (q : Query A) (offset limit : Z) (key : A → Z) rows :
  0 ≤ offset → 0 < limit →
  Find (q |> Offset offset |> Limit limit |> Order (desc key)) rows
  = take (Z.to_nat limit)
      (drop (Z.to_nat offset)
         (merge_sort (λ x y, desc key x y) (matching q rows))).
Proof.
  intros Ho Hl. unfold Find, limited, skipped, ordered. simpl.
  rewrite bool_decide_eq_true_2 by lia.
  change (matching (Order (desc key) (Limit limit (Offset offset q))) rows)
    with (matching q rows).
  case_bool_decide; [done|].
  by replace offset with 0 by lia.
Qed.

Lemma page_offset (page size : Z) :
  0 < page → 0 < size → Go.in_int page → Go.in_int ((page - 1) * size) →
  Go.mul (Go.sub page 1) size = (page - 1) * size
  ∧ 0 ≤ (page - 1) * size.
Proof.
  intros Hp Hs Hip Hio. unfold Go.mul, Go.sub.
  rewrite (wrap_in_int (page - 1)) by (unfold Go.in_int in *; lia).
  rewrite wrap_in_int by done. split; [done|nia].
Qed.

End Paging.

Section JobListing.
Import SyncJob.

Lemma job_page_positive flt :
  0 < SyncJobFilter.page_of flt ∧ 0 < SyncJobFilter.size_of flt.
Proof.
  unfold SyncJobFilter.page_of, SyncJobFilter.size_of.
  destruct flt; repeat case_decide; lia.
Qed.

(** Within the range of [int] a listing of sync jobs is what C10 says:
    the total counts every row the filter admits; the page skips
    [(page - 1) * size] of them, newest first, and holds at most [size]
    rows, with page 1 and size 20 where the filter gives none. *)
Lemma GetByConnectionID_in_range connectionID flt db :
  let page := SyncJobFilter.page_of flt in
  let size := SyncJobFilter.size_of flt in
  Go.in_int page → Go.in_int ((page - 1) * size) →
  ∃ rows,
    rows ≡ₚ filter (SyncJobFilter.admits connectionID flt) db
    ∧ StronglySorted (λ x y, CreatedAt y ≤ CreatedAt x) rows
    ∧ repository.GetByConnectionID connectionID flt db
      = (take (Z.to_nat size) (drop (Z.to_nat ((page - 1) * size)) rows),
         Z.of_nat (length rows)).
Proof.
  intros page size Hpage Hoff.
  destruct (job_page_positive flt) as [Hp Hs].
  destruct (page_offset page size Hp Hs Hpage Hoff) as [Hmul Hpos].
  unfold repository.GetByConnectionID. cbv zeta.
  change (match flt with
          | Some f => if decide (SyncJobFilter.Page f > 0)
                      then SyncJobFilter.Page f else 1
          | None => 1
          end) with page.
  change (match flt with
          | Some f => if decide (SyncJobFilter.PageSize f > 0)
                      then SyncJobFilter.PageSize f else 20
          | None => 20
          end) with size.
  set (q := match flt with Some f => _ | None => _ end).
  assert (Hq : matching q db
               = filter (SyncJobFilter.admits connectionID flt) db).
  { unfold matching, SyncJobFilter.admits. apply list_filter_iff.
    intros j. subst q. destruct flt as [f|]; repeat case_decide; simpl;
      rewrite ?andb_True, ?bool_decide_spec; intuition congruence. }
  exists (merge_sort (λ x y, desc CreatedAt x y)
            (filter (SyncJobFilter.admits connectionID flt) db)).
  split; [apply merge_sort_Permutation|].
  split; [apply merge_sort_desc|].
  rewrite Hmul, Find_page by done. unfold Count. rewrite Hq.
  f_equal. f_equal. apply Permutation_length.
  symmetry. apply merge_sort_Permutation.
Qed.

End JobListing.

Section MappingListing.
Import ProductMapping.

Lemma mapping_page_positive flt :
  0 < ProductMappingFilter.page_of flt
  ∧ 0 < ProductMappingFilter.size_of flt.
Proof.
  unfold ProductMappingFilter.page_of, ProductMappingFilter.size_of.
  destruct flt; repeat case_decide; lia.
Qed.

(** The same for the listing of product mappings. *)
Lemma mappings_in_range connectionID flt db :
  let page := ProductMappingFilter.page_of flt in
  let size := ProductMappingFilter.size_of flt in
  Go.in_int page → Go.in_int ((page - 1) * size) →
  ∃ rows,
    rows ≡ₚ filter (ProductMappingFilter.admits connectionID flt) db
    ∧ StronglySorted (λ x y, CreatedAt y ≤ CreatedAt x) rows
    ∧ ProductMappingRepository.GetByConnectionID connectionID flt db
      = (take (Z.to_nat size) (drop (Z.to_nat ((page - 1) * size)) rows),
         Z.of_nat (length rows)).
Proof.
  intros page size Hpage Hoff.
  destruct (mapping_page_positive flt) as [Hp Hs].
  destruct (page_offset page size Hp Hs Hpage Hoff) as [Hmul Hpos].
  unfold ProductMappingRepository.GetByConnectionID. cbv zeta.
  change (match flt with
          | Some f => if decide (ProductMappingFilter.Page f > 0)
                      then ProductMappingFilter.Page f else 1
          | None => 1
          end) with page.
  change (match flt with
          | Some f => if decide (ProductMappingFilter.PageSize f > 0)
                      then ProductMappingFilter.PageSize f else 20
          | None => 20
          end) with size.
  set (q := match flt with Some f => _ | None => _ end).
  assert (Hq : matching q db
               = filter (ProductMappingFilter.admits connectionID flt)
                   db).
  { unfold matching, ProductMappingFilter.admits. apply list_filter_iff.
    intros m. subst q. destruct flt as [f|]; [|simpl; rewrite ?andb_True, ?bool_decide_spec; intuition congruence].
    destruct (ProductMappingFilter.InternalProductID f);
      repeat case_decide; simpl;
      rewrite ?andb_True, ?bool_decide_spec; intuition congruence. }
  exists (merge_sort (λ x y, desc CreatedAt x y)
            (filter (ProductMappingFilter.admits connectionID flt) db)).
  split; [apply merge_sort_Permutation|].
  split; [apply merge_sort_desc|].
  rewrite Hmul, Find_page by done. unfold Count. rewrite Hq.
  f_equal. f_equal. apply Permutation_length.
  symmetry. apply merge_sort_Permutation.
Qed.

End MappingListing.

(** C10 at a page whose offset overflows.  For page 4611686018427387905
    and page size 4 the product [(page - 1) * pageSize] is 2 ^ 64; in
    64 bits it is 0, so nothing is skipped: of the five jobs of the
    connection the listing returns the newest four, and of the two
    mappings both, where skipping 2 ^ 64 rows leaves none. *)
Theorem GetByConnectionID_offset_wraps :
  (SyncJobFilter.page_of (Some examples.far_page) - 1)
    * SyncJobFilter.size_of (Some examples.far_page) = 2 ^ 64
  ∧ Go.mul (Go.sub (SyncJobFilter.page_of (Some examples.far_page)) 1)
      (SyncJobFilter.size_of (Some examples.far_page)) = 0
  ∧ repository.GetByConnectionID 7%N (Some examples.far_page) examples.jobs
    = ([examples.job 5%N "pending" 0 200 5;
        examples.job 4%N "pending" 2 20 4;
        examples.job 3%N "failed" 1 5 3;
        examples.job 2%N "pending" 3 10 2], 5)
  ∧ persistence.GetByConnectionID 7%N (Some examples.far_page) examples.jobs
    = repository.GetByConnectionID 7%N (Some examples.far_page) examples.jobs
  ∧ ProductMappingRepository.GetByConnectionID 7%N
      (Some examples.far_mappings) examples.mappings
    = ([examples.mapping 2%N 2; examples.mapping 1%N 1], 2).
Proof. repeat split; by vm_compute. Qed.

(** ** The sync-job repository: selection, lookup, clean-up *)

Lemma filter_none {A} (P : A → Prop) `{∀ x, Decision (P x)} (l : list A) :
  (∀ x, x ∈ l → ¬ P x) → filter P l = [].
Proof.
  induction l as [|x l IH]; intros Hl; [done|].
  rewrite filter_cons, decide_False by (apply Hl; left).
  apply IH. intros y Hy. apply Hl. by right.
Qed.

Section LookupFacts.
Context {A : Type} `{Table A}.
Implicit Types (q : Query A) (rows : list A).

Lemma First_is_Some q rows c :
  c ∈ rows → q_where q c = true → is_Some (First q rows).
Proof.
  intros Hc Hw. destruct (First q rows) eqn:E; [done|].
  by rewrite (First_None q rows c E Hc) in Hw.
Qed.

(** Under the primary key, a lookup whose conditions fix the key
    returns the row that has it. *)
Lemma First_keyed q rows c :
  NoDup (pk <$> rows) → c ∈ rows → q_where q c = true →
  (∀ r, r ∈ rows → q_where q r = true → pk r = pk c) →
  First q rows = Some c.
Proof.
  intros Hnd Hc Hw Hq.
  destruct (First_is_Some q rows c Hc Hw) as [x Hx].
  rewrite Hx. f_equal.
  apply First_Some in Hx as [Hwx Hxin].
  apply (NoDup_fmap_inj pk rows); auto.
Qed.

Lemma First_matching q q' rows rows' :
  matching q rows = matching q' rows' → First q rows = First q' rows'.
Proof. unfold First. by intros ->. Qed.

Lemma First_nil q rows :
  (∀ r, r ∈ rows → q_where q r = false) → First q rows = None.
Proof.
  intros Hq. destruct (First q rows) as [c|] eqn:E; [|done].
  apply First_Some in E as [Hw Hc]. by rewrite (Hq c Hc) in Hw.
Qed.

End LookupFacts.

Section JobsMore.
Import SyncJob.
Implicit Types (db : list SyncJob.t) (j : SyncJob.t).

Lemma GetByID_keyed db j :
  queue.keyed db → j ∈ db → repository.GetByID (ID j) db = Some j.
Proof.
  intros Hk Hj. apply First_keyed; [exact Hk|exact Hj| |].
  - simpl. by rewrite bool_decide_eq_true_2.
  - intros r _ Hr. simpl in Hr. by apply bool_decide_eq_true in Hr.
Qed.

Lemma GetByID_absent id db :
  id ∉ ID <$> db → repository.GetByID id db = None.
Proof.
  intros Hid. apply First_nil. intros r Hr. simpl.
  apply bool_decide_eq_false. intros <-. apply Hid.
  by apply list_elem_of_fmap_2.
Qed.

Lemma GetByID_found id db j :
  repository.GetByID id db = Some j → j ∈ db ∧ ID j = id.
Proof.
  intros [Hw Hj]%First_Some. split; [done|]. simpl in Hw.
  by apply bool_decide_eq_true in Hw.
Qed.

Lemma GetFailedJobs_eq (connectionID : uuid) db :
  repository.GetFailedJobs connectionID db
  = merge_sort (λ x y, desc CreatedAt x y)
      (filter (λ j, ConnectionID j = connectionID
                    ∧ Status j = JobStatusFailed
                    ∧ Attempts j < MaxAttempts j) db).
Proof.
  unfold repository.GetFailedJobs, Find, limited, skipped, ordered,
    matching. simpl. f_equal. apply list_filter_iff. intros j.
  by rewrite bool_decide_spec.
Qed.

(** [GetFailedJobs] returns exactly the jobs of the connection that
    are failed and have attempts left, each as often as the table holds
    it, newest first by [created_at]; both repositories return the
    same. *)
Theorem GetFailedJobs_retryable_newest_first (connectionID : uuid) db :
  let result := repository.GetFailedJobs connectionID db in
  result ≡ₚ filter (λ j, ConnectionID j = connectionID
                         ∧ Status j = JobStatusFailed
                         ∧ Attempts j < MaxAttempts j) db
  ∧ StronglySorted (λ x y, CreatedAt y ≤ CreatedAt x) result
  ∧ persistence.GetFailedJobs connectionID db = result.
Proof.
  cbv zeta. split; [|split; [|reflexivity]]; rewrite GetFailedJobs_eq.
  - apply merge_sort_Permutation.
  - apply merge_sort_desc.
Qed.

(** [MarkProcessing] succeeds and, on the rows with the given id,
    sets the status to 'processing' and [started_at] to now and adds one
    to the attempts; the error message of an earlier failure,
    [scheduled_at], [completed_at] and every other field stay, and so
    does every other row, each in its place. *)
Theorem MarkProcessing_frame (now : time) (id : uuid) db :
  ∃ db',
    repository.MarkProcessing now id db = Some db'
    ∧ Forall2 (λ j j',
                 if decide (ID j = id)
                 then Status j' = JobStatusProcessing
                      ∧ StartedAt j' = Some now
                      ∧ Attempts j' = Attempts j + 1
                      ∧ ID j' = ID j
                      ∧ ConnectionID j' = ConnectionID j
                      ∧ JobType j' = JobType j
                      ∧ Payload j' = Payload j
                      ∧ MaxAttempts j' = MaxAttempts j
                      ∧ ErrorMessage j' = ErrorMessage j
                      ∧ ScheduledAt j' = ScheduledAt j
                      ∧ CompletedAt j' = CompletedAt j
                      ∧ CreatedAt j' = CreatedAt j
                 else j' = j)
              db db'.
Proof.
  eexists. split; [apply MarkProcessing_eq|].
  apply Forall2_fmap_diag. intros j. unfold at_id.
  case_decide; [|done]. by repeat split.
Qed.

(** [MarkCompleted] succeeds whatever the status of the job was
    and, on the rows with the given id, sets the status to 'completed'
    and [completed_at] to now; the attempts, the error message and every
    other field stay, and so does every other row. *)
Theorem MarkCompleted_frame (now : time) (id : uuid) db :
  ∃ db',
    repository.MarkCompleted now id db = Some db'
    ∧ Forall2 (λ j j',
                 if decide (ID j = id)
                 then Status j' = JobStatusCompleted
                      ∧ CompletedAt j' = Some now
                      ∧ ID j' = ID j
                      ∧ ConnectionID j' = ConnectionID j
                      ∧ JobType j' = JobType j
                      ∧ Payload j' = Payload j
                      ∧ Attempts j' = Attempts j
                      ∧ MaxAttempts j' = MaxAttempts j
                      ∧ ErrorMessage j' = ErrorMessage j
                      ∧ ScheduledAt j' = ScheduledAt j
                      ∧ StartedAt j' = StartedAt j
                      ∧ CreatedAt j' = CreatedAt j
                 else j' = j)
              db db'.
Proof.
  eexists. split; [apply MarkCompleted_eq|].
  apply Forall2_fmap_diag. intros j. unfold at_id.
  case_decide; [|done]. by repeat split.
Qed.

Lemma marked_rows id (f : SyncJob.t → SyncJob.t) db j' :
  (∀ j, ID (f j) = ID j) →
  j' ∈ at_id id f <$> db → ID j' = id → ∃ j, j ∈ db ∧ j' = f j.
Proof.
  intros Hf (j & -> & Hj)%list_elem_of_fmap Hid.
  exists j. split; [done|]. unfold at_id in *.
  case_decide as E; [done|]. by destruct E.
Qed.

(** A job that was marked processing, completed or failed is not
    handed out by [GetPendingJobs] any more, at any time and under any
    limit. *)
Theorem marked_job_not_pending (id : uuid) db db' :
  (∃ now, repository.MarkProcessing now id db = Some db')
  ∨ (∃ now, repository.MarkCompleted now id db = Some db')
  ∨ (∃ errorMessage, repository.MarkFailed id errorMessage db = Some db') →
  ∀ now limit j, j ∈ repository.GetPendingJobs now limit db' → ID j ≠ id.
Proof.
  intros Hmark now limit j Hj Hid.
  apply elem_of_Find in Hj as [Hw Hj]. simpl in Hw.
  apply bool_decide_eq_true in Hw as (Hst & _).
  destruct Hmark as [[t Hm]|[[t Hm]|[msg Hm]]].
  - rewrite MarkProcessing_eq in Hm. injection Hm as <-.
    apply marked_rows in Hj as (j0 & _ & ->); [|done|done].
    discriminate Hst.
  - rewrite MarkCompleted_eq in Hm. injection Hm as <-.
    apply marked_rows in Hj as (j0 & _ & ->); [|done|done].
    discriminate Hst.
  - rewrite MarkFailed_eq in Hm. injection Hm as <-.
    apply marked_rows in Hj as (j0 & _ & ->); [|done|done].
    discriminate Hst.
Qed.

(** There is no delay before a retry: once [MarkFailed] has run,
    the job is in [GetFailedJobs] of its connection, with the new error
    message, exactly when it has attempts left. *)
Theorem failed_job_retried_at_once (id : uuid) (errorMessage : string)
    db db' j :
  repository.MarkFailed id errorMessage db = Some db' →
  j ∈ db → ID j = id →
  (failed errorMessage j ∈ repository.GetFailedJobs (ConnectionID j) db'
   ↔ Attempts j < MaxAttempts j).
Proof.
  rewrite MarkFailed_eq. intros [= <-] Hj Hid.
  rewrite GetFailedJobs_eq, merge_sort_Permutation, list_elem_of_filter.
  simpl. split.
  - by intros [(_ & _ & ?) _].
  - intros Hlt. split; [done|].
    apply list_elem_of_fmap. exists j. split; [|done].
    unfold at_id. by rewrite decide_True.
Qed.

End JobsMore.

Section JobsStore.
Import SyncJob.
Implicit Types (db : list SyncJob.t) (j : SyncJob.t).

Lemma GetByID_app id db rows :
  (∀ r, r ∈ rows → ID r ≠ id) →
  repository.GetByID id (db ++ rows) = repository.GetByID id db.
Proof.
  intros Hrows. apply First_matching. unfold matching.
  rewrite filter_app.
  assert (Hnil : filter (λ r, q_where (Model |> Where (λ j, bool_decide (ID j = id))) r) rows = []).
  { apply filter_none. intros r Hr. simpl.
    rewrite bool_decide_eq_false_2; [by intros ?|]. by apply Hrows. }
  rewrite Hnil. apply app_nil_r.
Qed.

(** [Create] is rejected only when the id is taken; a created job is
    stored with the defaults filled in, is found again by its id, and
    every other lookup by id gives what it gave before. *)
Theorem Create_then_GetByID (fresh : uuid) (now : time) (job : SyncJob.t)
    db db' :
  queue.keyed db →
  repository.Create fresh now job db = Some db' →
  let row := with_defaults fresh now job in
  (ID row ∉ ID <$> db)
  ∧ db' = db ++ [row]
  ∧ queue.keyed db'
  ∧ repository.GetByID (ID row) db' = Some row
  ∧ (∀ id, id ≠ ID row →
       repository.GetByID id db' = repository.GetByID id db).
Proof.
  intros Hk. unfold repository.Create, Insert.
  case_bool_decide as Hin; [done|]. intros [= <-]. cbv zeta.
  change (pk (with_defaults fresh now job))
    with (ID (with_defaults fresh now job)) in Hin.
  change (@pk SyncJob.t _) with ID in Hin.
  assert (Hk' : queue.keyed (db ++ [with_defaults fresh now job])).
  { unfold queue.keyed. rewrite fmap_app. apply NoDup_app.
    split; [exact Hk|]. split; [|apply NoDup_singleton].
    intros x Hx ->%list_elem_of_singleton. by apply Hin. }
  split; [exact Hin|]. split; [done|]. split; [exact Hk'|]. split.
  - apply GetByID_keyed; [exact Hk'|].
    apply elem_of_app. right. by apply list_elem_of_singleton.
  - intros id Hid. apply GetByID_app.
    intros r ->%list_elem_of_singleton. congruence.
Qed.

(** [Delete] succeeds whether or not there is such a job; after it no
    job has the id, and every other lookup by id gives what it gave
    before. *)
Theorem Delete_then_GetByID (id : uuid) db :
  ∃ db',
    repository.Delete id db = Some db'
    ∧ db' `sublist_of` db
    ∧ (id ∉ ID <$> db')
    ∧ ∀ id', repository.GetByID id' db'
             = if decide (id' = id) then None
               else repository.GetByID id' db.
Proof.
  eexists. split; [reflexivity|]. split; [apply sublist_filter|].
  assert (Hgone : id ∉ ID <$> Gorm_Delete (Model |> Where (λ j, bool_decide (ID j = id))) db).
  { intros (j & -> & Hj)%list_elem_of_fmap.
    apply list_elem_of_filter in Hj as [Hj _]. simpl in Hj.
    by rewrite bool_decide_eq_true_2 in Hj. }
  split; [exact Hgone|].
  intros id'. case_decide as E.
  - subst id'. by apply GetByID_absent.
  - apply First_matching. unfold matching, Gorm_Delete.
    rewrite list_filter_filter. apply list_filter_iff. intros j. simpl.
    rewrite !bool_decide_spec. split; [by intros [? _]|].
    intros Hj. split; [done|]. rewrite bool_decide_eq_false_2; [done|].
    congruence.
Qed.

(** [DeleteOldCompleted] removes the jobs that are completed and were
    completed more than the given number of hours before now, and no
    other: a job that is pending, processing or failed stays whatever
    its age, and so does a completed job without a completion time.  The
    jobs that stay keep their order.  (The hours are taken within the
    range of a [time.Duration].) *)
Theorem DeleteOldCompleted_removes_expired (now : time)
    (olderThanHours : Z) db :
  0 ≤ olderThanHours ≤ retention.max_hours →
  repository.DeleteOldCompleted now olderThanHours db
  = Some (filter (λ j, ¬ retention.expired (now - olderThanHours * Hour) j)
            db).
Proof.
  intros Hh. unfold retention.max_hours in Hh.
  unfold repository.DeleteOldCompleted, Gorm_Delete. cbv zeta. f_equal.
  assert (Hcut : now + Go.mul (Go.neg olderThanHours) Hour
                 = now - olderThanHours * Hour).
  { unfold Go.mul, Go.neg.
    rewrite (wrap_in_int (- olderThanHours)).
    - rewrite wrap_in_int; [lia|]. unfold Go.in_int, Hour, Second. lia.
    - unfold Go.in_int. lia. }
  rewrite Hcut. apply list_filter_iff. intros j. simpl.
  unfold retention.expired.
  destruct (CompletedAt j) as [c|].
  - rewrite negb_True, andb_True, !bool_decide_spec. split.
    + intros Hn [? (c' & [= <-] & ?)]. tauto.
    + intros Hn [? ?]. apply Hn. eauto.
  - rewrite andb_false_r. split; [|done].
    intros _ [_ (c & [=] & _)].
Qed.

(** [Update] of a job whose id is in the table overwrites that row with
    the struct as it is given, every field of it, and leaves the other
    rows; the job is then found by its id as it was given. *)
Theorem Update_overwrites (fresh : uuid) (now : time) (job : SyncJob.t) db :
  queue.keyed db → ID job ≠ uuid_Nil → ID job ∈ ID <$> db →
  ∃ db',
    repository.Update fresh now job db = Some db'
    ∧ Forall2 (λ j j', j' = if decide (ID j = ID job) then job else j)
        db db'
    ∧ queue.keyed db'
    ∧ repository.GetByID (ID job) db' = Some job.
Proof.
  intros Hk Hnil Hin. unfold repository.Update, Save.
  change (pk job) with (ID job). change (@pk SyncJob.t _) with ID.
  rewrite decide_False by done. rewrite bool_decide_eq_true_2 by done.
  eexists. split; [reflexivity|].
  assert (Hids : ID <$> ((λ r, if decide (ID r = ID job) then id job else r)
                           <$> db) = ID <$> db).
  { rewrite <- list_fmap_compose. apply list_fmap_ext. intros _ r _.
    simpl. by case_decide. }
  assert (Hk' : queue.keyed ((λ r, if decide (ID r = ID job) then id job
                                   else r) <$> db)).
  { unfold queue.keyed. by rewrite Hids. }
  split; [|split; [exact Hk'|]].
  - apply Forall2_fmap_diag. intros j. by case_decide.
  - apply GetByID_keyed; [exact Hk'|].
    apply list_elem_of_fmap in Hin as (r & Hr & Hrdb).
    apply list_elem_of_fmap. exists r. split; [|done].
    by rewrite decide_True.
Qed.

Lemma continues_refl j : retention.continues j j.
Proof. unfold retention.continues. repeat split; lia. Qed.

Lemma continues_trans j1 j2 j3 :
  retention.continues j1 j2 → retention.continues j2 j3 →
  retention.continues j1 j3.
Proof.
  unfold retention.continues. intros (?&?&?&?&?&?&?&?) (?&?&?&?&?&?&?&?).
  repeat split; try congruence. lia.
Qed.

Lemma at_id_continues id f db :
  (∀ j, retention.continues j (f j)) →
  Forall2 retention.continues db (at_id id f <$> db).
Proof.
  intros Hf. apply Forall2_fmap_diag. intros j. unfold at_id.
  case_decide; [apply Hf|apply continues_refl].
Qed.

Lemma Forall2_continues_trans db1 db2 db3 :
  Forall2 retention.continues db1 db2 →
  Forall2 retention.continues db2 db3 →
  Forall2 retention.continues db1 db3.
Proof. apply Forall2_trans. apply continues_trans. Qed.

Lemma mark_each_continues now sel db db' :
  queue.mark_each now sel db = Some db' →
  Forall2 retention.continues db db'.
Proof.
  revert db. induction sel as [|s sel IH]; intros db.
  - intros [= <-]. induction db; constructor; [apply continues_refl|done].
  - rewrite mark_each_cons. intros Hm.
    eapply Forall2_continues_trans; [|by apply IH].
    apply at_id_continues. intros j. unfold retention.continues.
    simpl. repeat split; lia.
Qed.

Lemma step_continues db db' :
  queue.step db db' → Forall2 retention.continues db db'.
Proof.
  destruct 1 as [now limit db' Hm|now c db' Hm|now id db' Hm|id msg db' Hm].
  - by eapply mark_each_continues.
  - by eapply mark_each_continues.
  - rewrite MarkCompleted_eq in Hm. injection Hm as <-.
    apply at_id_continues. intros j. unfold retention.continues.
    simpl. repeat split; lia.
  - rewrite MarkFailed_eq in Hm. injection Hm as <-.
    apply at_id_continues. intros j. unfold retention.continues.
    simpl. repeat split; lia.
Qed.

(** Poll cycles neither add nor remove a job, and they leave of every
    job its id, its connection, its type and payload, its schedule, its
    attempt limit and its creation time; the attempts never go down. *)
Theorem poll_cycles_keep_jobs db db' :
  queue.reachable db db' → Forall2 retention.continues db db'.
Proof.
  induction 1 as [db|db db1 db' Hstep _ IH].
  - induction db; constructor; [apply continues_refl|done].
  - eapply Forall2_continues_trans; [|exact IH]. by apply step_continues.
Qed.

End JobsStore.

(** ** The digest has 32 bytes, the signature 64 characters *)

Section Digest.

Lemma round_length st kw :
  length st = 8%nat → length (sha256.round st kw) = 8%nat.
Proof.
  intros Hst. do 9 (destruct st as [|? st]; try discriminate Hst).
  reflexivity.
Qed.

Lemma rounds_length kws st :
  length st = 8%nat → length (foldl sha256.round st kws) = 8%nat.
Proof.
  revert st. induction kws as [|kw kws IH]; intros st Hst; [done|].
  simpl. apply IH. by apply round_length.
Qed.

Lemma compress_length h block :
  length h = 8%nat → length (sha256.compress h block) = 8%nat.
Proof.
  intros Hh. unfold sha256.compress.
  rewrite length_zip_with, rounds_length by done. lia.
Qed.

Lemma be_bytes_length width n :
  length (sha256.be_bytes width n) = width.
Proof.
  unfold sha256.be_bytes.
  by rewrite length_fmap, length_reverse, length_seq.
Qed.

Lemma bind_be_bytes_length (l : list Z) :
  length (l ≫= sha256.be_bytes 4) = (4 * length l)%nat.
Proof.
  induction l as [|x l IH]; [done|].
  rewrite bind_cons, length_app, be_bytes_length, IH. simpl. lia.
Qed.

Lemma sum_bytes_length msg : length (sha256.sum_bytes msg) = 32%nat.
Proof.
  unfold sha256.sum_bytes. rewrite bind_be_bytes_length.
  assert (Hst : ∀ bs h, length h = 8%nat →
            length (foldl sha256.compress h bs) = 8%nat).
  { induction bs as [|b bs IH]; intros h Hh; [done|].
    simpl. apply IH. by apply compress_length. }
  by rewrite Hst.
Qed.

Lemma string_of_list_ascii_length (l : list ascii) :
  String.length (string_of_list_ascii l) = length l.
Proof. induction l as [|c l IH]; simpl; congruence. Qed.

Lemma list_ascii_of_string_length (s : string) :
  length (list_ascii_of_string s) = String.length s.
Proof. induction s as [|c s IH]; simpl; congruence. Qed.

Lemma string_of_bytes_length (l : list Z) :
  String.length (string_of_bytes l) = length l.
Proof.
  unfold string_of_bytes.
  by rewrite string_of_list_ascii_length, length_fmap.
Qed.

Lemma mac_length key msg : String.length (hmac.mac key msg) = 32%nat.
Proof.
  unfold hmac.mac. cbv zeta.
  by rewrite string_of_bytes_length, sum_bytes_length.
Qed.

Lemma EncodeToString_length src :
  String.length (hex.EncodeToString src) = (2 * String.length src)%nat.
Proof.
  unfold hex.EncodeToString, bytes_of_string.
  rewrite string_of_list_ascii_length, <- list_ascii_of_string_length.
  induction (list_ascii_of_string src) as [|c l IH]; [done|].
  rewrite fmap_cons, bind_cons, length_app, IH. simpl. lia.
Qed.

Lemma expected_signature_length secret body :
  String.length (handlers.expected_signature secret body) = 64%nat.
Proof.
  unfold handlers.expected_signature.
  by rewrite EncodeToString_length, mac_length.
Qed.

Lemma expected_signature_nonempty secret body :
  handlers.expected_signature secret body ≠ "".
Proof.
  intros Heq.
  pose proof (expected_signature_length secret body) as Hlen.
  rewrite Heq in Hlen. discriminate Hlen.
Qed.

(** Every signature the service computes or expects has 64
    characters, the hexadecimal form of a 32-byte digest, whatever the
    key and the text are: the two Shopee request signatures and the
    signature expected of a webhook.  None is empty. *)
Theorem signatures_have_64_characters :
  (∀ (c : shopee.Client) (path : string) (timestamp : Z),
     String.length (shopee.generateSign c path timestamp) = 64%nat)
  ∧ (∀ (c : shopee.Client) (path : string) (timestamp : Z)
       (accessToken : string) (shopID : Z),
       String.length
         (shopee.generateSignWithTokens c path timestamp accessToken
            shopID) = 64%nat)
  ∧ (∀ secret body : string,
       String.length (handlers.expected_signature secret body) = 64%nat
       ∧ handlers.expected_signature secret body ≠ "").
Proof.
  split; [|split].
  - intros c path timestamp. unfold shopee.generateSign. cbv zeta.
    unfold hmac.Sum, hmac.Write, hmac.New. cbn [hmac.key hmac.written].
    change (String.append "" ?x) with x.
    by rewrite EncodeToString_length, mac_length.
  - intros c path timestamp accessToken shopID.
    unfold shopee.generateSignWithTokens. cbv zeta.
    unfold hmac.Sum, hmac.Write, hmac.New. cbn [hmac.key hmac.written].
    change (String.append "" ?x) with x.
    by rewrite EncodeToString_length, mac_length.
  - intros secret body. split.
    + apply expected_signature_length.
    + apply expected_signature_nonempty.
Qed.

End Digest.

(** ** More on the webhook handlers *)

Section WebhooksMore.
Import handlers.
Variable unmarshal_testPush : string → option string.
Variable unmarshal_shopeeEvent : string → option ShopeeEvent.t.
Variable unmarshal_tiktokEvent : string → option TikTokEvent.t.

Lemma verifyTikTokSignature_spec h body signature :
  verifyTikTokSignature h body signature
  = bool_decide (signature = expected_signature (tiktokSecret h) body).
Proof.
  unfold verifyTikTokSignature, hmac.Equal.
  change (hex.EncodeToString
            (hmac.Sum "" (hmac.Write body (hmac.New (tiktokSecret h)))))
    with (expected_signature (tiktokSecret h) body).
  case_decide as E.
  - symmetry. apply bool_decide_eq_false_2. rewrite E.
    intros Heq. by apply (expected_signature_nonempty (tiktokSecret h) body).
  - apply bool_decide_ext. split; congruence.
Qed.

(** The signature check of the TikTok handler is exact.  With the app
    secret configured, a request whose body is read is answered 401
    exactly when its [X-Tts-Signature] header is not the hex-encoded
    HMAC-SHA256 of the body under the secret, an absent header
    included; a request that carries the signature is handled as it is
    without a secret. *)
Theorem TikTok_signature_exact h req body :
  Body req = Some body →
  tiktokSecret h ≠ "" →
  (status (HandleTikTokWebhook unmarshal_tiktokEvent h req)
   = StatusUnauthorized
   ↔ GetHeader "X-Tts-Signature" req
     ≠ expected_signature (tiktokSecret h) body)
  ∧ (GetHeader "X-Tts-Signature" req
     = expected_signature (tiktokSecret h) body →
     HandleTikTokWebhook unmarshal_tiktokEvent h req
     = HandleTikTokWebhook unmarshal_tiktokEvent
         (mkHandler (shopeeKey h) "") req).
Proof.
  intros Hbody Hsecret. unfold HandleTikTokWebhook. rewrite Hbody.
  rewrite verifyTikTokSignature_spec.
  rewrite (bool_decide_eq_true_2 (tiktokSecret h ≠ "")) by exact Hsecret.
  simpl. split.
  - case_bool_decide as E; simpl.
    + split; [|intros Hne; by destruct Hne].
      destruct (unmarshal_tiktokEvent body); simpl;
        unfold StatusUnauthorized, StatusBadRequest, StatusOK; lia.
    + split; [by intros _|reflexivity].
  - intros Heq. rewrite bool_decide_eq_true_2 by exact Heq. reflexivity.
Qed.

(** Without an app secret the TikTok handler checks nothing: it never
    answers 401, and what it answers and starts is decided by the body
    alone, whatever the headers are. *)
Theorem TikTok_unconfigured_unchecked h req req' :
  tiktokSecret h = "" →
  Body req' = Body req →
  HandleTikTokWebhook unmarshal_tiktokEvent h req'
  = HandleTikTokWebhook unmarshal_tiktokEvent h req
  ∧ status (HandleTikTokWebhook unmarshal_tiktokEvent h req)
    ≠ StatusUnauthorized.
Proof.
  intros Hsecret Hbody. unfold HandleTikTokWebhook.
  rewrite Hbody, Hsecret. simpl.
  destruct (Body req) as [body|]; [|split; [done|simpl]].
  - split; [done|].
    destruct (unmarshal_tiktokEvent body); simpl;
      unfold StatusUnauthorized, StatusBadRequest, StatusOK; lia.
  - unfold StatusUnauthorized, StatusBadRequest. lia.
Qed.

Lemma Shopee_outcomes h req :
  let s := HandleShopeeWebhook unmarshal_testPush unmarshal_shopeeEvent
             h req in
  (status s = StatusOK ∨ status s = StatusBadRequest)
  ∧ (status s = StatusBadRequest ↔ Body req = None)
  ∧ (length (started s) ≤ 1)%nat
  ∧ (started s ≠ [] → status s = StatusOK)
  ∧ (∀ code, payload s = [("push_verification_code", code)] →
       started s = []).
Proof.
  cbv zeta. unfold HandleShopeeWebhook.
  destruct (Body req) as [body|]; simpl.
  - case_bool_decide; simpl.
    + repeat split; auto; first [discriminate|lia|congruence].
    + destruct (unmarshal_shopeeEvent body) as [event|]; simpl.
      * case_decide; simpl; repeat split; auto;
          first [discriminate|lia|congruence].
      * repeat split; auto; first [discriminate|lia|congruence].
  - repeat split; auto; first [discriminate|lia|congruence].
Qed.

Lemma TikTok_outcomes h req :
  let t := HandleTikTokWebhook unmarshal_tiktokEvent h req in
  (status t = StatusOK ∨ status t = StatusBadRequest
   ∨ status t = StatusUnauthorized)
  ∧ (length (started t) ≤ 1)%nat
  ∧ (started t ≠ [] → status t = StatusOK).
Proof.
  cbv zeta. unfold HandleTikTokWebhook.
  destruct (Body req) as [body|]; simpl;
    [|repeat split; auto; first [lia|congruence]].
  destruct (bool_decide (tiktokSecret h ≠ "")
            && negb (verifyTikTokSignature h body
                       (GetHeader "X-Tts-Signature" req))); simpl;
    [repeat split; auto; first [lia|congruence]|].
  destruct (unmarshal_tiktokEvent body) as [event|]; simpl;
    [|repeat split; auto; first [lia|congruence]].
  case_bool_decide; simpl; repeat split; auto; first [lia|congruence].
Qed.

(** What the two handlers can answer.  The TikTok handler answers 200,
    400 or 401, the Shopee handler 200 or 400, and 400 only when the
    body cannot be read.  An order event is handed on at most once for a
    request, and only with a 200; a Shopee test push hands none on. *)
Theorem webhook_outcomes h req :
  let s := HandleShopeeWebhook unmarshal_testPush unmarshal_shopeeEvent
             h req in
  let t := HandleTikTokWebhook unmarshal_tiktokEvent h req in
  (status s = StatusOK ∨ status s = StatusBadRequest)
  ∧ (status s = StatusBadRequest ↔ Body req = None)
  ∧ (status t = StatusOK ∨ status t = StatusBadRequest
     ∨ status t = StatusUnauthorized)
  ∧ (length (started s) ≤ 1)%nat
  ∧ (length (started t) ≤ 1)%nat
  ∧ (started s ≠ [] → status s = StatusOK)
  ∧ (started t ≠ [] → status t = StatusOK)
  ∧ (∀ code, payload s = [("push_verification_code", code)] →
       started s = []).
Proof.
  cbv zeta.
  destruct (Shopee_outcomes h req) as (Hs1 & Hs2 & Hs3 & Hs4 & Hs5).
  destruct (TikTok_outcomes h req) as (Ht1 & Ht2 & Ht3).
  repeat split; auto; apply Hs2.
Qed.

End WebhooksMore.

(** ** The handlers of [internal/handlers/webhook_handler.go] *)

Section WebhookHandler.
Import handlers.
Variable unmarshal_shopeeEvent : string → option ShopeeEvent.t.
Variable unmarshal_tiktokEvent : string → option TikTokEvent.t.

Lemma verifyShopeeSignature_spec h body signature :
  webhook_handler.verifyShopeeSignature h body signature
  = bool_decide (signature = expected_signature (shopeeKey h) body).
Proof.
  unfold webhook_handler.verifyShopeeSignature, hmac.Equal.
  change (hex.EncodeToString
            (hmac.Sum "" (hmac.Write body (hmac.New (shopeeKey h)))))
    with (expected_signature (shopeeKey h) body).
  case_decide as E.
  - symmetry. apply bool_decide_eq_false_2. rewrite E.
    intros Heq. by apply (expected_signature_nonempty (shopeeKey h) body).
  - apply bool_decide_ext. split; congruence.
Qed.

(** The handlers of [webhook_handler.go] both verify.  Its Shopee
    handler, with the partner key configured, answers 401 and hands no
    order event on exactly when the [Shopee-Hmac-Sha256] header is not
    the hex-encoded HMAC-SHA256 of the body under the key; its TikTok
    handler is the one above. *)
Theorem webhook_handler_verifies :
  verifies (webhook_handler.HandleShopeeWebhook unmarshal_shopeeEvent)
    shopeeKey "Shopee-Hmac-Sha256"
  ∧ (∀ h req body,
       Body req = Some body → shopeeKey h ≠ "" →
       (status (webhook_handler.HandleShopeeWebhook
                  unmarshal_shopeeEvent h req) = StatusUnauthorized
        ↔ GetHeader "Shopee-Hmac-Sha256" req
          ≠ expected_signature (shopeeKey h) body))
  ∧ (∀ h req,
       webhook_handler.HandleTikTokWebhook unmarshal_tiktokEvent h req
       = HandleTikTokWebhook unmarshal_tiktokEvent h req).
Proof.
  assert (Hrej : ∀ h req body,
            Body req = Some body → shopeeKey h ≠ "" →
            GetHeader "Shopee-Hmac-Sha256" req
              ≠ expected_signature (shopeeKey h) body →
            webhook_handler.HandleShopeeWebhook unmarshal_shopeeEvent h req
            = mkOutcome [(Warn, "Invalid Shopee webhook signature")]
                StatusUnauthorized [("error", "invalid signature")] []).
  { intros h req body Hbody Hkey Hsig.
    unfold webhook_handler.HandleShopeeWebhook. rewrite Hbody.
    rewrite verifyShopeeSignature_spec.
    rewrite (bool_decide_eq_true_2 (shopeeKey h ≠ "")) by exact Hkey.
    by rewrite (bool_decide_eq_false_2 _ Hsig). }
  split; [|split].
  - intros h req body Hbody Hkey Hsig.
    rewrite (Hrej h req body Hbody Hkey Hsig). split; [|done].
    simpl. unfold StatusUnauthorized. lia.
  - intros h req body Hbody Hkey. split.
    + intros Hst Heq. revert Hst.
      unfold webhook_handler.HandleShopeeWebhook. rewrite Hbody.
      rewrite verifyShopeeSignature_spec.
      rewrite (bool_decide_eq_true_2 _ Heq), andb_false_r.
      destruct (unmarshal_shopeeEvent body); simpl;
        unfold StatusUnauthorized, StatusBadRequest, StatusOK; lia.
    + intros Hsig. by rewrite (Hrej h req body Hbody Hkey Hsig).
  - reflexivity.
Qed.

End WebhookHandler.

(** ** Decimal numbers: [strconv.ParseInt] reads what [%d] prints *)

Section Decimal.

Lemma of_uint_acc_le d acc : (acc ≤ Pos.of_uint_acc d acc)%positive.
Proof.
  revert acc. induction d as [|d IH|d IH|d IH|d IH|d IH|d IH|d IH|d IH|d IH|d IH];
    intros acc; simpl; [lia|..];
    (etransitivity; [|apply IH]); lia.
Qed.

Lemma cutoff_value : strconv.maxUint64 / 10 + 1 = 1844674407370955162.
Proof. reflexivity. Qed.

Lemma maxUint64_value : strconv.maxUint64 = 18446744073709551615.
Proof. reflexivity. Qed.

(** One step of the loop on a digit that does not overflow. *)
Lemma digits_step (c : ascii) (k : Z) (rest : string) (n : Z) :
  strconv.digit c = Some k → 0 ≤ k ≤ 9 → 0 ≤ n →
  n * 10 + k ≤ strconv.maxUint64 →
  strconv.digits (String c rest) n = strconv.digits rest (n * 10 + k).
Proof.
  intros Hc Hk Hn Hmax. cbn [strconv.digits]. rewrite Hc. cbv zeta.
  rewrite cutoff_value. rewrite maxUint64_value in *.
  rewrite decide_False by lia.
  rewrite (Z.mod_small (n * 10 + k)) by lia.
  by rewrite decide_False by lia.
Qed.

Lemma digits_of_uint_acc d acc :
  Z.pos (Pos.of_uint_acc d acc) ≤ strconv.maxUint64 →
  strconv.digits (NilEmpty.string_of_uint d) (Z.pos acc)
  = (Z.pos (Pos.of_uint_acc d acc), None).
Proof.
  revert acc.
  induction d as [|d IH|d IH|d IH|d IH|d IH|d IH|d IH|d IH|d IH|d IH];
    intros acc Hmax; [done|..];
    cbn [NilEmpty.string_of_uint Pos.of_uint_acc] in *.
  - pose proof (of_uint_acc_le d (10 * acc)) as Hle.
    rewrite (digits_step _ 0) by first [reflexivity | lia].
    replace (Z.pos acc * 10 + 0) with (Z.pos (10 * acc)) by lia.
    by apply IH.
  - pose proof (of_uint_acc_le d (1 + 10 * acc)) as Hle.
    rewrite (digits_step _ 1) by first [reflexivity | lia].
    replace (Z.pos acc * 10 + 1) with (Z.pos (1 + 10 * acc)) by lia.
    by apply IH.
  - pose proof (of_uint_acc_le d (2 + 10 * acc)) as Hle.
    rewrite (digits_step _ 2) by first [reflexivity | lia].
    replace (Z.pos acc * 10 + 2) with (Z.pos (2 + 10 * acc)) by lia.
    by apply IH.
  - pose proof (of_uint_acc_le d (3 + 10 * acc)) as Hle.
    rewrite (digits_step _ 3) by first [reflexivity | lia].
    replace (Z.pos acc * 10 + 3) with (Z.pos (3 + 10 * acc)) by lia.
    by apply IH.
  - pose proof (of_uint_acc_le d (4 + 10 * acc)) as Hle.
    rewrite (digits_step _ 4) by first [reflexivity | lia].
    replace (Z.pos acc * 10 + 4) with (Z.pos (4 + 10 * acc)) by lia.
    by apply IH.
  - pose proof (of_uint_acc_le d (5 + 10 * acc)) as Hle.
    rewrite (digits_step _ 5) by first [reflexivity | lia].
    replace (Z.pos acc * 10 + 5) with (Z.pos (5 + 10 * acc)) by lia.
    by apply IH.
  - pose proof (of_uint_acc_le d (6 + 10 * acc)) as Hle.
    rewrite (digits_step _ 6) by first [reflexivity | lia].
    replace (Z.pos acc * 10 + 6) with (Z.pos (6 + 10 * acc)) by lia.
    by apply IH.
  - pose proof (of_uint_acc_le d (7 + 10 * acc)) as Hle.
    rewrite (digits_step _ 7) by first [reflexivity | lia].
    replace (Z.pos acc * 10 + 7) with (Z.pos (7 + 10 * acc)) by lia.
    by apply IH.
  - pose proof (of_uint_acc_le d (8 + 10 * acc)) as Hle.
    rewrite (digits_step _ 8) by first [reflexivity | lia].
    replace (Z.pos acc * 10 + 8) with (Z.pos (8 + 10 * acc)) by lia.
    by apply IH.
  - pose proof (of_uint_acc_le d (9 + 10 * acc)) as Hle.
    rewrite (digits_step _ 9) by first [reflexivity | lia].
    replace (Z.pos acc * 10 + 9) with (Z.pos (9 + 10 * acc)) by lia.
    by apply IH.
Qed.

Lemma digits_of_uint d :
  Z.of_N (Pos.of_uint d) ≤ strconv.maxUint64 →
  strconv.digits (NilEmpty.string_of_uint d) 0
  = (Z.of_N (Pos.of_uint d), None).
Proof.
  induction d as [|d IH|d IH|d IH|d IH|d IH|d IH|d IH|d IH|d IH|d IH];
    intros Hmax; [done|..];
    cbn [NilEmpty.string_of_uint Pos.of_uint] in *.
  - rewrite (digits_step _ 0) by first [reflexivity | rewrite ?maxUint64_value; lia].
    by apply IH.
  - rewrite (digits_step _ 1) by first [reflexivity | rewrite ?maxUint64_value; lia].
    by apply (digits_of_uint_acc d 1).
  - rewrite (digits_step _ 2) by first [reflexivity | rewrite ?maxUint64_value; lia].
    by apply (digits_of_uint_acc d 2).
  - rewrite (digits_step _ 3) by first [reflexivity | rewrite ?maxUint64_value; lia].
    by apply (digits_of_uint_acc d 3).
  - rewrite (digits_step _ 4) by first [reflexivity | rewrite ?maxUint64_value; lia].
    by apply (digits_of_uint_acc d 4).
  - rewrite (digits_step _ 5) by first [reflexivity | rewrite ?maxUint64_value; lia].
    by apply (digits_of_uint_acc d 5).
  - rewrite (digits_step _ 6) by first [reflexivity | rewrite ?maxUint64_value; lia].
    by apply (digits_of_uint_acc d 6).
  - rewrite (digits_step _ 7) by first [reflexivity | rewrite ?maxUint64_value; lia].
    by apply (digits_of_uint_acc d 7).
  - rewrite (digits_step _ 8) by first [reflexivity | rewrite ?maxUint64_value; lia].
    by apply (digits_of_uint_acc d 8).
  - rewrite (digits_step _ 9) by first [reflexivity | rewrite ?maxUint64_value; lia].
    by apply (digits_of_uint_acc d 9).
Qed.

(** The decimal form of a positive number: one digit at least, no
    sign. *)
Lemma to_uint_string p :
  ∃ c rest,
    NilZero.string_of_uint (Pos.to_uint p) = String c rest
    ∧ NilEmpty.string_of_uint (Pos.to_uint p) = String c rest
    ∧ c ≠ "+"%char ∧ c ≠ "-"%char.
Proof.
  pose proof (DecimalPos.Unsigned.to_uint_nonnil p) as Hnil.
  destruct (Pos.to_uint p); [done|..]; eexists _, _;
    (split; [reflexivity|]); (split; [reflexivity|]); split; discriminate.
Qed.

Lemma ParseUint_to_uint p :
  Z.pos p ≤ strconv.maxUint64 →
  strconv.ParseUint (NilEmpty.string_of_uint (Pos.to_uint p))
  = (Z.pos p, None).
Proof.
  intros Hmax. destruct (to_uint_string p) as (c & rest & _ & Hs & _).
  unfold strconv.ParseUint. rewrite Hs, <- Hs.
  rewrite digits_of_uint; rewrite DecimalPos.Unsigned.of_to; done.
Qed.

(** [ParseInt] reads back the decimal form of every 64-bit integer. *)
Lemma ParseInt_decimal (z : Z) :
  Go.in_int z → strconv.ParseInt (fmt.decimal z) = (z, None).
Proof.
  unfold Go.in_int. intros Hz. destruct z as [|p|p].
  - reflexivity.
  - unfold fmt.decimal. cbn [Z.to_int NilZero.string_of_int].
    destruct (to_uint_string p) as (c & rest & Hs0 & Hs & Hplus & Hminus).
    rewrite Hs0. unfold strconv.ParseInt.
    rewrite decide_False by (intros [?|?]; done).
    rewrite <- Hs, ParseUint_to_uint by (rewrite maxUint64_value; lia).
    rewrite (bool_decide_eq_false_2 (c = "-"%char)) by done.
    rewrite bool_decide_eq_false_2 by lia.
    rewrite bool_decide_eq_false_2 by (intros [? _]; done).
    by rewrite wrap_in_int by (unfold Go.in_int; lia).
  - unfold fmt.decimal. cbn [Z.to_int NilZero.string_of_int].
    destruct (to_uint_string p) as (c & rest & Hs0 & Hs & Hplus & Hminus).
    unfold strconv.ParseInt.
    rewrite decide_True by (by right).
    rewrite Hs0, <- Hs, ParseUint_to_uint by (rewrite maxUint64_value; lia).
    rewrite (bool_decide_eq_true_2 ("-"%char = "-"%char)) by done.
    rewrite bool_decide_eq_false_2 by (intros [? _]; done).
    rewrite bool_decide_eq_false_2 by lia.
    f_equal. unfold Go.neg, Go.wrap.
    change (2 ^ 63) with 9223372036854775808 in *.
    change (2 ^ 64) with 18446744073709551616.
    Z.div_mod_to_equations. lia.
Qed.

End Decimal.

Section ShopeeIds.

Lemma decimal_nonempty (z : Z) : fmt.decimal z ≠ "".
Proof.
  unfold fmt.decimal. destruct z as [|p|p]; [done| |done].
  cbn [Z.to_int NilZero.string_of_int].
  destruct (to_uint_string p) as (c & rest & -> & _). done.
Qed.

(** [NewClient] and the partner id.  A partner id configured as the
    decimal form of a 64-bit number gives a client of that partner, with
    the configured key and the base URL of the environment, and the
    signature of a request is then the HMAC of the configured partner id
    as written, followed by the path and the timestamp.  A client made
    without a partner id is made all the same, for partner 0. *)
Theorem NewClient_partner_id (cfg : shopee.ClientConfig) :
  (∀ n : Z,
     Go.in_int n → shopee.PartnerID cfg = fmt.decimal n →
     ∃ c,
       shopee.NewClient cfg = Some c
       ∧ shopee.partnerID c = n
       ∧ shopee.partnerKey c = shopee.PartnerKey cfg
       ∧ shopee.baseURL c
         = (if shopee.IsSandbox cfg then shopee.SandboxBaseURL
            else shopee.ProductionBaseURL)
       ∧ ∀ path timestamp,
           shopee.generateSign c path timestamp
           = hex.EncodeToString
               (hmac.mac (shopee.PartnerKey cfg)
                  (shopee.PartnerID cfg +:+ path
                   +:+ fmt.decimal timestamp)))
  ∧ (shopee.PartnerID cfg = "" →
     ∃ c, shopee.NewClient cfg = Some c ∧ shopee.partnerID c = 0)
  ∧ (shopee.NewClient cfg = None →
     shopee.PartnerID cfg ≠ ""
     ∧ ∀ n : Z, Go.in_int n → shopee.PartnerID cfg ≠ fmt.decimal n).
Proof.
  split; [|split].
  - intros n Hn Hid. unfold shopee.NewClient.
    rewrite Hid, (ParseInt_decimal n Hn).
    rewrite bool_decide_eq_false_2 by (by intros [? _]).
    eexists. split; [reflexivity|]. do 3 (split; [reflexivity|]).
    intros path timestamp. unfold shopee.generateSign.
    cbn [shopee.partnerID shopee.partnerKey].
    by rewrite Sprintf_dsd.
  - intros Hid. unfold shopee.NewClient. rewrite Hid.
    cbn [strconv.ParseInt].
    rewrite bool_decide_eq_false_2 by (by intros [_ ?]).
    eexists. split; reflexivity.
  - unfold shopee.NewClient.
    destruct (strconv.ParseInt (shopee.PartnerID cfg)) as [v err] eqn:E.
    case_bool_decide as H; [|done]. intros _. destruct H as [Herr Hne].
    split; [exact Hne|]. intros n Hn Hid.
    rewrite Hid, (ParseInt_decimal n Hn) in E. by injection E as <- <-.
Qed.

(** The shop id that the Shopee provider writes into its answers, in
    decimal, is read back by [ParseInt] as the shop id the call was made
    for, without error. *)
Theorem shop_id_parses_back (now : time) (shopID : Z) :
  Go.in_int shopID →
  (∀ answer code tok,
     shopee_auth.ExchangeCode now answer code shopID = Some tok →
     strconv.ParseInt (providers.TokenResponse.ShopID tok)
     = (shopID, None))
  ∧ (∀ answer refreshToken tok,
       shopee_auth.RefreshToken now answer refreshToken shopID = Some tok →
       strconv.ParseInt (providers.TokenResponse.ShopID tok)
       = (shopID, None))
  ∧ (∀ c answer info,
       shopee.shopID c = shopID →
       shopee_auth.GetShopInfo c answer = Some info →
       strconv.ParseInt (providers.ShopInfo.ShopID info) = (shopID, None)).
Proof.
  intros Hid. split; [|split].
  - intros [resp|] code tok; [|done]. intros [= <-].
    cbn [providers.TokenResponse.ShopID].
    rewrite ?Sprintf_d, ?append_nil_r. by apply ParseInt_decimal.
  - intros [resp|] token tok; [|done]. intros [= <-].
    cbn [providers.TokenResponse.ShopID].
    rewrite ?Sprintf_d, ?append_nil_r. by apply ParseInt_decimal.
  - intros c [name|] info Hc; [|done]. intros [= <-].
    cbn [providers.ShopInfo.ShopID].
    rewrite ?Sprintf_d, ?append_nil_r, Hc. by apply ParseInt_decimal.
Qed.

End ShopeeIds.

(** ** More of the connection repository and service *)

Section FindFacts.
Context {A : Type}.
Implicit Types (q : Query A) (rows : list A).

(** A query without limit and offset returns every row that meets its
    conditions. *)
Lemma elem_of_Find_all q rows x :
  q_limit q = None → q_offset q = None →
  x ∈ Find q rows ↔ q_where q x = true ∧ x ∈ rows.
Proof.
  intros Hl Ho. unfold Find, limited, skipped. rewrite Hl, Ho.
  by rewrite ordered_Permutation, elem_of_matching.
Qed.

(** Without conditions every row matches. *)
Lemma matching_Model rows : matching Model rows = rows.
Proof.
  unfold matching. induction rows as [|r rows IH]; [done|].
  rewrite filter_cons. simpl. f_equal. exact IH.
Qed.

End FindFacts.

Section ConnectionsMore.
Import Connection services.
Implicit Types (db : list Connection.t) (c e : Connection.t).

Lemma conn_GetByID_keyed db c :
  keyed db → c ∈ db → ConnectionRepository.GetByID (ID c) db = Some c.
Proof.
  intros [Hnd _] Hc. apply First_keyed; [exact Hnd|exact Hc| |].
  - simpl. by rewrite bool_decide_eq_true_2.
  - intros r _ Hr. simpl in Hr. by apply bool_decide_eq_true in Hr.
Qed.

Lemma conn_GetByID_absent id db :
  id ∉ ID <$> db → ConnectionRepository.GetByID id db = None.
Proof.
  intros Hid. apply First_nil. intros r Hr. simpl.
  apply bool_decide_eq_false. intros <-. apply Hid.
  by apply list_elem_of_fmap_2.
Qed.

Lemma conn_where_id_fmap id (f : Connection.t → Connection.t) db :
  (λ c, if q_where (Model |> Where (λ c, bool_decide (ID c = id))) c
        then f c else c) <$> db
  = (λ c, if decide (ID c = id) then f c else c) <$> db.
Proof.
  apply list_fmap_ext. intros _ c _. simpl.
  by case_bool_decide; case_decide.
Qed.

(** Under the primary key, rewriting the rows that have the id of a
    stored row is replacing that row. *)
Lemma conn_at_id_replace (f : Connection.t → Connection.t) db c :
  keyed db → c ∈ db →
  (λ x, if decide (ID x = ID c) then f x else x) <$> db
  = (λ x, if decide (ID x = ID c) then f c else x) <$> db.
Proof.
  intros Hk Hc. apply list_fmap_ext. intros i x Hx.
  case_decide as Hid; [|done]. f_equal.
  eapply conn_keyed_inj; [done|by eapply list_elem_of_lookup_2|done|done].
Qed.

Lemma Deactivate_eq now id db :
  ConnectionRepository.Deactivate now id db
  = Some ((λ c, if decide (ID c = id)
                then touch now (with_IsActive false c) else c) <$> db).
Proof.
  unfold ConnectionRepository.Deactivate.
  rewrite (Updates_fmap _ _ _ (λ c, touch now (with_IsActive false c)));
    [|done].
  by rewrite conn_where_id_fmap.
Qed.

Lemma UpdateTokens_eq now id accessToken refreshToken expiresAt db :
  ConnectionRepository.UpdateTokens now id accessToken refreshToken
    (from_option SqlTime SqlNull expiresAt) db
  = Some ((λ c, if decide (ID c = id)
                then touch now
                       (with_tokens accessToken refreshToken expiresAt c)
                else c) <$> db).
Proof.
  unfold ConnectionRepository.UpdateTokens.
  rewrite (Updates_fmap _ _ _
             (λ c, touch now
                     (with_tokens accessToken refreshToken expiresAt c))).
  - by rewrite conn_where_id_fmap.
  - intros r _. by destruct expiresAt.
Qed.

(** [Disconnect] of an id the table does not have answers 'connection
    not found' and changes nothing.  [Disconnect] of a stored connection
    succeeds: the connection is stored as inactive, with the update time
    set, and with its tokens as they were; every other connection stays
    as it is; the connection is then shown as inactive and is no longer
    among the active connections, which are otherwise the same.  The
    table is the one [Deactivate] gives. *)
Theorem Disconnect_deactivates (w : World) (id : uuid) db :
  keyed db →
  ((id ∉ ID <$> db) → Disconnect w id db = (Err ErrConnectionNotFound, db))
  ∧ ∀ c, c ∈ db → ID c = id →
      ∃ c' db',
        Disconnect w id db = (Ok (), db')
        ∧ db' = (λ x, if decide (ID x = id) then c' else x) <$> db
        ∧ keyed db'
        ∧ IsActive c' = false
        ∧ UpdatedAt c' = now w
        ∧ ID c' = ID c
        ∧ shop c' = shop c
        ∧ ShopName c' = ShopName c
        ∧ AccessToken c' = AccessToken c
        ∧ RefreshToken c' = RefreshToken c
        ∧ TokenExpiresAt c' = TokenExpiresAt c
        ∧ Settings c' = Settings c
        ∧ CreatedAt c' = CreatedAt c
        ∧ GetConnection id db' = Ok (ToResponse c')
        ∧ (∀ x, x ∈ ConnectionRepository.GetActiveConnections db'
                ↔ x ∈ ConnectionRepository.GetActiveConnections db
                  ∧ ID x ≠ id)
        ∧ ConnectionRepository.Deactivate (now w) id db = Some db'.
Proof.
  intros Hk. split.
  - intros Hid. unfold Disconnect. by rewrite conn_GetByID_absent.
  - intros c Hc <-.
    set (c' := touch (now w) (with_IsActive false c)).
    set (db' := (λ x, if decide (ID x = ID c) then c' else x) <$> db).
    assert (Hk' : keyed db').
    { destruct Hk as [Hnd Hnil]. unfold keyed, db'.
      by rewrite (replaced_fmap ID c c' db). }
    assert (Hc' : c' ∈ db').
    { apply list_elem_of_fmap. exists c. split; [|done].
      by rewrite decide_True. }
    exists c', db'. split; [|split; [done|split; [exact Hk'|]]].
    { unfold Disconnect. rewrite (conn_GetByID_keyed db c Hk Hc). cbv zeta.
      by rewrite (Update_in_place _ _ c (with_IsActive false c) db). }
    do 10 (split; [reflexivity|]). split; [|split].
    + pose proof (conn_GetByID_keyed db' c' Hk' Hc') as Hg.
      change (ID c') with (ID c) in Hg.
      unfold GetConnection. by rewrite Hg.
    + intros x. unfold ConnectionRepository.GetActiveConnections.
      rewrite !elem_of_Find_all by done. simpl.
      rewrite !bool_decide_eq_true. unfold db'.
      rewrite list_elem_of_fmap. split.
      * intros [Hact (y & -> & Hy)].
        case_decide as Hid; [discriminate Hact|]. done.
      * intros [[Hact Hx] Hid]. split; [done|].
        exists x. split; [|done]. by rewrite decide_False.
    + rewrite Deactivate_eq. f_equal. unfold db', c'.
      by apply (conn_at_id_replace
                  (λ x, touch (now w) (with_IsActive false x))).
Qed.


(** The listings.  [GetActiveConnections] returns exactly the active
    connections, [GetActiveConnectionsByPlatform] those of them that
    are of the platform, [GetAll] every connection, each newest first by
    [created_at]; the service hands them out as responses, which for
    [GetActiveConnections] are all active. *)
Theorem connections_listed db :
  ConnectionRepository.GetActiveConnections db
    ≡ₚ filter (λ c, IsActive c = true) db
  ∧ (∀ platform,
       ConnectionRepository.GetActiveConnectionsByPlatform platform db
         ≡ₚ filter (λ c, Platform c = platform)
              (ConnectionRepository.GetActiveConnections db))
  ∧ ConnectionRepository.GetAll db ≡ₚ db
  ∧ StronglySorted (λ x y, CreatedAt y ≤ CreatedAt x)
      (ConnectionRepository.GetActiveConnections db)
  ∧ (∀ platform,
       StronglySorted (λ x y, CreatedAt y ≤ CreatedAt x)
         (ConnectionRepository.GetActiveConnectionsByPlatform platform db))
  ∧ StronglySorted (λ x y, CreatedAt y ≤ CreatedAt x)
      (ConnectionRepository.GetAll db)
  ∧ (∃ rs, GetActiveConnections db = Ok rs
           ∧ length rs = length (filter (λ c, IsActive c = true) db)
           ∧ Forall (λ r, ConnectionResponse.IsActive r = true) rs)
  ∧ (∃ rs, GetAllConnections db = Ok rs ∧ length rs = length db).
Proof.
  assert (Hact : ConnectionRepository.GetActiveConnections db
                 = merge_sort (λ x y, desc CreatedAt x y)
                     (filter (λ c, IsActive c = true) db)).
  { unfold ConnectionRepository.GetActiveConnections, Find, limited,
      skipped, ordered, matching. simpl. f_equal.
    apply list_filter_iff. intros c. by rewrite bool_decide_spec. }
  assert (Hplat : ∀ platform,
            ConnectionRepository.GetActiveConnectionsByPlatform platform db
            = merge_sort (λ x y, desc CreatedAt x y)
                (filter (λ c, Platform c = platform ∧ IsActive c = true)
                   db)).
  { intros platform.
    unfold ConnectionRepository.GetActiveConnectionsByPlatform, Find,
      limited, skipped, ordered, matching. simpl. f_equal.
    apply list_filter_iff. intros c. by rewrite bool_decide_spec. }
  assert (Hall : ConnectionRepository.GetAll db
                 = merge_sort (λ x y, desc CreatedAt x y) db).
  { unfold ConnectionRepository.GetAll, Find, limited, skipped, ordered.
    simpl. f_equal. apply matching_Model. }
  split; [rewrite Hact; apply merge_sort_Permutation|].
  split.
  { intros platform. rewrite Hplat, Hact, !merge_sort_Permutation.
    rewrite list_filter_filter. done. }
  split; [rewrite Hall; apply merge_sort_Permutation|].
  split; [rewrite Hact; apply merge_sort_desc|].
  split; [intros platform; rewrite Hplat; apply merge_sort_desc|].
  split; [rewrite Hall; apply merge_sort_desc|].
  split.
  - eexists. split; [reflexivity|]. split.
    + rewrite length_fmap, Hact. by rewrite merge_sort_Permutation.
    + apply Forall_fmap, Forall_forall. intros c Hc. simpl.
      apply elem_of_Find in Hc as [Hw _]. simpl in Hw.
      by apply bool_decide_eq_true in Hw.
  - eexists. split; [reflexivity|].
    rewrite length_fmap, Hall. by rewrite merge_sort_Permutation.
Qed.

Lemma refresh_due_spec (now m : Z) c :
  q_where (Model
           |> Where (λ c, bool_decide (IsActive c = true)
                          && match TokenExpiresAt c with
                             | Some x =>
                                 bool_decide (x ≤ now + 60 * Second * m)
                             | None => false
                             end)) c = true
  ↔ IsActive c = true
    ∧ ∃ x, TokenExpiresAt c = Some x ∧ x ≤ now + m * (60 * Second).
Proof.
  simpl. rewrite andb_true_iff, bool_decide_eq_true.
  destruct (TokenExpiresAt c) as [x|].
  - rewrite bool_decide_eq_true. unfold Second. split.
    + intros [? ?]. split; [done|]. exists x. split; [done|lia].
    + intros [? (x' & [= <-] & ?)]. split; [done|lia].
  - split; [by intros [_ ?]|]. by intros [_ (x & [=] & _)].
Qed.

(** [GetConnectionsNeedingTokenRefresh] returns exactly the active
    connections whose expiry time is at or before now plus the given
    minutes, none of them twice: an inactive connection and a
    connection without an expiry time are never returned.  What a
    window returns, every wider window returns. *)
Theorem refresh_window (now : time) (withinMinutes : Z) db :
  (∀ c, c ∈ ConnectionRepository.GetConnectionsNeedingTokenRefresh now
              withinMinutes db
        ↔ c ∈ db ∧ IsActive c = true
          ∧ ∃ x, TokenExpiresAt c = Some x
                 ∧ x ≤ now + withinMinutes * (60 * Second))
  ∧ (NoDup (ID <$> db) →
     NoDup (ID <$> ConnectionRepository.GetConnectionsNeedingTokenRefresh
                     now withinMinutes db))
  ∧ ∀ wider c, withinMinutes ≤ wider →
      c ∈ ConnectionRepository.GetConnectionsNeedingTokenRefresh now
            withinMinutes db →
      c ∈ ConnectionRepository.GetConnectionsNeedingTokenRefresh now
            wider db.
Proof.
  assert (Hspec : ∀ m c,
            c ∈ ConnectionRepository.GetConnectionsNeedingTokenRefresh now
                  m db
            ↔ c ∈ db ∧ IsActive c = true
              ∧ ∃ x, TokenExpiresAt c = Some x
                     ∧ x ≤ now + m * (60 * Second)).
  { intros m c.
    unfold ConnectionRepository.GetConnectionsNeedingTokenRefresh.
    rewrite elem_of_Find_all by done. rewrite refresh_due_spec. tauto. }
  split; [apply Hspec|]. split.
  - apply Find_NoDup.
  - intros wider c Hle. rewrite !Hspec.
    intros (Hc & Hact & x & Hx & Hdue). split; [done|]. split; [done|].
    exists x. split; [done|]. unfold Second in *. lia.
Qed.

End ConnectionsMore.

(** ** The callback requests *)

Section Callbacks.
Import Connection services.
Implicit Types (db : list Connection.t).

(** A callback that fails has written nothing. *)
Lemma HandleShopeeCallback_Err s w code shopID db msg db' :
  HandleShopeeCallback s w code shopID db = (Err msg, db') → db' = db.
Proof.
  unfold HandleShopeeCallback.
  repeat match goal with
         | |- context [match ?t with _ => _ end] => destruct t
         end; by intros [= <-] || by intros [=].
Qed.

Lemma HandleTikTokCallback_Err s w code db msg db' :
  HandleTikTokCallback s w code db = (Err msg, db') → db' = db.
Proof.
  unfold HandleTikTokCallback.
  repeat match goal with
         | |- context [match ?t with _ => _ end] => destruct t
         end; by intros [= <-] || by intros [=].
Qed.

(** The answers of the two callback requests.  A Shopee callback is
    answered 400 exactly when the code or the shop id is missing or the
    shop id is no decimal 64-bit number, a TikTok callback exactly when
    the code is missing, and the service is then not called.  Otherwise
    the answer is 200 with the connection when the service succeeds, for
    Shopee with the shop id read from the request, and 500 when it
    fails.  Whenever the answer is not 200 the table of connections is
    as it was. *)
Theorem callback_answers (s : ConnectionService) (w : World)
    (params : list (string * string)) db :
  let code := connection_handler.Query "code" params in
  let shop := connection_handler.Query "shop_id" params in
  let shopee := connection_handler.HandleShopeeCallback s w params db in
  let tiktok := connection_handler.HandleTikTokCallback s w params db in
  (connection_handler.status shopee.1 = 400
   ↔ code = "" ∨ shop = "" ∨ (strconv.ParseInt shop).2 ≠ None)
  ∧ (connection_handler.status shopee.1 = 200
     ∨ connection_handler.status shopee.1 = 400
     ∨ connection_handler.status shopee.1 = 500)
  ∧ (connection_handler.status shopee.1 ≠ 200 →
     shopee.2 = db ∧ connection_handler.connection shopee.1 = None)
  ∧ (connection_handler.status shopee.1 = 200 →
     ∃ r, connection_handler.connection shopee.1 = Some r
          ∧ HandleShopeeCallback s w code (strconv.ParseInt shop).1 db
            = (Ok r, shopee.2))
  ∧ (connection_handler.status tiktok.1 = 400 ↔ code = "")
  ∧ (connection_handler.status tiktok.1 = 200
     ∨ connection_handler.status tiktok.1 = 400
     ∨ connection_handler.status tiktok.1 = 500)
  ∧ (connection_handler.status tiktok.1 ≠ 200 →
     tiktok.2 = db ∧ connection_handler.connection tiktok.1 = None)
  ∧ (connection_handler.status tiktok.1 = 200 →
     ∃ r, connection_handler.connection tiktok.1 = Some r
          ∧ HandleTikTokCallback s w code db = (Ok r, tiktok.2)).
Proof.
  cbv zeta.
  assert (Hshopee :
    let shopee := connection_handler.HandleShopeeCallback s w params db in
    (connection_handler.status shopee.1 = 400
     ↔ connection_handler.Query "code" params = ""
       ∨ connection_handler.Query "shop_id" params = ""
       ∨ (strconv.ParseInt (connection_handler.Query "shop_id" params)).2
         ≠ None)
    ∧ (connection_handler.status shopee.1 = 200
       ∨ connection_handler.status shopee.1 = 400
       ∨ connection_handler.status shopee.1 = 500)
    ∧ (connection_handler.status shopee.1 ≠ 200 →
       shopee.2 = db ∧ connection_handler.connection shopee.1 = None)
    ∧ (connection_handler.status shopee.1 = 200 →
       ∃ r, connection_handler.connection shopee.1 = Some r
            ∧ HandleShopeeCallback s w
                (connection_handler.Query "code" params)
                (strconv.ParseInt
                   (connection_handler.Query "shop_id" params)).1 db
              = (Ok r, shopee.2))).
  { cbv zeta. unfold connection_handler.HandleShopeeCallback. cbv zeta.
    case_decide as Hcode; [simpl; intuition (auto; discriminate)|].
    case_decide as Hshop; [simpl; intuition (auto; discriminate)|].
    destruct (strconv.ParseInt (connection_handler.Query "shop_id" params))
      as [shopID err] eqn:Hparse.
    case_decide as Herr; [simpl; intuition (auto; discriminate)|].
    destruct (HandleShopeeCallback s w
                (connection_handler.Query "code" params) shopID db)
      as [[r|msg] db'] eqn:Hcall; simpl.
    - split; [|split; [auto|split]].
      + split; [discriminate|]. intros [?|[?|?]]; done.
      + intros H. by destruct H.
      + intros _. exists r. done.
    - apply HandleShopeeCallback_Err in Hcall as ->.
      split; [|split; [auto|split]].
      + split; [discriminate|]. intros [?|[?|?]]; done.
      + done.
      + discriminate. }
  assert (Htiktok :
    let tiktok := connection_handler.HandleTikTokCallback s w params db in
    (connection_handler.status tiktok.1 = 400
     ↔ connection_handler.Query "code" params = "")
    ∧ (connection_handler.status tiktok.1 = 200
       ∨ connection_handler.status tiktok.1 = 400
       ∨ connection_handler.status tiktok.1 = 500)
    ∧ (connection_handler.status tiktok.1 ≠ 200 →
       tiktok.2 = db ∧ connection_handler.connection tiktok.1 = None)
    ∧ (connection_handler.status tiktok.1 = 200 →
       ∃ r, connection_handler.connection tiktok.1 = Some r
            ∧ HandleTikTokCallback s w
                (connection_handler.Query "code" params) db
              = (Ok r, tiktok.2))).
  { cbv zeta. unfold connection_handler.HandleTikTokCallback. cbv zeta.
    case_decide as Hcode; [simpl; intuition (auto; discriminate)|].
    destruct (HandleTikTokCallback s w
                (connection_handler.Query "code" params) db)
      as [[r|msg] db'] eqn:Hcall; simpl.
    - split; [|split; [auto|split]].
      + split; [discriminate|done].
      + intros H. by destruct H.
      + intros _. exists r. done.
    - apply HandleTikTokCallback_Err in Hcall as ->.
      split; [|split; [auto|split]].
      + split; [discriminate|done].
      + done.
      + discriminate. }
  cbv zeta in Hshopee, Htiktok.
  destruct Hshopee as (H1 & H2 & H3 & H4).
  destruct Htiktok as (H5 & H6 & H7 & H8).
  exact (conj H1 (conj H2 (conj H3 (conj H4
           (conj H5 (conj H6 (conj H7 H8))))))).
Qed.

End Callbacks.

(** ** Token refresh *)

Section Refresh.
Import Connection services.
Implicit Types (db : list Connection.t) (c : Connection.t).

Lemma conn_GetByID_found id db c :
  ConnectionRepository.GetByID id db = Some c → c ∈ db ∧ ID c = id.
Proof.
  intros [Hw Hc]%First_Some. split; [done|]. simpl in Hw.
  by apply bool_decide_eq_true in Hw.
Qed.

Lemma UpdateTokens_time now id accessToken refreshToken expiresAt db :
  ConnectionRepository.UpdateTokens now id accessToken refreshToken
    (SqlTime expiresAt) db
  = Some ((λ c, if decide (ID c = id)
                then touch now
                       (with_tokens accessToken refreshToken
                          (Some expiresAt) c)
                else c) <$> db).
Proof.
  exact (UpdateTokens_eq now id accessToken refreshToken (Some expiresAt)
           db).
Qed.

(** A refresh either fails and leaves the table, or rewrites the
    tokens of the rows with the id. *)
Lemma RefreshConnectionToken_cases s w x id db :
  (∃ msg, RefreshConnectionToken s w x id db = (Err msg, db))
  ∨ ∃ accessToken refreshToken expiresAt,
      RefreshConnectionToken s w x id db
      = (Ok (),
         (λ c, if decide (ID c = id)
               then touch (now w)
                      (with_tokens accessToken refreshToken
                         (Some expiresAt) c)
               else c) <$> db).
Proof.
  unfold RefreshConnectionToken.
  destruct (ConnectionRepository.GetByID id db) as [conn|]; [|by eauto].
  destruct (stored_refresh_token s x conn) as [token|]; [|by eauto].
  cbv zeta.
  match goal with
  | |- context [match ?t with inl _ => _ | inr _ => _ end] =>
      destruct t as [msg|resp]
  end; [by eauto|].
  rewrite UpdateTokens_time. right. by eauto.
Qed.

(** [RefreshConnectionToken].  A refresh that does not succeed leaves
    the table as it is; one that succeeds changes nothing but the
    tokens, the expiry and the update time of the connection: whether it
    is active, its shop and its name stay, and so does every other
    connection.  An id the table does not have gives 'connection not
    found', a platform other than 'shopee' and 'tiktok' gives 'invalid
    platform'.  For a Shopee connection whose shop id is the decimal
    form of a 64-bit number, as the callback stores it, the refresh
    request is made for that number with the stored refresh token, and
    the answer decides: without one the refresh fails, with one the
    connection is stored with the new tokens, encrypted where the
    service encrypts, and the expiry now plus the seconds answered. *)
Theorem RefreshConnectionToken_effect (s : ConnectionService) (w : World)
    (x : Refresh) (id : uuid) db :
  keyed db →
  let r := (RefreshConnectionToken s w x id db).1 in
  let db' := (RefreshConnectionToken s w x id db).2 in
  (r ≠ Ok () → db' = db)
  ∧ Forall2 (λ c c',
               ID c' = ID c
               ∧ Platform c' = Platform c
               ∧ ShopID c' = ShopID c
               ∧ ShopName c' = ShopName c
               ∧ IsActive c' = IsActive c
               ∧ Settings c' = Settings c
               ∧ CreatedAt c' = CreatedAt c
               ∧ (ID c ≠ id → c' = c))
      db db'
  ∧ ((id ∉ ID <$> db) → r = Err ErrConnectionNotFound)
  ∧ (∀ c token,
       c ∈ db → ID c = id →
       Platform c ≠ "shopee" → Platform c ≠ "tiktok" →
       stored_refresh_token s x c = Some token →
       r = Err ErrInvalidPlatform)
  ∧ (∀ c n token client,
       c ∈ db → ID c = id →
       Platform c = "shopee" → ShopID c = fmt.decimal n → Go.in_int n →
       shopeeAuth s = Some client →
       stored_refresh_token s x c = Some token →
       match shopee_refreshed x token n with
       | None => r = Err "failed to refresh Shopee token"
       | Some resp =>
           r = Ok ()
           ∧ ConnectionRepository.GetByID id db'
             = Some (touch (now w)
                       (with_tokens
                          (encrypt s
                             (shopee_auth.TokenResponse.AccessToken resp))
                          (encrypt s
                             (shopee_auth.TokenResponse.RefreshToken resp))
                          (Some (now w
                                 + Go.mul
                                     (shopee_auth.TokenResponse.ExpireIn
                                        resp) Second))
                          c))
       end).
Proof.
  intros Hk. cbv zeta. split; [|split; [|split; [|split]]].
  - destruct (RefreshConnectionToken_cases s w x id db)
      as [[msg ->]|(a & b & e & ->)]; [done|]. by intros [].
  - destruct (RefreshConnectionToken_cases s w x id db)
      as [[msg ->]|(a & b & e & ->)]; simpl.
    + induction db; constructor; [by repeat split|].
      apply IHdb. destruct Hk as [Hnd Hnil].
      rewrite fmap_cons in Hnd, Hnil. apply NoDup_cons in Hnd as [_ Hnd].
      apply not_elem_of_cons in Hnil as [_ Hnil]. by split.
    + apply Forall2_fmap_diag. intros c. case_decide; by repeat split.
  - intros Hid. unfold RefreshConnectionToken.
    by rewrite conn_GetByID_absent.
  - intros c token Hc <- Hs Ht Htok. unfold RefreshConnectionToken.
    rewrite (conn_GetByID_keyed db c Hk Hc), Htok. cbv zeta.
    by rewrite !decide_False by done.
  - intros c n token client Hc <- Hplat Hshop Hn Hauth Htok.
    unfold RefreshConnectionToken.
    rewrite (conn_GetByID_keyed db c Hk Hc), Htok. cbv zeta.
    rewrite decide_True by done. rewrite Hauth, Hshop.
    rewrite (ParseInt_decimal n Hn). cbn [fst].
    unfold shopee_auth.RefreshToken.
    destruct (shopee_refreshed x token n) as [resp|]; [|done].
    cbn [mbind option_bind]. cbv zeta.
    cbn [providers.TokenResponse.AccessToken
         providers.TokenResponse.RefreshToken
         providers.TokenResponse.ExpiresAt].
    rewrite UpdateTokens_time. cbn [fst snd]. split; [done|].
    set (c' := touch _ _).
    assert (Hc' : c' ∈ (λ y, if decide (ID y = ID c) then
                         touch (now w)
                           (with_tokens
                              (encrypt s
                                 (shopee_auth.TokenResponse.AccessToken resp))
                              (encrypt s
                                 (shopee_auth.TokenResponse.RefreshToken
                                    resp))
                              (Some (now w
                                     + Go.mul
                                         (shopee_auth.TokenResponse.ExpireIn
                                            resp) Second)) y)
                         else y) <$> db).
    { apply list_elem_of_fmap. exists c. split; [|done].
      by rewrite decide_True. }
    assert (Hk' : keyed ((λ y, if decide (ID y = ID c) then
                         touch (now w)
                           (with_tokens
                              (encrypt s
                                 (shopee_auth.TokenResponse.AccessToken resp))
                              (encrypt s
                                 (shopee_auth.TokenResponse.RefreshToken
                                    resp))
                              (Some (now w
                                     + Go.mul
                                         (shopee_auth.TokenResponse.ExpireIn
                                            resp) Second)) y)
                         else y) <$> db)).
    { destruct Hk as [Hnd Hnil]. unfold keyed.
      assert (Hids : ∀ f : Connection.t → Connection.t,
                (∀ y, ID (f y) = ID y) →
                ID <$> ((λ y, if decide (ID y = ID c) then f y else y)
                          <$> db) = ID <$> db).
      { intros f Hf. rewrite <- list_fmap_compose. apply list_fmap_ext.
        intros _ y _. simpl. case_decide; [apply Hf|done]. }
      by rewrite Hids. }
    exact (conn_GetByID_keyed _ c' Hk' Hc').
Qed.

End Refresh.

(** ** More of the product-mapping repository *)

Section MatchingFacts.
Context {A : Type}.
Implicit Types (q : Query A) (rows : list A).

(** What a query returns and counts depends on the table only through
    the rows that meet its conditions. *)
Lemma Find_by_matching q rows rows' :
  matching q rows' = matching q rows →
  Find q rows' = Find q rows ∧ Count q rows' = Count q rows.
Proof. unfold Find, Count. by intros ->. Qed.

Lemma Find_nothing q rows :
  matching q rows = [] → Find q rows = [] ∧ Count q rows = 0.
Proof.
  unfold Find, Count. intros ->. split; [|done].
  assert (Ho : ordered q [] = []).
  { unfold ordered. by destruct (q_order q). }
  assert (Hs : skipped q [] = []).
  { unfold skipped. destruct (q_offset q); [|done].
    case_bool_decide; [apply drop_nil|done]. }
  assert (Hl : limited q [] = []).
  { unfold limited. destruct (q_limit q); [|done].
    case_bool_decide; [apply take_nil|done]. }
  by rewrite Ho, Hs, Hl.
Qed.

(** The rows a query meets after a deletion. *)
Lemma matching_Delete_other q (d : Query A) rows :
  (∀ r, q_where q r = true → q_where d r = false) →
  matching q (Gorm_Delete d rows) = matching q rows.
Proof.
  intros Hq. unfold matching, Gorm_Delete.
  rewrite list_filter_filter. apply list_filter_iff. intros r.
  split; [by intros [? _]|]. intros Hr. split; [done|].
  apply Is_true_true in Hr. by rewrite (Hq r Hr).
Qed.

Lemma matching_Delete_same q (d : Query A) rows :
  (∀ r, q_where q r = true → q_where d r = true) →
  matching q (Gorm_Delete d rows) = [].
Proof.
  intros Hq. unfold matching, Gorm_Delete.
  rewrite list_filter_filter. apply filter_none. intros r _ [Hr Hd].
  apply Is_true_true in Hr. by rewrite (Hq r Hr) in Hd.
Qed.

End MatchingFacts.

Section MappingsMore.
Import ProductMapping ProductMappingRepository.
Implicit Types (db : list ProductMapping.t) (m : ProductMapping.t).

Lemma mapping_where_id_fmap id (f : ProductMapping.t → ProductMapping.t)
    db :
  (λ m, if q_where (Model |> Where (λ m, bool_decide (ID m = id))) m
        then f m else m) <$> db
  = (λ m, if decide (ID m = id) then f m else m) <$> db.
Proof.
  apply list_fmap_ext. intros _ m _. simpl.
  by case_bool_decide; case_decide.
Qed.

Lemma UpdateSyncStatus_eq now id status errorMessage db :
  UpdateSyncStatus now id status errorMessage db
  = Some ((λ m, if decide (ID m = id)
                then with_UpdatedAt now
                       (with_sync status
                          (if decide (status = SyncStatusSynced)
                           then Some now else LastSyncedAt m)
                          (if decide (status = SyncStatusSynced)
                           then "" else errorMessage) m)
                else m) <$> db).
Proof.
  unfold UpdateSyncStatus. cbv zeta.
  rewrite <- mapping_where_id_fmap.
  case_decide as E.
  - apply Updates_fmap. intros r _. reflexivity.
  - apply Updates_fmap. intros r _. reflexivity.
Qed.

(** [UpdateSyncStatus] succeeds and writes, on the rows with the given
    id, the status and the update time; with the status 'synced' it
    clears the error, whatever message is passed, and sets
    [last_synced_at] to now; with any other status it stores the message
    and leaves [last_synced_at].  Nothing else changes.  So a table in
    which no synced mapping carries an error stays so, and a mapping
    marked synced is in neither work list. *)
Theorem UpdateSyncStatus_effect (now : time) (id : uuid)
    (status errorMessage : string) db :
  ∃ db',
    UpdateSyncStatus now id status errorMessage db = Some db'
    ∧ Forall2 (λ m m',
                 if decide (ID m = id)
                 then SyncStatus m' = status
                      ∧ SyncError m'
                        = (if decide (status = SyncStatusSynced)
                           then "" else errorMessage)
                      ∧ LastSyncedAt m'
                        = (if decide (status = SyncStatusSynced)
                           then Some now else LastSyncedAt m)
                      ∧ UpdatedAt m' = now
                      ∧ ID m' = ID m
                      ∧ ConnectionID m' = ConnectionID m
                      ∧ InternalProductID m' = InternalProductID m
                      ∧ ExternalProductID m' = ExternalProductID m
                      ∧ ExternalSKU m' = ExternalSKU m
                      ∧ CreatedAt m' = CreatedAt m
                 else m' = m)
        db db'
    ∧ (Forall (λ m, SyncStatus m = SyncStatusSynced → SyncError m = "") db →
       Forall (λ m, SyncStatus m = SyncStatusSynced → SyncError m = "") db')
    ∧ (status = SyncStatusSynced →
       ∀ connectionID limit m,
         m ∈ GetPendingMappings connectionID limit db'
         ∨ m ∈ GetErrorMappings connectionID db' →
         ID m ≠ id).
Proof.
  eexists. split; [apply UpdateSyncStatus_eq|]. split; [|split].
  - apply Forall2_fmap_diag. intros m. case_decide; [|done].
    by repeat split.
  - intros Hdb. apply Forall_fmap. eapply Forall_impl; [exact Hdb|].
    intros m Hm. simpl. case_decide; [|exact Hm].
    simpl. intros Hs. by rewrite decide_True.
  - intros -> connectionID limit m Hm Hid.
    assert (Hdb : m ∈ (λ m, if decide (ID m = id)
                            then with_UpdatedAt now
                                   (with_sync SyncStatusSynced
                                      (if decide (SyncStatusSynced
                                                  = SyncStatusSynced)
                                       then Some now else LastSyncedAt m)
                                      (if decide (SyncStatusSynced
                                                  = SyncStatusSynced)
                                       then "" else errorMessage) m)
                            else m) <$> db
                  ∧ SyncStatus m ≠ SyncStatusSynced).
    { destruct Hm as [Hm|Hm]; apply elem_of_Find in Hm as [Hw Hm];
        (split; [exact Hm|]); simpl in Hw;
        apply bool_decide_eq_true in Hw as [_ Hs]; rewrite Hs; discriminate. }
    destruct Hdb as [(m0 & -> & _)%list_elem_of_fmap Hs].
    case_decide as E; [by apply Hs|]. by apply E.
Qed.

(** The conditions of a listing by connection hold only of mappings of
    that connection. *)
Lemma listing_of_connection connectionID (flt : option ProductMappingFilter.t)
    m :
  q_where
    (match flt with
     | Some f =>
         match ProductMappingFilter.InternalProductID f with
         | Some p =>
             (if decide (ProductMappingFilter.SyncStatus f ≠ "")
              then Model
                   |> Where (λ m, bool_decide (ConnectionID m = connectionID))
                   |> Where (λ m, bool_decide
                                    (SyncStatus m
                                     = ProductMappingFilter.SyncStatus f))
              else Model
                   |> Where (λ m, bool_decide (ConnectionID m = connectionID)))
             |> Where (λ m, bool_decide (InternalProductID m = p))
         | None =>
             if decide (ProductMappingFilter.SyncStatus f ≠ "")
             then Model
                  |> Where (λ m, bool_decide (ConnectionID m = connectionID))
                  |> Where (λ m, bool_decide
                                   (SyncStatus m
                                    = ProductMappingFilter.SyncStatus f))
             else Model
                  |> Where (λ m, bool_decide (ConnectionID m = connectionID))
         end
     | None =>
         Model |> Where (λ m, bool_decide (ConnectionID m = connectionID))
     end) m = true →
  ConnectionID m = connectionID.
Proof.
  destruct flt as [f|]; [destruct (ProductMappingFilter.InternalProductID f)|];
    repeat case_decide; simpl;
    rewrite ?andb_true_iff, ?bool_decide_eq_true; tauto.
Qed.

(** [DeleteByConnectionID] removes the mappings of the connection and
    no other: afterwards every listing of that connection, whatever the
    filter and the page, is empty with total 0, and so are its work
    lists; every listing of another connection is what it was. *)
Theorem DeleteByConnectionID_listing (connectionID : uuid) db :
  ∃ db',
    DeleteByConnectionID connectionID db = Some db'
    ∧ db' `sublist_of` db
    ∧ (∀ flt, GetByConnectionID connectionID flt db' = ([], 0))
    ∧ (∀ limit, GetPendingMappings connectionID limit db' = [])
    ∧ GetErrorMappings connectionID db' = []
    ∧ (∀ other flt, other ≠ connectionID →
         GetByConnectionID other flt db' = GetByConnectionID other flt db).
Proof.
  eexists. split; [reflexivity|]. split; [apply sublist_filter|].
  set (d := Model |> Where (λ m, bool_decide (ConnectionID m = connectionID))).
  split; [|split; [|split]].
  - intros flt. unfold GetByConnectionID. cbv zeta.
    change (match flt with
            | Some f => if decide (ProductMappingFilter.Page f > 0)
                        then ProductMappingFilter.Page f else 1
            | None => 1
            end) with (ProductMappingFilter.page_of flt).
    change (match flt with
            | Some f => if decide (ProductMappingFilter.PageSize f > 0)
                        then ProductMappingFilter.PageSize f else 20
            | None => 20
            end) with (ProductMappingFilter.size_of flt).
    set (size := ProductMappingFilter.size_of flt).
    set (o := Go.mul _ _).
    set (q := match flt with Some f => _ | None => _ end).
    assert (Hm : matching (q |> Offset o |> Limit size
                             |> Order (desc CreatedAt))
                   (Gorm_Delete d db) = []).
    { apply matching_Delete_same. intros m Hq.
      change (q_where q m = true) in Hq.
      apply listing_of_connection in Hq. simpl.
      by rewrite bool_decide_eq_true_2. }
    destruct (Find_nothing _ _ Hm) as [-> Hc].
    f_equal. exact Hc.
  - intros limit. apply Find_nothing, matching_Delete_same.
    intros m Hq. simpl in *. rewrite bool_decide_eq_true in *.
    tauto.
  - apply Find_nothing, matching_Delete_same.
    intros m Hq. simpl in *. rewrite bool_decide_eq_true in *.
    tauto.
  - intros other flt Hne. unfold GetByConnectionID. cbv zeta.
    change (match flt with
            | Some f => if decide (ProductMappingFilter.Page f > 0)
                        then ProductMappingFilter.Page f else 1
            | None => 1
            end) with (ProductMappingFilter.page_of flt).
    change (match flt with
            | Some f => if decide (ProductMappingFilter.PageSize f > 0)
                        then ProductMappingFilter.PageSize f else 20
            | None => 20
            end) with (ProductMappingFilter.size_of flt).
    set (size := ProductMappingFilter.size_of flt).
    set (o := Go.mul _ _).
    set (q := match flt with Some f => _ | None => _ end).
    assert (Hm : matching (q |> Offset o |> Limit size
                             |> Order (desc CreatedAt))
                   (Gorm_Delete d db)
                 = matching (q |> Offset o |> Limit size
                               |> Order (desc CreatedAt)) db).
    { apply matching_Delete_other. intros m Hq.
      change (q_where q m = true) in Hq.
      apply listing_of_connection in Hq. simpl.
      rewrite bool_decide_eq_false_2; [done|]. congruence. }
    destruct (Find_by_matching _ _ _ Hm) as [-> Hc].
    f_equal. exact Hc.
Qed.

End MappingsMore.

(** ** Imported products *)

Section KeyFacts.
Context {A K : Type} `{EqDecision K}.
Implicit Types (q : Query A) (rows : list A) (k : A → K).

(** Under a unique key, a lookup whose conditions fix the key returns
    the row that has it. *)
Lemma First_unique `{Table A} k q rows c :
  NoDup (k <$> rows) → c ∈ rows → q_where q c = true →
  (∀ r, r ∈ rows → q_where q r = true → k r = k c) →
  First q rows = Some c.
Proof.
  intros Hnd Hc Hw Hq.
  destruct (First_is_Some q rows c Hc Hw) as [x Hx].
  rewrite Hx. f_equal.
  apply First_Some in Hx as [Hwx Hxin].
  apply (NoDup_fmap_inj k rows); auto.
Qed.

(** Rewriting the rows with the key of a stored row touches that row
    only. *)
Lemma rewrite_at k (f : A → A) l1 r l2 :
  (k r ∉ k <$> l1) → (k r ∉ k <$> l2) →
  (λ x, if decide (k x = k r) then f x else x) <$> (l1 ++ r :: l2)
  = l1 ++ f r :: l2.
Proof.
  intros Hl1 Hl2.
  assert (Hid : ∀ l : list A, k r ∉ k <$> l →
            (λ x, if decide (k x = k r) then f x else x) <$> l = l).
  { intros l Hl. induction l as [|x l IH]; [done|].
    rewrite fmap_cons in Hl. apply not_elem_of_cons in Hl as [Hx Hl].
    rewrite fmap_cons, decide_False by done. by rewrite IH. }
  rewrite fmap_app, fmap_cons, decide_True by done.
  by rewrite !Hid.
Qed.

Lemma keyed_split k rows r :
  NoDup (k <$> rows) → r ∈ rows →
  ∃ l1 l2,
    rows = l1 ++ r :: l2 ∧ (k r ∉ k <$> l1) ∧ (k r ∉ k <$> l2).
Proof.
  intros Hnd Hr.
  apply list_elem_of_split in Hr as (l1 & l2 & ->).
  exists l1, l2. split; [done|].
  rewrite fmap_app, fmap_cons in Hnd.
  apply NoDup_app in Hnd as (_ & Hl1 & Hl2).
  apply NoDup_cons in Hl2 as [Hl2 _]. split; [|done].
  intros Hin. apply (Hl1 (k r) Hin). left.
Qed.

(** A rewrite of rows that a query does not see, before or after,
    leaves what the query matches. *)
Lemma matching_fmap_unseen q (f : A → A) rows :
  (∀ x, x ∈ rows → f x = x ∨ (q_where q x = false ∧ q_where q (f x) = false)) →
  matching q (f <$> rows) = matching q rows.
Proof.
  unfold matching. induction rows as [|x rows IH]; intros Hf; [done|].
  rewrite fmap_cons, !filter_cons.
  rewrite IH by (intros y Hy; apply Hf; by right).
  destruct (Hf x) as [->|[H1 H2]]; [by left|done|].
  rewrite H1, H2. by rewrite !decide_False by (by intros ?).
Qed.

Lemma Count_app q rows1 rows2 :
  Count q (rows1 ++ rows2) = Count q rows1 + Count q rows2.
Proof.
  unfold Count, matching. rewrite filter_app, length_app. lia.
Qed.

Lemma Count_cons q x rows :
  Count q (x :: rows)
  = (if q_where q x then 1 else 0) + Count q rows.
Proof.
  unfold Count, matching. rewrite filter_cons.
  destruct (q_where q x); simpl length; lia.
Qed.

End KeyFacts.

Section Imported.
Import ImportedProduct ImportedProductRepository.
Implicit Types (db : list ImportedProduct.t) (p r : ImportedProduct.t).

Lemma refreshed_table now row db :
  let db' := (λ r, if decide (product r = product row)
                   then refreshed now row r else r) <$> db in
  ID <$> db' = ID <$> db ∧ product <$> db' = product <$> db.
Proof.
  cbv zeta. split; rewrite <- list_fmap_compose; apply list_fmap_ext;
    intros _ r _; simpl; by case_decide.
Qed.

Lemma external_where connectionID externalProductID r :
  q_where (Model
           |> Where (λ p, bool_decide
                            (ConnectionID p = connectionID
                             ∧ ExternalProductID p = externalProductID))) r
  = bool_decide (product r = (connectionID, externalProductID)).
Proof.
  simpl. apply bool_decide_ext. unfold product. split.
  - by intros [-> ->].
  - by intros [= -> ->].
Qed.

Lemma GetByExternalProductID_keyed db r :
  keyed db → r ∈ db →
  GetByExternalProductID (ConnectionID r) (ExternalProductID r) db = Some r.
Proof.
  intros [_ Hnd] Hr. apply (First_unique product); [exact Hnd|exact Hr| |].
  - rewrite external_where. by apply bool_decide_eq_true.
  - intros x _. rewrite external_where. by intros ?%bool_decide_eq_true.
Qed.

Lemma GetByExternalProductID_found connectionID externalProductID db r :
  GetByExternalProductID connectionID externalProductID db = Some r →
  r ∈ db ∧ product r = (connectionID, externalProductID).
Proof.
  intros [Hw Hr]%First_Some. split; [done|].
  rewrite external_where in Hw. by apply bool_decide_eq_true in Hw.
Qed.

(** [Upsert] fails only for a product the table does not have under an
    id that is taken.  When it succeeds the keys of the table stay
    unique and the product is found by its connection and external id
    with the name, description, price, stock, category, status, image
    and SKU passed.  Was the product stored before, its row keeps its
    id, its mapping and its import time, takes the update time, and no
    row is added; was it not, the row is added with the defaults filled
    in.  Every other product is found as it was. *)
Theorem Upsert_found_again (fresh : uuid) (now : time) p db :
  keyed db →
  (Upsert fresh now p db = None →
     (product p ∉ product <$> db)
     ∧ (ID (with_defaults fresh now p) ∈ ID <$> db))
  ∧ ∀ db', Upsert fresh now p db = Some db' →
      keyed db'
      ∧ (∃ row,
           GetByExternalProductID (ConnectionID p) (ExternalProductID p) db'
           = Some row
           ∧ Name row = Name p
           ∧ Description row = Description p
           ∧ Price row = Price p
           ∧ Stock row = Stock p
           ∧ CategoryID row = CategoryID p
           ∧ Status row = Status p
           ∧ ImageURL row = ImageURL p
           ∧ ExternalSKU row = ExternalSKU p
           ∧ (∀ old,
                GetByExternalProductID (ConnectionID p)
                  (ExternalProductID p) db = Some old →
                ID row = ID old
                ∧ IsMapped row = IsMapped old
                ∧ MappedToProductID row = MappedToProductID old
                ∧ ImportedAt row = ImportedAt old
                ∧ UpdatedAt row = now
                ∧ length db' = length db)
           ∧ (GetByExternalProductID (ConnectionID p)
                (ExternalProductID p) db = None →
              row = with_defaults fresh now p ∧ db' = db ++ [row]))
      ∧ (∀ connectionID externalProductID,
           (connectionID, externalProductID) ≠ product p →
           GetByExternalProductID connectionID externalProductID db'
           = GetByExternalProductID connectionID externalProductID db).
Proof.
  intros Hk. unfold Upsert. cbv zeta.
  change (product (with_defaults fresh now p)) with (product p).
  set (row := with_defaults fresh now p).
  case_bool_decide as Hin.
  - (* the product is stored: it is rewritten *)
    split; [done|]. intros db' [= <-].
    apply list_elem_of_fmap in Hin as (r & Hpr & Hr).
    destruct (refreshed_table now row db) as [Hids Hprods].
    change (product row) with (product p) in Hids, Hprods.
    set (db' := (λ r, if decide (product r = product p)
                      then refreshed now row r else r) <$> db) in *.
    assert (Hk' : keyed db').
    { destruct Hk as [H1 H2]. unfold keyed. by rewrite Hids, Hprods. }
    assert (Hr' : refreshed now row r ∈ db').
    { apply list_elem_of_fmap. exists r. split; [|done].
      by rewrite decide_True. }
    split; [exact Hk'|]. split.
    + exists (refreshed now row r). split.
      { pose proof (GetByExternalProductID_keyed db'
                      (refreshed now row r) Hk' Hr') as Hg.
        simpl in Hg.
        assert (Hc : ConnectionID r = ConnectionID p
                     ∧ ExternalProductID r = ExternalProductID p).
        { unfold product in Hpr. by injection Hpr as -> ->. }
        destruct Hc as [Hc He]. by rewrite Hc, He in Hg. }
      do 8 (split; [reflexivity|]). split.
      * intros old [Hold Hpo]%GetByExternalProductID_found.
        assert (old = r) as ->.
        { destruct Hk as [_ Hnd].
          apply (NoDup_fmap_inj product db); auto.
        rewrite Hpo. exact Hpr. }
        repeat split. unfold db'. by rewrite length_fmap.
      * intros Hnone. exfalso.
        apply (First_None _ _ r) in Hnone; [|done].
        rewrite external_where in Hnone.
        apply bool_decide_eq_false in Hnone. by apply Hnone.
    + intros c e Hne. apply First_matching, matching_fmap_unseen.
      intros x _. case_decide as E; [right|by left].
      rewrite !external_where. split; apply bool_decide_eq_false.
      * congruence.
      * change (product (refreshed now row x)) with (product x). congruence.
  - (* the product is new: it is inserted *)
    unfold Insert. change (pk row) with (ID row).
    change (@pk ImportedProduct.t _) with ID.
    case_bool_decide as Hid.
    + split; [done|]. intros db' [=].
    + split; [done|]. intros db' [= <-].
      assert (Hk' : keyed (db ++ [row])).
      { destruct Hk as [H1 H2]. unfold keyed. rewrite !fmap_app. split.
        - apply NoDup_app. split; [done|]. split; [|apply NoDup_singleton].
          intros x Hx ->%list_elem_of_singleton. by apply Hid.
        - apply NoDup_app. split; [done|]. split; [|apply NoDup_singleton].
          intros x Hx ->%list_elem_of_singleton. by apply Hin. }
      assert (Hrow : row ∈ db ++ [row]).
      { apply elem_of_app. right. by apply list_elem_of_singleton. }
      split; [exact Hk'|]. split.
      * exists row. split.
        { exact (GetByExternalProductID_keyed (db ++ [row]) row Hk' Hrow). }
        do 8 (split; [reflexivity|]). split; [|done].
        intros old [Hold Hpo]%GetByExternalProductID_found.
        destruct Hin. apply list_elem_of_fmap. by exists old.
      * intros c e Hne. apply First_matching. unfold matching.
        rewrite filter_app.
        rewrite (filter_none _ [row]); [apply app_nil_r|].
        intros x ->%list_elem_of_singleton. rewrite external_where.
        intros Hx%Is_true_true%bool_decide_eq_true. by apply Hne.
Qed.

Lemma imported_where_id_fmap id (f : ImportedProduct.t → ImportedProduct.t)
    db :
  (λ p, if q_where (Model |> Where (λ p, bool_decide (ID p = id))) p
        then f p else p) <$> db
  = (λ p, if decide (ID p = id) then f p else p) <$> db.
Proof.
  apply list_fmap_ext. intros _ p _. simpl.
  by case_bool_decide; case_decide.
Qed.

Lemma SetMapped_eq now id internalProductID db :
  SetMapped now id internalProductID db
  = Some ((λ p, if decide (ID p = id)
                then with_UpdatedAt now
                       (with_mapping true (Some internalProductID) p)
                else p) <$> db).
Proof.
  unfold SetMapped. rewrite <- imported_where_id_fmap.
  by apply Updates_fmap.
Qed.

Lemma SetUnmapped_eq now id db :
  SetUnmapped now id db
  = Some ((λ p, if decide (ID p = id)
                then with_UpdatedAt now (with_mapping false None p)
                else p) <$> db).
Proof.
  unfold SetUnmapped. rewrite <- imported_where_id_fmap.
  by apply Updates_fmap.
Qed.

Lemma unmapped_where connectionID r :
  q_where (Model
           |> Where (λ p, bool_decide (ConnectionID p = connectionID
                                       ∧ IsMapped p = false))) r
  = bool_decide (ConnectionID r = connectionID ∧ IsMapped r = false).
Proof. done. Qed.

(** Mapping and unmapping.  On a table with unique keys, [SetMapped]
    of a stored product succeeds and stores it as mapped to the internal
    product, with the update time; [SetUnmapped] stores it as unmapped
    with no internal product; either way its data stay.  The count of
    unmapped products of a connection goes down by one when an unmapped
    product of it is mapped, is otherwise unchanged by [SetMapped], and
    after [SetUnmapped] counts the product again. *)
Theorem SetMapped_SetUnmapped (now later : time) (internalProductID : uuid)
    r db :
  keyed db → r ∈ db →
  ∃ db1 db2,
    SetMapped now (ID r) internalProductID db = Some db1
    ∧ SetUnmapped later (ID r) db1 = Some db2
    ∧ GetByID (ID r) db1
      = Some (with_UpdatedAt now
                (with_mapping true (Some internalProductID) r))
    ∧ GetByID (ID r) db2
      = Some (with_UpdatedAt later (with_mapping false None r))
    ∧ (∀ connectionID,
         GetUnmappedCount connectionID db1
         = GetUnmappedCount connectionID db
           - (if bool_decide (ConnectionID r = connectionID
                              ∧ IsMapped r = false) then 1 else 0))
    ∧ (∀ connectionID,
         GetUnmappedCount connectionID db2
         = GetUnmappedCount connectionID db
           + (if bool_decide (ConnectionID r = connectionID
                              ∧ IsMapped r = true) then 1 else 0)).
Proof.
  intros [Hnd Hprod] Hr.
  destruct (keyed_split ID db r Hnd Hr) as (l1 & l2 & -> & Hl1 & Hl2).
  set (r1 := with_UpdatedAt now
               (with_mapping true (Some internalProductID) r)).
  set (r2 := with_UpdatedAt later (with_mapping false None r)).
  assert (Hdb1 : SetMapped now (ID r) internalProductID (l1 ++ r :: l2)
                 = Some (l1 ++ r1 :: l2)).
  { rewrite SetMapped_eq. f_equal.
    by apply (rewrite_at ID
                (λ p, with_UpdatedAt now
                        (with_mapping true (Some internalProductID) p))). }
  assert (Hdb2 : SetUnmapped later (ID r) (l1 ++ r1 :: l2)
                 = Some (l1 ++ r2 :: l2)).
  { rewrite SetUnmapped_eq. f_equal.
    by apply (rewrite_at ID
                (λ p, with_UpdatedAt later (with_mapping false None p))
                l1 r1 l2). }
  assert (Hnd1 : NoDup (ID <$> l1 ++ r1 :: l2)).
  { by rewrite fmap_app, fmap_cons in *. }
  assert (Hnd2 : NoDup (ID <$> l1 ++ r2 :: l2)).
  { by rewrite fmap_app, fmap_cons in *. }
  assert (Hget : ∀ x, NoDup (ID <$> l1 ++ x :: l2) →
            GetByID (ID x) (l1 ++ x :: l2) = Some x).
  { intros x Hx. apply First_keyed; [exact Hx| | |].
    - apply elem_of_app. right. left.
    - simpl. by rewrite bool_decide_eq_true_2.
    - intros y _ Hy. simpl in Hy. by apply bool_decide_eq_true in Hy. }
  exists (l1 ++ r1 :: l2), (l1 ++ r2 :: l2).
  split; [exact Hdb1|]. split; [exact Hdb2|].
  split; [exact (Hget r1 Hnd1)|]. split; [exact (Hget r2 Hnd2)|].
  unfold GetUnmappedCount.
  split; intros c; rewrite !Count_app, !Count_cons, !unmapped_where;
    simpl; destruct (IsMapped r);
    repeat case_bool_decide; intuition (try lia; try congruence).
Qed.

End Imported.

(** ** Closed examples *)

(** The digest and the MAC on published test vectors (FIPS 180-4 and
    RFC 4231). *)
Example sha256_abc :
  hex.EncodeToString (sha256.Sum256 "abc")
  = "ba7816bf8f01cfea414140de5dae2223b00361a396177a9cb410ff61f20015ad".
Proof. by vm_compute. Qed.

Example hmac_sha256_rfc4231_2 :
  hex.EncodeToString (hmac.mac "Jefe" "what do ya want for nothing?")
  = "5bdcc146bf60754e6a042426089575c75a003f089d2739839dec58b964ec3843".
Proof. by vm_compute. Qed.

Example generateSign_example :
  shopee.generateSign (shopee.mkClient 2001887 "key" "" "" 0)
    "/api/v2/shop/auth_partner" 1700000000
  = "afd7164a92d8662e7ac8d115dfff8900785016c9465225abb977cf38be8a89f2".
Proof. by vm_compute. Qed.

(** The due jobs of the sample table at time 100, by schedule; job 2 has
    no attempts left, job 3 is failed, job 5 is not due yet. *)
Example GetPendingJobs_example :
  SyncJob.ID <$> repository.GetPendingJobs 100 10 examples.jobs = [4%N; 1%N]
  ∧ SyncJob.ID <$> repository.GetPendingJobs 100 1 examples.jobs = [4%N]
  ∧ SyncJob.ID <$> repository.GetPendingJobs 100 0 examples.jobs = []
  ∧ SyncJob.ID <$> repository.GetPendingJobs 100 (-1) examples.jobs
    = [4%N; 1%N].
Proof. repeat split; by vm_compute. Qed.

(** A TikTok event under its own signature is taken. *)
Example TikTok_accepts_signed :
  handlers.HandleTikTokWebhook json.Unmarshal_tiktokEvent examples.handler
    (handlers.mkRequest "POST" "/api/v1/webhooks/tiktok"
       (Some examples.tiktok_body)
       [("X-Tts-Signature",
         handlers.expected_signature "app-secret" examples.tiktok_body)])
  = handlers.mkOutcome [(handlers.Info, "Received TikTok webhook")] 200
      [("status", "received")]
      [handlers.HandleTikTokOrderEvent "S1" "O1" 2].
Proof. by vm_compute. Qed.

(** A poll of the sample table at time 100 marks jobs 4 and 1; with
    [retry_bounded], every job of the polled table is within its limit. *)
Lemma retry_bounded_witness :
  queue.keyed examples.jobs
  ∧ queue.bounded examples.jobs
  ∧ queue.reachable examples.jobs examples.jobs_polled
  ∧ queue.bounded examples.jobs_polled.
Proof.
  assert (Hk : queue.keyed examples.jobs).
  { unfold queue.keyed. evaluated. }
  assert (Hb : queue.bounded examples.jobs).
  { unfold queue.bounded. evaluated. }
  assert (Hr : queue.reachable examples.jobs examples.jobs_polled).
  { eapply rtc_l; [|apply rtc_refl].
    apply (queue.poll_pending _ 100 10). by vm_compute. }
  repeat split; try done.
  exact (proj1 (proj2 (retry_bounded examples.jobs examples.jobs_polled
                         Hk Hb Hr))).
Defined.

(** A run of operations on the sample table keeps the statuses in the
    domain. *)
Lemma status_domain_closed_witness :
  Forall queue.with_constant examples.ops
  ∧ Forall (λ j, SyncJob.Status j ∈ queue.statuses) examples.jobs
  ∧ Forall (λ j, SyncJob.Status j ∈ queue.statuses)
      (queue.run examples.ops examples.jobs).
Proof.
  assert (Hops : Forall queue.with_constant examples.ops).
  { by repeat constructor. }
  assert (Hdb : Forall (λ j, SyncJob.Status j ∈ queue.statuses)
                  examples.jobs).
  { by repeat constructor. }
  repeat split; try done.
  exact (proj1 (status_domain_closed examples.ops examples.jobs Hops Hdb)).
Defined.

(** A forged TikTok event is answered 401. *)
Lemma webhook_signature_verification_witness :
  handlers.Body examples.tiktok_forged = Some examples.tiktok_body
  ∧ handlers.tiktokSecret examples.handler ≠ ""
  ∧ handlers.GetHeader "X-Tts-Signature" examples.tiktok_forged
    ≠ handlers.expected_signature (handlers.tiktokSecret examples.handler)
        examples.tiktok_body
  ∧ handlers.status
      (handlers.HandleTikTokWebhook json.Unmarshal_tiktokEvent
         examples.handler examples.tiktok_forged) = 401.
Proof.
  assert (Hsig : handlers.GetHeader "X-Tts-Signature" examples.tiktok_forged
                 ≠ handlers.expected_signature
                     (handlers.tiktokSecret examples.handler)
                     examples.tiktok_body).
  { refine (bool_decide_eq_false_1 (_ = _) _). by vm_compute. }
  assert (Hsecret : handlers.tiktokSecret examples.handler ≠ "") by done.
  split; [reflexivity|]. split; [exact Hsecret|]. split; [exact Hsig|].
  exact (proj1 (proj2 (webhook_signature_verification
                         json.Unmarshal_testPush json.Unmarshal_shopeeEvent
                         json.Unmarshal_tiktokEvent))
           examples.handler examples.tiktok_forged examples.tiktok_body
           eq_refl Hsecret Hsig).
Defined.

(** A Shopee callback for a shop that has a connection leaves one
    connection for each shop. *)
Lemma one_connection_per_shop_witness :
  Connection.keyed examples.connections
  ∧ Connection.one_per_shop examples.connections
  ∧ services.fresh examples.world ≠ uuid_Nil
  ∧ Connection.one_per_shop
      (services.HandleShopeeCallback examples.service examples.world
         "code" 1001 examples.connections).2
  ∧ Connection.one_per_shop
      (services.HandleTikTokCallback examples.service examples.world
         "code" examples.connections).2.
Proof.
  assert (Hk : Connection.keyed examples.connections).
  { unfold Connection.keyed. split.
    - evaluated.
    - evaluated. }
  assert (Hone : Connection.one_per_shop examples.connections).
  { unfold Connection.one_per_shop. evaluated. }
  assert (Hfresh : services.fresh examples.world ≠ uuid_Nil) by done.
  pose proof (one_connection_per_shop examples.service examples.world
                examples.connections Hk Hone Hfresh) as (_ & _ & Hs & Ht).
  repeat split; try done.
  - apply (Hs "code" 1001).
  - apply (Ht "code").
Defined.

(** Two connections that differ in their tokens only. *)
Lemma ToResponse_independent_of_tokens_witness :
  Connection.same_but_tokens
    (examples.connection 11%N "shopee" "1001" "old")
    (examples.connection 11%N "shopee" "1001" "new")
  ∧ Connection.ToResponse (examples.connection 11%N "shopee" "1001" "old")
    = Connection.ToResponse (examples.connection 11%N "shopee" "1001" "new").
Proof.
  assert (Hs : Connection.same_but_tokens
                 (examples.connection 11%N "shopee" "1001" "old")
                 (examples.connection 11%N "shopee" "1001" "new"))
    by (by repeat split).
  split; [done|].
  exact (ToResponse_independent_of_tokens _ _ Hs).
Defined.

(** The first page of the sample jobs, under the defaults. *)
Lemma GetByConnectionID_in_range_witness :
  Go.in_int (SyncJobFilter.page_of None)
  ∧ Go.in_int ((SyncJobFilter.page_of None - 1) * SyncJobFilter.size_of None)
  ∧ ∃ rows,
      rows ≡ₚ filter (SyncJobFilter.admits 7%N None) examples.jobs
      ∧ repository.GetByConnectionID 7%N None examples.jobs
        = (take 20 (drop 0 rows), Z.of_nat (length rows)).
Proof.
  assert (H1 : Go.in_int (SyncJobFilter.page_of None)) by (by vm_compute).
  assert (H2 : Go.in_int ((SyncJobFilter.page_of None - 1)
                          * SyncJobFilter.size_of None)) by (by vm_compute).
  repeat split; try done.
  destruct (GetByConnectionID_in_range 7%N None examples.jobs H1 H2)
    as (rows & Hperm & _ & Heq).
  exists rows. split; [done|exact Heq].
Defined.

(** The second page of size one of the sample mappings. *)
Lemma mappings_in_range_witness :
  Go.in_int (ProductMappingFilter.page_of
               (Some (ProductMappingFilter.mk None None "" 2 1)))
  ∧ (ProductMappingRepository.GetByConnectionID 7%N
       (Some (ProductMappingFilter.mk None None "" 2 1))
       examples.mappings).2 = 2.
Proof.
  assert (H1 : Go.in_int (ProductMappingFilter.page_of
                 (Some (ProductMappingFilter.mk None None "" 2 1))))
    by (by vm_compute).
  assert (H2 : Go.in_int
                 ((ProductMappingFilter.page_of
                     (Some (ProductMappingFilter.mk None None "" 2 1)) - 1)
                  * ProductMappingFilter.size_of
                      (Some (ProductMappingFilter.mk None None "" 2 1))))
    by (by vm_compute).
  split; [done|].
  destruct (mappings_in_range 7%N
              (Some (ProductMappingFilter.mk None None "" 2 1))
              examples.mappings H1 H2) as (rows & Hperm & _ & Heq).
  by vm_compute.
Defined.

(** ** Closed examples for the further properties *)

(** Job 1 of the sample table, once marked processing, is not pending at
    any time. *)
Lemma marked_job_not_pending_witness :
  repository.MarkProcessing 100 1%N examples.jobs = Some samples.jobs_marked
  ∧ ∀ now limit j,
      j ∈ repository.GetPendingJobs now limit samples.jobs_marked →
      SyncJob.ID j ≠ 1%N.
Proof.
  assert (Hm : repository.MarkProcessing 100 1%N examples.jobs
               = Some samples.jobs_marked) by (by vm_compute).
  split; [exact Hm|].
  exact (marked_job_not_pending 1%N examples.jobs samples.jobs_marked
           (or_introl (ex_intro _ 100 Hm))).
Defined.

(** Job 4 of the sample table has used two of three attempts: when it
    fails it is among the failed jobs of its connection at once. *)
Lemma failed_job_retried_at_once_witness :
  repository.MarkFailed 4%N "timeout" examples.jobs = Some samples.jobs_failed
  ∧ examples.job 4%N "pending" 2 20 4 ∈ examples.jobs
  ∧ SyncJob.failed "timeout" (examples.job 4%N "pending" 2 20 4)
    ∈ repository.GetFailedJobs 7%N samples.jobs_failed.
Proof.
  assert (Hm : repository.MarkFailed 4%N "timeout" examples.jobs
               = Some samples.jobs_failed) by (by vm_compute).
  assert (Hj : examples.job 4%N "pending" 2 20 4 ∈ examples.jobs)
    by (unfold examples.jobs; listed).
  split; [exact Hm|]. split; [exact Hj|].
  apply (failed_job_retried_at_once 4%N "timeout" examples.jobs
           samples.jobs_failed (examples.job 4%N "pending" 2 20 4) Hm Hj
           eq_refl).
  simpl. lia.
Defined.

(** A job created in the sample table under the generated id 9 is found
    by that id. *)
Lemma Create_then_GetByID_witness :
  queue.keyed examples.jobs
  ∧ repository.Create 9%N 100 (examples.job 0%N "" 0 0 0) examples.jobs
    = Some (examples.jobs ++ [examples.job 9%N "pending" 0 100 100])
  ∧ repository.GetByID 9%N
      (examples.jobs ++ [examples.job 9%N "pending" 0 100 100])
    = Some (examples.job 9%N "pending" 0 100 100).
Proof.
  assert (Hk : queue.keyed examples.jobs).
  { unfold queue.keyed. evaluated. }
  assert (Hc : repository.Create 9%N 100 (examples.job 0%N "" 0 0 0)
                 examples.jobs
               = Some (examples.jobs ++ [examples.job 9%N "pending" 0 100 100]))
    by (by vm_compute).
  split; [exact Hk|]. split; [exact Hc|].
  exact (proj1 (proj2 (proj2 (proj2
           (Create_then_GetByID 9%N 100 (examples.job 0%N "" 0 0 0)
              examples.jobs _ Hk Hc))))).
Defined.

(** A clean-up of the sample table after a day: no job of it is
    completed, so all stay. *)
Lemma DeleteOldCompleted_removes_expired_witness :
  0 ≤ 24 ≤ retention.max_hours
  ∧ repository.DeleteOldCompleted 200 24 examples.jobs = Some examples.jobs.
Proof.
  assert (Hh : 0 ≤ 24 ≤ retention.max_hours)
    by (unfold retention.max_hours; lia).
  split; [exact Hh|].
  rewrite (DeleteOldCompleted_removes_expired 200 24 examples.jobs Hh).
  by vm_compute.
Defined.

(** Job 4 of the sample table saved with another schedule. *)
Lemma Update_overwrites_witness :
  queue.keyed examples.jobs
  ∧ SyncJob.ID (examples.job 4%N "pending" 2 300 4) ≠ uuid_Nil
  ∧ SyncJob.ID (examples.job 4%N "pending" 2 300 4)
    ∈ SyncJob.ID <$> examples.jobs
  ∧ ∃ db',
      repository.Update 10%N 100 (examples.job 4%N "pending" 2 300 4)
        examples.jobs = Some db'
      ∧ repository.GetByID 4%N db'
        = Some (examples.job 4%N "pending" 2 300 4).
Proof.
  assert (Hk : queue.keyed examples.jobs).
  { unfold queue.keyed. evaluated. }
  assert (Hn : SyncJob.ID (examples.job 4%N "pending" 2 300 4) ≠ uuid_Nil)
    by done.
  assert (Hin : SyncJob.ID (examples.job 4%N "pending" 2 300 4)
                ∈ SyncJob.ID <$> examples.jobs) by evaluated.
  split; [exact Hk|]. split; [exact Hn|]. split; [exact Hin|].
  destruct (Update_overwrites 10%N 100 (examples.job 4%N "pending" 2 300 4)
              examples.jobs Hk Hn Hin) as (db' & Hu & _ & _ & Hg).
  exists db'. split; [exact Hu|exact Hg].
Defined.

(** The poll of the sample table at time 100. *)
Lemma poll_cycles_keep_jobs_witness :
  queue.reachable examples.jobs examples.jobs_polled
  ∧ Forall2 retention.continues examples.jobs examples.jobs_polled.
Proof.
  assert (Hr : queue.reachable examples.jobs examples.jobs_polled).
  { eapply rtc_l; [|apply rtc_refl].
    apply (queue.poll_pending _ 100 10). by vm_compute. }
  split; [exact Hr|].
  exact (poll_cycles_keep_jobs examples.jobs examples.jobs_polled Hr).
Defined.

(** A TikTok event under its own signature is handled as without a
    secret. *)
Lemma TikTok_signature_exact_witness :
  handlers.Body samples.tiktok_signed = Some examples.tiktok_body
  ∧ handlers.tiktokSecret examples.handler ≠ ""
  ∧ handlers.status
      (handlers.HandleTikTokWebhook json.Unmarshal_tiktokEvent
         examples.handler samples.tiktok_signed) ≠ 401.
Proof.
  assert (Hsecret : handlers.tiktokSecret examples.handler ≠ "") by done.
  split; [reflexivity|]. split; [exact Hsecret|].
  intros Hst.
  apply (proj1 (proj1 (TikTok_signature_exact json.Unmarshal_tiktokEvent
                         examples.handler samples.tiktok_signed
                         examples.tiktok_body eq_refl Hsecret)) Hst).
  reflexivity.
Defined.

(** Without a secret a forged TikTok event is handled as a signed one. *)
Lemma TikTok_unconfigured_unchecked_witness :
  handlers.tiktokSecret samples.open_handler = ""
  ∧ handlers.HandleTikTokWebhook json.Unmarshal_tiktokEvent
      samples.open_handler examples.tiktok_forged
    = handlers.HandleTikTokWebhook json.Unmarshal_tiktokEvent
        samples.open_handler samples.tiktok_signed.
Proof.
  split; [reflexivity|].
  exact (proj1 (TikTok_unconfigured_unchecked json.Unmarshal_tiktokEvent
                  samples.open_handler samples.tiktok_signed
                  examples.tiktok_forged eq_refl eq_refl)).
Defined.

(** Disconnecting the Shopee shop of the sample table leaves the TikTok
    shop the one active connection. *)
Lemma Disconnect_deactivates_witness :
  Connection.keyed examples.connections
  ∧ ∃ db',
      services.Disconnect examples.world 11%N examples.connections
      = (services.Ok (), db')
      ∧ ConnectionRepository.Deactivate 1000 11%N examples.connections
        = Some db'.
Proof.
  assert (Hk : Connection.keyed examples.connections).
  { unfold Connection.keyed. split.
    - evaluated.
    - evaluated. }
  split; [exact Hk|].
  destruct (proj2 (Disconnect_deactivates examples.world 11%N
                     examples.connections Hk)
              (examples.connection 11%N "shopee" "1001" "old"))
    as (c' & db' & Hd & H);
    [unfold examples.connections; listed|reflexivity|].
  exists db'. split; [exact Hd|].
  apply H.
Defined.

(** A product that is imported again keeps its row. *)
Lemma Upsert_found_again_witness :
  ImportedProductRepository.keyed samples.imported
  ∧ ∃ db',
      ImportedProductRepository.Upsert 9%N 100 samples.reimported
        samples.imported = Some db'
      ∧ ImportedProductRepository.keyed db'.
Proof.
  assert (Hk : ImportedProductRepository.keyed samples.imported).
  { unfold ImportedProductRepository.keyed. split.
    - evaluated.
    - evaluated. }
  split; [exact Hk|].
  eexists. split; [by vm_compute|].
  refine (proj1 (proj2 (Upsert_found_again 9%N 100 samples.reimported
                          samples.imported Hk) _ _)).
  by vm_compute.
Defined.

(** The sample product is mapped to another internal product and
    unmapped again. *)
Lemma SetMapped_SetUnmapped_witness :
  ImportedProductRepository.keyed samples.imported
  ∧ ∃ r db1 db2,
      r ∈ samples.imported
      ∧ ImportedProductRepository.SetMapped 100 1%N 41%N samples.imported
        = Some db1
      ∧ ImportedProductRepository.SetUnmapped 200 1%N db1 = Some db2
      ∧ ImportedProductRepository.GetUnmappedCount 7%N db2 = 1.
Proof.
  assert (Hk : ImportedProductRepository.keyed samples.imported).
  { unfold ImportedProductRepository.keyed. split.
    - evaluated.
    - evaluated. }
  split; [exact Hk|].
  assert (Hr : ImportedProduct.mk 1%N 7%N "E1" "sku-1" "Old name" ""
                 1.5%float 3 "100" "NORMAL" "" true (Some 40%N) 10 10
               ∈ samples.imported) by (unfold samples.imported; listed).
  destruct (SetMapped_SetUnmapped 100 200 41%N _ samples.imported Hk Hr)
    as (db1 & db2 & H1 & H2 & _ & _ & _ & H6).
  eexists _, db1, db2. split; [exact Hr|]. split; [exact H1|].
  split; [exact H2|]. rewrite H6. by vm_compute.
Defined.

(** The shop id 1001 of the sample answer. *)
Lemma shop_id_parses_back_witness :
  Go.in_int 1001
  ∧ ∀ tok,
      shopee_auth.ExchangeCode 1000
        (Some (shopee_auth.TokenResponse.mk "access" "refresh" 14400))
        "code" 1001 = Some tok →
      strconv.ParseInt (providers.TokenResponse.ShopID tok) = (1001, None).
Proof.
  assert (Hn : Go.in_int 1001) by (unfold Go.in_int; lia).
  split; [exact Hn|].
  exact (proj1 (shop_id_parses_back 1000 1001 Hn) _ "code").
Defined.

(** A refresh of the Shopee connection of the sample table. *)
Lemma RefreshConnectionToken_effect_witness :
  Connection.keyed examples.connections
  ∧ (services.RefreshConnectionToken examples.service examples.world
       samples.refresh 11%N examples.connections).1 = services.Ok ().
Proof.
  assert (Hk : Connection.keyed examples.connections).
  { unfold Connection.keyed. split.
    - evaluated.
    - evaluated. }
  split; [exact Hk|].
  assert (Hc : examples.connection 11%N "shopee" "1001" "old"
               ∈ examples.connections)
    by (unfold examples.connections; listed).
  assert (Hn : Go.in_int 1001) by (unfold Go.in_int; lia).
  exact (proj1
           (proj2 (proj2 (proj2 (proj2
              (RefreshConnectionToken_effect examples.service examples.world
                 samples.refresh 11%N examples.connections Hk))))
              (examples.connection 11%N "shopee" "1001" "old") 1001
              "refresh" (shopee.mkClient 2001887 "partner-key" "" "" 0)
              Hc eq_refl eq_refl eq_refl Hn eq_refl eq_refl)).
Defined.
